(** * Network statistics of the verse cross-reference graph

    A shallow embedding of the [NetworkStats] module (degree centrality,
    sampled betweenness, breadth-first path search, clustering
    coefficient, hub scores, label propagation, graph-wide scalars and
    the result cache) and of the [DataLoader] module that builds the
    verse list, followed by the properties proved about them.

    Conventions of the embedding.
    - A JavaScript number is an extended rational ([Number]): finite
      values are exact rationals kept in lowest terms, next to [NaN],
      [Infinity] and [NegInfinity].  The counts and the quotients of two
      counts are kept exact; the hub score, a product of such quotients,
      is rounded to binary64 as the program rounds it ([round64]), since
      its ranking depends on the rounding.  The sign of zero is not
      represented.
    - A verse object is the record [Verse].  The layout coordinates [x]
      and [y], which [{...verse}] copies into every result object and
      which no function of the module reads, are left out; so is
      [exportStats], whose text serialises them.
    - [Map] objects that are only read with [get] are [gmap]s; maps that
      are iterated keep their insertion order in an association list.
    - The module-level [statsCache], the position in the stream of
      [Math.random()] values and the clock form the [World] that every
      public function threads.
    - A function is named as in the source.  A result object
      [{...verse, score}] is a record that holds the verse next to the
      added fields; where two objects of the source have a field of the
      same name, one of them is renamed.
    - [console.log] and the limits of an engine (stack depth, the number
      of arguments of a spread call, memory) are not represented. *)

From Stdlib Require Import QArith Qround Qreduction.
From stdpp Require Import gmap strings list fin_maps fin_sets sorting.

Close Scope Q_scope.
Local Open Scope nat_scope.

(* ===================================================================== *)
(** ** JavaScript numbers *)
(* ===================================================================== *)

(** A number: a finite value, [NaN], [Infinity] or [-Infinity]. *)
Inductive Number : Type :=
| Fin (q : Q)
| NaN
| Infinity
| NegInfinity.

(** Integer literals and counts as numbers. *)
Definition ofZ (z : Z) : Number := Fin (inject_Z z).
Definition ofNat (n : nat) : Number := ofZ (Z.of_nat n).

(** [q === 0] and [q >= 0] on finite values. *)
Definition Qis0 (q : Q) : bool := Qeq_bool q 0.
Definition Qnonneg (q : Q) : bool := Qle_bool 0 q.

(** [x / y] *)
Definition numDiv (x y : Number) : Number :=
  match x, y with
  | NaN, _ | _, NaN => NaN
  | Fin a, Fin b =>
      if Qis0 b then
        if Qis0 a then NaN else if Qnonneg a then Infinity else NegInfinity
      else Fin (Qred (a / b))
  | Fin _, (Infinity | NegInfinity) => Fin 0
  | Infinity, Fin b => if Qnonneg b then Infinity else NegInfinity
  | NegInfinity, Fin b => if Qnonneg b then NegInfinity else Infinity
  | (Infinity | NegInfinity), (Infinity | NegInfinity) => NaN
  end.

(** [x - y] *)
Definition numSub (x y : Number) : Number :=
  match x, y with
  | NaN, _ | _, NaN => NaN
  | Fin a, Fin b => Fin (Qred (a - b))
  | Fin _, Infinity => NegInfinity
  | Fin _, NegInfinity => Infinity
  | Infinity, Infinity | NegInfinity, NegInfinity => NaN
  | Infinity, _ => Infinity
  | NegInfinity, _ => NegInfinity
  end.

(** [x * y] *)
Definition numMul (x y : Number) : Number :=
  match x, y with
  | NaN, _ | _, NaN => NaN
  | Fin a, Fin b => Fin (Qred (a * b))
  | Fin a, Infinity | Infinity, Fin a =>
      if Qis0 a then NaN else if Qnonneg a then Infinity else NegInfinity
  | Fin a, NegInfinity | NegInfinity, Fin a =>
      if Qis0 a then NaN else if Qnonneg a then NegInfinity else Infinity
  | Infinity, Infinity | NegInfinity, NegInfinity => Infinity
  | Infinity, NegInfinity | NegInfinity, Infinity => NaN
  end.

(** [-x] *)
Definition numNeg (x : Number) : Number :=
  match x with
  | Fin q => Fin (Qred (- q))
  | NaN => NaN
  | Infinity => NegInfinity
  | NegInfinity => Infinity
  end.

(** The integer nearest to [n / d], for [d > 0]; a tie goes to the even
    one. *)
Definition nearestEven (n d : Z) : Z :=
  let q := (n / d)%Z in
  match (2 * (n mod d) ?= d)%Z with
  | Lt => q
  | Gt => (q + 1)%Z
  | Eq => if Z.even q then q else (q + 1)%Z
  end.

(** [2 ^ k] for an exponent of either sign. *)
Definition pow2 (k : Z) : Q :=
  if (0 <=? k)%Z then inject_Z (2 ^ k) else 1 # Z.to_pos (2 ^ (- k)).

(** The binary64 value of a positive rational [n / d]: with
    [2 ^ e <= n / d < 2 ^ (e + 1)], the multiple of [2 ^ (e - 52)] (of
    [2 ^ -1074] in the subnormal range) nearest to it, a tie going to the
    even multiple, and [Infinity] from [2 ^ 1024] on. *)
Definition round64pos (n d : positive) : Number :=
  let e0 := (Z.log2 (Z.pos n) - Z.log2 (Z.pos d))%Z in
  let e := if Qle_bool (pow2 e0) (Z.pos n # d) then e0 else (e0 - 1)%Z in
  let k := Z.max (e - 52) (-1074) in
  let m := if (0 <=? k)%Z then nearestEven (Z.pos n) (Z.pos d * 2 ^ k)
           else nearestEven (Z.pos n * 2 ^ (- k)) (Z.pos d) in
  let x := Qred (inject_Z m * pow2 k) in
  if Qle_bool (pow2 1024) x then Infinity else Fin x.

(** The binary64 value nearest to a rational (round to nearest, ties to
    even). *)
Definition round64 (q : Q) : Number :=
  match Qnum q with
  | Z0 => Fin 0
  | Z.pos n => round64pos n (Qden q)
  | Z.neg n => numNeg (round64pos n (Qden q))
  end.

(** The binary64 value that stands for an exact result. *)
Definition toBinary64 (x : Number) : Number :=
  match x with
  | Fin q => round64 q
  | NaN | Infinity | NegInfinity => x
  end.

(** Truthiness of a number: [0] and [NaN] are falsy. *)
Definition truthy (x : Number) : bool :=
  match x with
  | Fin q => negb (Qis0 q)
  | NaN => false
  | Infinity | NegInfinity => true
  end.

(** [x || y] on numbers. *)
Definition numOr (x y : Number) : Number := if truthy x then x else y.

(** [x > 0], the only test [Array.prototype.sort] makes on what a
    comparator returns that matters for a stable sort ([NaN] counts as 0). *)
Definition isPositive (x : Number) : bool :=
  match x with
  | Fin q => negb (Qle_bool q 0)
  | Infinity => true
  | NaN | NegInfinity => false
  end.

(** [Math.max(...ns)] for a list of counts; [-Infinity] on no arguments. *)
Definition mathMax (ns : list nat) : Number :=
  match ns with
  | [] => NegInfinity
  | _ :: _ => ofNat (max_list ns)
  end.

(** [Math.min(a, b)] and [Math.floor] on the integers and rationals the
    module applies them to. *)
Definition mathMin (a b : Z) : Z := Z.min a b.
Definition mathFloor (q : Q) : Z := Qfloor q.

(** The value [x.toFixed(d)] formats: the string is a function of the
    number and the digit count, and is kept in that symbolic form. *)
Inductive Fixed : Type := toFixed (x : Number) (digits : nat).

(* ===================================================================== *)
(** ** Arrays *)
(* ===================================================================== *)

(** [Array.prototype.sort(cmp)].  The sort is stable, so for a comparator
    that is a consistent ordering its result is the one a stable
    insertion sort gives: [x] moves behind [y] only when [cmp x y > 0]. *)
Fixpoint sortInsert {A : Type} (cmp : A → A → Number) (x : A) (l : list A) : list A :=
  match l with
  | [] => [x]
  | y :: l' => if isPositive (cmp x y) then y :: sortInsert cmp x l' else x :: l
  end.

Definition arraySort {A : Type} (cmp : A → A → Number) (l : list A) : list A :=
  foldr (sortInsert cmp) [] l.

(** [arr.slice(0, n)] *)
Definition slice0 {A : Type} (n : nat) (l : list A) : list A := take n l.

(** [arr.find(p)] *)
Definition arrayFind {A : Type} (p : A → bool) (l : list A) : option A :=
  List.find p l.

(* ===================================================================== *)
(** ** Outcomes *)
(* ===================================================================== *)

(** What a call can end in: a value, a thrown exception, or (for the
    loops run with a step budget) no answer within the budget. *)
Inductive Res (A : Type) : Type :=
| Ok (a : A)
| Throw (msg : string)
| OutOfFuel.
Arguments Ok {A} a.
Arguments Throw {A} msg.
Arguments OutOfFuel {A}.

(** The exception of reading a property of [undefined]. *)
Definition TypeError : string := "TypeError".

(* ===================================================================== *)
(** ** Verses and the id index *)
(* ===================================================================== *)

(** A verse as the data loader builds it: its id, its display reference,
    its book, the ids it references and their number. *)
Record Verse : Type := mkVerse {
  id : string;
  verse : string;
  book : string;
  refs : list string;
  refCount : nat
}.

(** [new Map(verses.map(v => [v.id, v]))]: later entries overwrite. *)
Definition verseMapOf (verses : list Verse) : gmap string Verse :=
  foldl (λ m v, <[id v := v]> m) ∅ verses.

(* ===================================================================== *)
(** ** Result records *)
(* ===================================================================== *)

(** [{...verse, degreeCentrality, normalizedDegree}] *)
Record DegreeScore : Type := mkDegreeScore {
  dsVerse : Verse;
  degreeCentrality : Number;
  normalizedDegree : nat
}.

(** [{...verse, betweennessCentrality, betweennessScore}] *)
Record BetweennessScore : Type := mkBetweennessScore {
  bsVerse : Verse;
  betweennessCentrality : Number;
  betweennessScore : nat
}.

(** [{...verse, clusteringCoefficient}], with [neighborConnections] and
    [possibleConnections] when the coefficient was computed from pairs. *)
Record ClusteringScore : Type := mkClusteringScore {
  csVerse : Verse;
  clusteringCoefficient : Number;
  neighborConnections : option nat;
  possibleConnections : option Number
}.

(** [{...verse, hubScore, isHub}] *)
Record HubScore : Type := mkHubScore {
  hsVerse : Verse;
  hubScore : Number;
  isHub : bool
}.

(** [{communities, communityCount, labels}]; [communityGroups] is the field
    [communities], a list of [[label, members]] entries. *)
Record CommunityResult : Type := mkCommunityResult {
  communityGroups : list (option string * list Verse);
  communityCount : nat;
  labels : gmap string string
}.

(* ===================================================================== *)
(** ** The cache and the world *)
(* ===================================================================== *)

(** The module-level [statsCache]; [null] is [None]. *)
Record StatsCache : Type := mkStatsCache {
  centrality : option (list DegreeScore);
  betweenness : option (list BetweennessScore);
  clustering : option (list ClusteringScore);
  communities : option CommunityResult;
  hubs : option (list HubScore);
  lastComputed : option nat
}.

(** The cache with every slot [null], as at module load and after
    [clearCache]. *)
Definition emptyCache : StatsCache :=
  {| centrality := None; betweenness := None; clustering := None;
     communities := None; hubs := None; lastComputed := None |}.

(** The state the module runs in: its cache, the number of values read
    from [Math.random()] so far, and the time [new Date()] reports. *)
Record World : Type := mkWorld {
  statsCache : StatsCache;
  rngPos : nat;
  clock : nat
}.

(** The world with another cache, and with another stream position. *)
Definition withCache (w : World) (c : StatsCache) : World :=
  {| statsCache := c; rngPos := rngPos w; clock := clock w |}.

Definition withRng (w : World) (k : nat) : World :=
  {| statsCache := statsCache w; rngPos := k; clock := clock w |}.

(** Computations over the world; the world survives an exception. *)
Definition M (A : Type) : Type := World → Res A * World.

#[global] Instance M_ret : MRet M := λ A a w, (Ok a, w).

#[global] Instance M_bind : MBind M := λ A B k m w,
  match m w with
  | (Ok a, w') => k a w'
  | (Throw e, w') => (Throw e, w')
  | (OutOfFuel, w') => (OutOfFuel, w')
  end.

(** Raising an exception, lifting an outcome, reading the cache and
    assigning to a slot of the cache. *)
Definition throw {A : Type} (e : string) : M A := λ w, (Throw e, w).
Definition liftRes {A : Type} (r : Res A) : M A := λ w, (r, w).

Definition getCache : M StatsCache := λ w, (Ok (statsCache w), w).
Definition modifyCache (f : StatsCache → StatsCache) : M unit :=
  λ w, (Ok tt, withCache w (f (statsCache w))).

(** [statsCache.centrality = r], and likewise for the other slots. *)
Definition setCentrality (r : list DegreeScore) (c : StatsCache) : StatsCache :=
  {| centrality := Some r; betweenness := betweenness c; clustering := clustering c;
     communities := communities c; hubs := hubs c; lastComputed := lastComputed c |}.

Definition setBetweenness (r : list BetweennessScore) (c : StatsCache) : StatsCache :=
  {| centrality := centrality c; betweenness := Some r; clustering := clustering c;
     communities := communities c; hubs := hubs c; lastComputed := lastComputed c |}.

Definition setClustering (r : list ClusteringScore) (c : StatsCache) : StatsCache :=
  {| centrality := centrality c; betweenness := betweenness c; clustering := Some r;
     communities := communities c; hubs := hubs c; lastComputed := lastComputed c |}.

Definition setCommunities (r : CommunityResult) (c : StatsCache) : StatsCache :=
  {| centrality := centrality c; betweenness := betweenness c; clustering := clustering c;
     communities := Some r; hubs := hubs c; lastComputed := lastComputed c |}.

Definition setHubs (r : list HubScore) (c : StatsCache) : StatsCache :=
  {| centrality := centrality c; betweenness := betweenness c; clustering := clustering c;
     communities := communities c; hubs := Some r; lastComputed := lastComputed c |}.

Definition setLastComputed (t : nat) (c : StatsCache) : StatsCache :=
  {| centrality := centrality c; betweenness := betweenness c; clustering := clustering c;
     communities := communities c; hubs := hubs c; lastComputed := Some t |}.

(* ===================================================================== *)
(** ** Degree centrality *)
(* ===================================================================== *)

(** The [verses.map(...)] of [calculateDegreeCentrality], with [maxRefs]
    computed once. *)
Definition degreeScores (verses : list Verse) : list DegreeScore :=
  let maxRefs := mathMax (map refCount verses) in
  map (λ v, {| dsVerse := v;
               degreeCentrality := numDiv (ofNat (refCount v)) maxRefs;
               normalizedDegree := refCount v |}) verses.

(** The comparator [(a, b) => b.degreeCentrality - a.degreeCentrality]. *)
Definition byDegreeCentrality (a b : DegreeScore) : Number :=
  numSub (degreeCentrality b) (degreeCentrality a).

(** [calculateDegreeCentrality(verses)] *)
Definition calculateDegreeCentrality (verses : list Verse) : M (list DegreeScore) :=
  c ← getCache;
  match centrality c with
  | Some cached => mret cached
  | None =>
      let sorted := arraySort byDegreeCentrality (degreeScores verses) in
      modifyCache (setCentrality sorted);;
      mret sorted
  end.

(* ===================================================================== *)
(** ** Breadth-first path search *)
(* ===================================================================== *)

(** [const maxDepth = 6] *)
Definition maxDepth : nat := 6.

(** The [for (const refId of current.refs)] loop: every id not yet seen is
    marked, and enqueued behind [path] when it resolves. *)
Fixpoint expandRefs (verseMap : gmap string Verse) (path : list Verse)
    (rs : list string) (queue : list (list Verse)) (visited : gset string)
    : list (list Verse) * gset string :=
  match rs with
  | [] => (queue, visited)
  | refId :: rs' =>
      if decide (refId ∈ visited) then expandRefs verseMap path rs' queue visited
      else
        let visited' := visited ∪ {[refId]} in
        match verseMap !! refId with
        | Some nextVerse =>
            expandRefs verseMap path rs' (queue ++ [path ++ [nextVerse]]) visited'
        | None => expandRefs verseMap path rs' queue visited'
        end
  end.

(** The [while (queue.length > 0)] loop, run for at most [fuel] rounds. *)
Fixpoint bfsLoop (fuel : nat) (endVerse : Verse) (verseMap : gmap string Verse)
    (queue : list (list Verse)) (visited : gset string)
    : Res (option (list Verse)) :=
  match fuel with
  | 0 => OutOfFuel
  | S fuel' =>
      match queue with
      | [] => Ok None
      | path :: queue' =>
          if decide (maxDepth < length path)
          then bfsLoop fuel' endVerse verseMap queue' visited
          else
            match last path with
            | None => Throw TypeError
            | Some current =>
                if decide (id current = id endVerse) then Ok (Some path)
                else
                  let '(queue'', visited') :=
                    expandRefs verseMap path (refs current) queue' visited in
                  bfsLoop fuel' endVerse verseMap queue'' visited'
            end
      end
  end.

(** Every round removes one path and every path added uses up a fresh key
    of the index, so [size verseMap + 2] rounds are never exhausted
    (lemma [findShortestPath_terminates]). *)
Definition findShortestPath (start endVerse : Verse) (verseMap : gmap string Verse)
    : Res (option (list Verse)) :=
  bfsLoop (size verseMap + 2) endVerse verseMap [[start]] {[id start]}.

(* ===================================================================== *)
(** ** Sampled betweenness centrality *)
(* ===================================================================== *)

(** [arr[i]] for a computed index. *)
Definition arrayAt {A : Type} (l : list A) (i : Z) : option A :=
  if decide (0 ≤ i)%Z then l !! Z.to_nat i else None.

(** [betweenness.get(k) || 0] *)
Definition countOf (b : gmap string nat) (k : string) : nat := default 0 (b !! k).

(** The strictly interior entries [path[1 .. length-2]]. *)
Definition interior (path : list Verse) : list Verse :=
  take (length path - 2) (drop 1 path).

(** The body guarded by [if (path && path.length > 2)]. *)
Definition accumulatePath (path : option (list Verse)) (b : gmap string nat)
    : gmap string nat :=
  match path with
  | Some p =>
      if decide (2 < length p)
      then foldl (λ b v, <[id v := countOf b (id v) + 1]> b) b (interior p)
      else b
  | None => b
  end.

(** [new Map(verses.map(v => [v.id, 0]))] *)
Definition initialCounts (verses : list Verse) : gmap string nat :=
  foldl (λ m v, <[id v := 0]> m) ∅ verses.

(** The comparator [(a, b) => b.betweennessCentrality -
    a.betweennessCentrality]. *)
Definition byBetweenness (a b : BetweennessScore) : Number :=
  numSub (betweennessCentrality b) (betweennessCentrality a).

(** The normalisation: [maxBetweenness] and the [verses.map(...)] behind
    it. *)
Definition betweennessScores (verses : list Verse) (b : gmap string nat)
    : list BetweennessScore :=
  let maxBetweenness := numOr (mathMax (snd <$> map_to_list b)) (ofNat 1) in
  map (λ v, {| bsVerse := v;
               betweennessCentrality := numDiv (ofNat (countOf b (id v))) maxBetweenness;
               betweennessScore := countOf b (id v) |}) verses.

(** The default of the parameter [sampleSize]. *)
Definition defaultSampleSize : Z := 200.

Section RandomSource.

(** [mathRandom k] is the value the [k]-th call of [Math.random()]
    returns.  [shuffleSort k l] is what [[...l].sort(() => Math.random() -
    0.5)] produces when the stream stands at position [k], with the
    position it leaves the stream at: the comparator is not a consistent
    ordering, so order and number of draws are left to the engine. *)
Variable mathRandom : nat → Q.
Variable shuffleSort : nat → list Verse → list Verse * nat.

(** [verses[Math.floor(Math.random() * verses.length)]] at stream
    position [k]. *)
Definition randomVerse (verses : list Verse) (k : nat) : option Verse :=
  arrayAt verses (mathFloor (mathRandom k * inject_Z (Z.of_nat (length verses)))%Q).

(** The sampling loop, [n] rounds from stream position [k]. *)
Fixpoint sampleLoop (n : nat) (verses : list Verse) (verseMap : gmap string Verse)
    (b : gmap string nat) (k : nat) : Res (gmap string nat) * nat :=
  match n with
  | 0 => (Ok b, k)
  | S n' =>
      match randomVerse verses k, randomVerse verses (S k) with
      | Some source, Some target =>
          if decide (id source = id target)
          then sampleLoop n' verses verseMap b (S (S k))
          else
            match findShortestPath source target verseMap with
            | Ok path => sampleLoop n' verses verseMap (accumulatePath path b) (S (S k))
            | Throw e => (Throw e, S (S k))
            | OutOfFuel => (OutOfFuel, S (S k))
            end
      | _, _ => (Throw TypeError, S (S k))
      end
  end.

(** The sampling loop as a computation on the world. *)
Definition sampleM (n : nat) (verses : list Verse) (verseMap : gmap string Verse)
    (b : gmap string nat) : M (gmap string nat) := λ w,
  let '(r, k) := sampleLoop n verses verseMap b (rngPos w) in (r, withRng w k).

(** [calculateBetweennessCentrality(verses, sampleSize)] *)
Definition calculateBetweennessCentrality (verses : list Verse) (sampleSize : Z)
    : M (list BetweennessScore) :=
  c ← getCache;
  match betweenness c with
  | Some cached => mret cached
  | None =>
      let verseMap := verseMapOf verses in
      let sample := mathMin sampleSize (Z.of_nat (length verses)) in
      b ← sampleM (Z.to_nat sample) verses verseMap (initialCounts verses);
      let sorted := arraySort byBetweenness (betweennessScores verses b) in
      modifyCache (setBetweenness sorted);;
      mret sorted
  end.

(* ===================================================================== *)
(** ** Clustering coefficient *)
(* ===================================================================== *)

(** [verse.refs.map(id => verseMap.get(id)).filter(v => v)] *)
Definition resolveNeighbors (verseMap : gmap string Verse) (v : Verse) : list Verse :=
  omap (λ refId, verseMap !! refId) (refs v).

(** [neighbors[i].refs.includes(neighbors[j].id)] *)
Definition linked (neighbors : list Verse) (i j : nat) : bool :=
  match neighbors !! i, neighbors !! j with
  | Some ni, Some nj => bool_decide (id nj ∈ refs ni)
  | _, _ => false
  end.

(** The nested loops [for i in 0..n-1, for j in i+1..n-1]. *)
Definition countConnections (neighbors : list Verse) : nat :=
  let n := length neighbors in
  foldl (λ connections i,
           foldl (λ connections j,
                    if linked neighbors i j then S connections else connections)
                 connections (seq (S i) (n - S i)))
        0 (seq 0 n).

(** The body of the [verses.map(verse => ...)] of
    [calculateClusteringCoefficient]. *)
Definition clusteringScore (verseMap : gmap string Verse) (v : Verse) : ClusteringScore :=
  if decide (refCount v < 2) then
    {| csVerse := v; clusteringCoefficient := ofNat 0;
       neighborConnections := None; possibleConnections := None |}
  else
    let neighbors := resolveNeighbors verseMap v in
    if decide (length neighbors < 2) then
      {| csVerse := v; clusteringCoefficient := ofNat 0;
         neighborConnections := None; possibleConnections := None |}
    else
      let connections := countConnections neighbors in
      let possible :=
        numDiv (ofNat (length neighbors * (length neighbors - 1))) (ofNat 2) in
      {| csVerse := v;
         clusteringCoefficient := numDiv (ofNat connections) possible;
         neighborConnections := Some connections;
         possibleConnections := Some possible |}.

(** The comparator [(a, b) => b.clusteringCoefficient -
    a.clusteringCoefficient]. *)
Definition byClustering (a b : ClusteringScore) : Number :=
  numSub (clusteringCoefficient b) (clusteringCoefficient a).

(** The scores before sorting, over the index of [verses]. *)
Definition clusteringScores (verses : list Verse) : list ClusteringScore :=
  map (clusteringScore (verseMapOf verses)) verses.

(** [calculateClusteringCoefficient(verses)] *)
Definition calculateClusteringCoefficient (verses : list Verse)
    : M (list ClusteringScore) :=
  c ← getCache;
  match clustering c with
  | Some cached => mret cached
  | None =>
      let sorted := arraySort byClustering (clusteringScores verses) in
      modifyCache (setClustering sorted);;
      mret sorted
  end.

(* ===================================================================== *)
(** ** Hubs *)
(* ===================================================================== *)

(** The default of the parameter [topN]. *)
Definition defaultTopN : Z := 50.

(** [degreeCentrality * (1 - clusteringCoefficient)] on binary64 values:
    the two fields hold the exact quotient of two counts where the program
    holds the binary64 value of that quotient, and the difference and the
    product are rounded in turn. *)
Definition hubProduct (centrality coefficient : Number) : Number :=
  toBinary64
    (numMul (toBinary64 centrality)
       (toBinary64 (numSub (ofNat 1) (toBinary64 coefficient)))).

(** One round of [verses.map(...)] in [identifyHubs]; reading a field of
    the [undefined] that [find] returns on a miss throws. *)
Definition hubScoreOf (cen : list DegreeScore) (clu : list ClusteringScore)
    (v : Verse) : Res HubScore :=
  match arrayFind (λ d, bool_decide (id (dsVerse d) = id v)) cen with
  | None => Throw TypeError
  | Some centralityData =>
      match arrayFind (λ c, bool_decide (id (csVerse c) = id v)) clu with
      | None => Throw TypeError
      | Some clusteringData =>
          Ok {| hsVerse := v;
                hubScore := hubProduct (degreeCentrality centralityData)
                              (clusteringCoefficient clusteringData);
                isHub := false |}
      end
  end.

(** [arr.map(f)] for a callback that may throw: the first exception ends
    the loop. *)
Fixpoint mapRes {A B : Type} (f : A → Res B) (l : list A) : Res (list B) :=
  match l with
  | [] => Ok []
  | x :: l' =>
      match f x with
      | Ok y =>
          match mapRes f l' with
          | Ok ys => Ok (y :: ys)
          | Throw e => Throw e
          | OutOfFuel => OutOfFuel
          end
      | Throw e => Throw e
      | OutOfFuel => OutOfFuel
      end
  end.

(** The comparator [(a, b) => b.hubScore - a.hubScore]. *)
Definition byHubScore (a b : HubScore) : Number := numSub (hubScore b) (hubScore a).

(** [h.isHub = true] *)
Definition setIsHub (h : HubScore) : HubScore :=
  {| hsVerse := hsVerse h; hubScore := hubScore h; isHub := true |}.

(** [for (i = 0; i < Math.min(topN, sorted.length); i++) sorted[i].isHub = true] *)
Definition markHubs (topN : Z) (sorted : list HubScore) : list HubScore :=
  let k := Z.to_nat (mathMin topN (Z.of_nat (length sorted))) in
  imap (λ i h, if decide (i < k) then setIsHub h else h) sorted.

(** [identifyHubs(verses, topN)] *)
Definition identifyHubs (verses : list Verse) (topN : Z) : M (list HubScore) :=
  c ← getCache;
  match hubs c with
  | Some cached => mret cached
  | None =>
      cen ← calculateDegreeCentrality verses;
      clu ← calculateClusteringCoefficient verses;
      hubScores ← liftRes (mapRes (hubScoreOf cen clu) verses);
      let sorted := markHubs topN (arraySort byHubScore hubScores) in
      modifyCache (setHubs sorted);;
      mret sorted
  end.

(* ===================================================================== *)
(** ** Community detection by label propagation *)
(* ===================================================================== *)

(** The default of the parameter [iterations]. *)
Definition defaultIterations : Z := 5.

(** [labelCounts]: a [Map] that is iterated, so insertion order is kept.
    [set] on a present key updates in place, on a new key appends. *)
Definition countsGet (label : string) (counts : list (string * nat)) : option nat :=
  snd <$> List.find (λ e, bool_decide (e.1 = label)) counts.

Fixpoint countsSet (label : string) (n : nat) (counts : list (string * nat))
    : list (string * nat) :=
  match counts with
  | [] => [(label, n)]
  | (l, c) :: rest =>
      if decide (l = label) then (l, n) :: rest else (l, c) :: countsSet label n rest
  end.

(** Truthiness of [labels.get(refId)]: [undefined] and the empty string
    are falsy. *)
Definition truthyLabel (l : option string) : option string :=
  match l with
  | Some s => if decide (s = EmptyString) then None else Some s
  | None => None
  end.

(** The [for (const refId of verse.refs)] tally. *)
Definition tallyLabels (labels : gmap string string) (rs : list string)
    : list (string * nat) :=
  foldl (λ counts refId,
           match truthyLabel (labels !! refId) with
           | Some label => countsSet label (default 0 (countsGet label counts) + 1) counts
           | None => counts
           end) [] rs.

(** The [for (const [label, count] of labelCounts)] scan, from
    [maxCount = 0] and [maxLabel = labels.get(verse.id)]. *)
Definition mostCommon (counts : list (string * nat)) (current : option string)
    : option string :=
  snd (foldl (λ '(maxCount, maxLabel) '(label, count),
                if decide (maxCount < count) then (count, Some label)
                else (maxCount, maxLabel))
             (0, current) counts).

(** [labels.set(k, v)]; storing [undefined] reads back like an absent key. *)
Definition labelsSet (k : string) (v : option string) (labels : gmap string string)
    : gmap string string :=
  match v with
  | Some l => <[k := l]> labels
  | None => delete k labels
  end.

(** One visit of the inner [for (const verse of shuffled)] loop. *)
Definition visitVerse (st : gmap string string * nat) (v : Verse)
    : gmap string string * nat :=
  let '(labels, changed) := st in
  if decide (refCount v = 0) then st
  else
    let counts := tallyLabels labels (refs v) in
    let maxLabel := mostCommon counts (labels !! id v) in
    if decide (labels !! id v = maxLabel) then st
    else (labelsSet (id v) maxLabel labels, S changed).

(** The outer loop with its early exit, [iters] rounds at most. *)
Fixpoint propagate (iters : nat) (verses : list Verse) (labels : gmap string string)
    (k : nat) : gmap string string * nat :=
  match iters with
  | 0 => (labels, k)
  | S iters' =>
      let '(shuffled, k') := shuffleSort k verses in
      let '(labels', changed) := foldl visitVerse (labels, 0) shuffled in
      if decide (changed = 0) then (labels', k')
      else propagate iters' verses labels' k'
  end.

(** The propagation loop as a computation on the world. *)
Definition propagateM (iters : nat) (verses : list Verse) (labels : gmap string string)
    : M (gmap string string) := λ w,
  let '(labels', k) := propagate iters verses labels (rngPos w) in
  (Ok labels', withRng w k).

(** [new Map(verses.map(v => [v.id, v.id]))] *)
Definition initialLabels (verses : list Verse) : gmap string string :=
  foldl (λ m v, <[id v := id v]> m) ∅ verses.

(** [communities]: again an iterated [Map]; its keys are whatever
    [labels.get] returned. *)
Fixpoint groupPush (label : option string) (v : Verse)
    (groups : list (option string * list Verse)) : list (option string * list Verse) :=
  match groups with
  | [] => [(label, [v])]
  | (l, members) :: rest =>
      if decide (l = label) then (l, members ++ [v]) :: rest
      else (l, members) :: groupPush label v rest
  end.

(** The [for (const verse of verses)] loop that fills [communities]. *)
Definition groupByLabel (labels : gmap string string) (verses : list Verse)
    : list (option string * list Verse) :=
  foldl (λ groups v, groupPush (labels !! id v) v groups) [] verses.

(** The comparator [(a, b) => b[1].length - a[1].length]. *)
Definition bySize (a b : option string * list Verse) : Number :=
  numSub (ofNat (length b.2)) (ofNat (length a.2)).

(** [Array.from(communities.entries()).filter(...).sort(...)] *)
Definition significantCommunities (labels : gmap string string) (verses : list Verse)
    : list (option string * list Verse) :=
  arraySort bySize
    (filter (λ g, 3 ≤ length g.2) (groupByLabel labels verses)).

(** [detectCommunities(verses, iterations)] *)
Definition detectCommunities (verses : list Verse) (iterations : Z)
    : M CommunityResult :=
  c ← getCache;
  match communities c with
  | Some cached => mret cached
  | None =>
      finalLabels ← propagateM (Z.to_nat iterations) verses (initialLabels verses);
      let significant := significantCommunities finalLabels verses in
      let result := {| communityGroups := significant;
                       communityCount := length significant;
                       labels := finalLabels |} in
      modifyCache (setCommunities result);;
      mret result
  end.

(* ===================================================================== *)
(** ** Graph-wide statistics and the composite report *)
(* ===================================================================== *)

(** An entry [{verse, refs, centrality}] of [topVerses]. *)
Record TopVerse : Type := mkTopVerse {
  tvVerse : string;
  tvRefs : nat;
  tvCentrality : Fixed
}.

(** The object [getNetworkStatistics] returns; [density] is the formatted
    percentage without its trailing percent sign. *)
Record NetworkStatistics : Type := mkNetworkStatistics {
  nodeCount : nat;
  edgeCount : nat;
  avgDegree : Fixed;
  medianDegree : option nat;
  maxDegree : option nat;
  density : Fixed;
  topVerses : list TopVerse
}.

(** The comparator [(a, b) => b - a]. *)
Definition byCountDesc (a b : nat) : Number := numSub (ofNat b) (ofNat a).

(** [getNetworkStatistics(verses)] *)
Definition getNetworkStatistics (verses : list Verse) : M NetworkStatistics :=
  let n := length verses in
  let totalRefs := foldl (λ sum v, sum + refCount v) 0 verses in
  let avgRefs := numDiv (ofNat totalRefs) (ofNat n) in
  let refCounts := arraySort byCountDesc (map refCount verses) in
  let medianRefs := refCounts !! (length refCounts / 2) in
  let maxRefs := refCounts !! 0 in
  cen ← calculateDegreeCentrality verses;
  let top := slice0 10 cen in
  let possible := numDiv (ofNat (n * (n - 1))) (ofNat 2) in
  let actual := numDiv (ofNat totalRefs) (ofNat 2) in
  let dens := numDiv actual possible in
  mret {| nodeCount := n;
          edgeCount := totalRefs;
          avgDegree := toFixed avgRefs 2;
          medianDegree := medianRefs;
          maxDegree := maxRefs;
          density := toFixed (numMul dens (ofNat 100)) 4;
          topVerses :=
            map (λ d, {| tvVerse := verse (dsVerse d);
                         tvRefs := refCount (dsVerse d);
                         tvCentrality := toFixed (degreeCentrality d) 3 |})
                (slice0 10 top) |}.

(** The report of [computeAllStats]: its fields [network], [centrality],
    [betweenness], [clustering], [hubs] and [communities]. *)
Record AllStats : Type := mkAllStats {
  statsNetwork : NetworkStatistics;
  statsCentrality : list DegreeScore;
  statsBetweenness : list BetweennessScore;
  statsClustering : list ClusteringScore;
  statsHubs : list HubScore;
  statsCommunities : CommunityResult
}.

(** [statsCache.lastComputed = new Date()] *)
Definition stampLastComputed : M unit :=
  λ w, (Ok tt, withCache w (setLastComputed (clock w) (statsCache w))).

(** [computeAllStats(verses)]; the fields of the report are evaluated in
    the order they are written. *)
Definition computeAllStats (verses : list Verse) : M AllStats :=
  net ← getNetworkStatistics verses;
  cen ← calculateDegreeCentrality verses;
  bet ← calculateBetweennessCentrality verses 200;
  clu ← calculateClusteringCoefficient verses;
  hub ← identifyHubs verses 30;
  com ← detectCommunities verses 5;
  stampLastComputed;;
  mret {| statsNetwork := net;
          statsCentrality := slice0 20 cen;
          statsBetweenness := slice0 20 bet;
          statsClustering := slice0 20 clu;
          statsHubs := filter (λ h, isHub h = true) hub;
          statsCommunities := com |}.

(** [clearCache()] *)
Definition clearCache : M unit := modifyCache (λ _, emptyCache).

End RandomSource.

(* ===================================================================== *)
(** * The data loader *)
(* ===================================================================== *)

(** A shallow embedding of the [DataLoader] module, which builds the
    verse list the statistics are computed from.

    Conventions of the embedding.
    - The outcome of [fetch] and of [response.json()] is an input
      ([Fetched]); [loadData] is the value its promise resolves to.
    - The parsed document is represented by what the module reads of it:
      the entries [Object.entries] enumerates, in that order, and of
      every entry the text [data.v] and the keys of [data.r || {}].
    - [parseInt], [toUpperCase] and [trim] are the built-ins, given as
      functions on strings.
    - [alert] is not represented. *)

(** ** Strings *)

(** [s.split(' ')[0]]: the text before the first space, all of [s] when
    it holds none. *)
Fixpoint firstField (s : string) : string :=
  match s with
  | EmptyString => EmptyString
  | String c s' =>
      if Ascii.eqb c Ascii.Space then EmptyString else String c (firstField s')
  end.

(** [s.includes(t)] *)
Fixpoint includes (s t : string) : bool :=
  String.prefix t s ||
  match s with
  | EmptyString => false
  | String _ s' => includes s' t
  end.

Module DataLoader.

(** A value [data] of the loaded object: [data.v] when that is a string
    ([None] otherwise, and then [data.v.split] throws), and
    [Object.keys(data.r || {})]. *)
Record Entry : Type := mkEntry {
  v : option string;
  r : list string
}.

(** The private variables of the module.  [bibleData] holds the entries
    of the loaded object, [None] when the document is [null]. *)
Record State : Type := mkState {
  bibleData : option (list (string * Entry));
  verses : list Verse;
  books : gset string
}.

(** The variables as the module initialises them. *)
Definition initial : State := {| bibleData := Some []; verses := []; books := ∅ |}.

(** [Object.entries(bibleData).map(([id, data]) => ...)], with the set
    [books] the callback adds to. *)
Fixpoint mapEntries (entries : list (string * Entry)) (bs : gset string)
    : Res (list Verse) * gset string :=
  match entries with
  | [] => (Ok [], bs)
  | (i, data) :: rest =>
      match v data with
      | None => (Throw TypeError, bs)
      | Some text =>
          match mapEntries rest (bs ∪ {[firstField text]}) with
          | (Ok vs, bs') =>
              (Ok ({| id := i; verse := text; book := firstField text;
                      refs := r data; refCount := length (r data) |} :: vs), bs')
          | (Throw e, bs') => (Throw e, bs')
          | (OutOfFuel, bs') => (OutOfFuel, bs')
          end
      end
  end.

(** [findVerseById(id)] *)
Definition findVerseById (i : string) (s : State) : option Verse :=
  arrayFind (λ x, bool_decide (id x = i)) (verses s).

(** The object [getStats] returns. *)
Record Stats : Type := mkStats {
  verseCount : nat;
  referenceCount : nat;
  bookCount : nat
}.

(** [getStats()] *)
Definition getStats (s : State) : Stats :=
  {| verseCount := length (verses s);
     referenceCount := foldl (λ sum x, sum + refCount x) 0 (verses s);
     bookCount := size (books s) |}.

(** [getVerses()], [getBooks()] and [getBibleData()] *)
Definition getVerses (s : State) : list Verse := verses s.
Definition getBooks (s : State) : gset string := books s.
Definition getBibleData (s : State) : option (list (string * Entry)) := bibleData s.

(** What [fetch(CONFIG.dataFile)] and [response.json()] end in: a rejected
    request, a response that is not [ok], a body that is not JSON, or the
    parsed document. *)
Inductive Fetched : Type :=
| FetchRejected
| NotOk (status : nat)
| JsonRejected
| JsonValue (data : option (list (string * Entry))).

Section Builtins.

Variable parseInt : string → Number.
Variable toUpperCase : string → string.
Variable trim : string → string.

(** The comparator [(a, b) => parseInt(a.id) - parseInt(b.id)]. *)
Definition byParsedId (a b : Verse) : Number :=
  numSub (parseInt (id a)) (parseInt (id b)).

(** [processData()]: [verses] is assigned once the whole map has run. *)
Definition processData (s : State) : Res unit * State :=
  match bibleData s with
  | None => (Throw TypeError, s)
  | Some entries =>
      match mapEntries entries (books s) with
      | (Ok vs, bs) =>
          (Ok tt, {| bibleData := bibleData s;
                     verses := arraySort byParsedId vs;
                     books := bs |})
      | (Throw e, bs) =>
          (Throw e, {| bibleData := bibleData s; verses := verses s; books := bs |})
      | (OutOfFuel, bs) =>
          (OutOfFuel, {| bibleData := bibleData s; verses := verses s; books := bs |})
      end
  end.

(** [loadData()]: every exception of the [try] block ends in [false]. *)
Definition loadData (f : Fetched) (s : State) : bool * State :=
  match f with
  | FetchRejected | NotOk _ | JsonRejected => (false, s)
  | JsonValue data =>
      match processData {| bibleData := data; verses := verses s; books := books s |} with
      | (Ok _, s') => (true, s')
      | (_, s') => (false, s')
      end
  end.

(** [findVerse(verseRef)] *)
Definition findVerse (verseRef : string) (s : State) : option Verse :=
  let normalized := trim (toUpperCase verseRef) in
  arrayFind (λ x, includes (verse x) normalized) (verses s).

End Builtins.

End DataLoader.

(* ===================================================================== *)
(** * Vocabulary of the statements *)
(* ===================================================================== *)

(** ** Sample graphs, worlds and random sources *)

(** A verse whose display fields are filled from its id and whose
    [refCount] is the number of its references, as the data loader
    builds it. *)
Definition plainVerse (i : string) (rs : list string) : Verse :=
  {| id := i; verse := i; book := "GEN"; refs := rs; refCount := length rs |}.

Definition isolatedVerse : Verse := plainVerse "1" [].

(** The chain A-B, B-C, C-D. *)
Definition chainGraph : list Verse :=
  [ plainVerse "A" ["B"]; plainVerse "B" ["A"; "C"];
    plainVerse "C" ["B"; "D"]; plainVerse "D" ["C"] ].

Definition chain3 : list Verse :=
  [ plainVerse "A" ["B"]; plainVerse "B" ["A"; "C"]; plainVerse "C" ["B"] ].

Definition chain7 : list Verse :=
  [ plainVerse "1" ["2"]; plainVerse "2" ["1"; "3"]; plainVerse "3" ["2"; "4"];
    plainVerse "4" ["3"; "5"]; plainVerse "5" ["4"; "6"]; plainVerse "6" ["5"; "7"];
    plainVerse "7" ["6"] ].

(** The chain A-B-C-D in which B and C also reference ids that no verse
    has. *)
Definition danglingChain : list Verse :=
  [ plainVerse "A" ["B"]; plainVerse "B" ["X"; "A"; "C"];
    plainVerse "C" ["B"; "Y"; "D"]; plainVerse "D" ["C"] ].

Definition completeGraph4 : list Verse :=
  [ plainVerse "1" ["2"; "3"; "4"]; plainVerse "2" ["1"; "3"; "4"];
    plainVerse "3" ["1"; "2"; "4"]; plainVerse "4" ["1"; "2"; "3"] ].

(** A graph in which the exact products of two hub scores tie and their
    binary64 values do not: N references three verses that do not
    reference each other; A references P, Q and R, two pairs of which are
    linked; B has one reference. *)
Definition hubTieGraph : list Verse :=
  [ plainVerse "N" ["R"; "B"; "P"]; plainVerse "B" ["N"];
    plainVerse "A" ["P"; "Q"; "R"]; plainVerse "P" ["Q"];
    plainVerse "Q" ["R"]; plainVerse "R" [] ].

Definition emptyWorld : World := {| statsCache := emptyCache; rngPos := 0; clock := 0 |}.

(** [Math.random] stays in [0,1). *)
Definition unitDraws (mathRandom : nat → Q) : Prop :=
  ∀ k, (0 <= mathRandom k)%Q ∧ (mathRandom k < 1)%Q.

Definition zeroDraws : nat → Q := λ _, 0%Q.

(** A stream that alternates between the first and the last of four verses. *)
Definition alternatingDraws : nat → Q := λ k, if Nat.even k then 0%Q else (3 # 4)%Q.


Definition identityShuffle : nat → list Verse → list Verse * nat := λ k l, (l, k).

(** A shuffle that keeps the order at stream position 0 and reverses it
    anywhere else, reading one draw per element. *)
Definition driftingShuffle : nat → list Verse → list Verse * nat :=
  λ k l, (if decide (k = 0) then l else reverse l, k + length l).

(** ** Scores *)

(** A finite number between 0 and 1. *)
Definition inUnit (x : Number) : Prop := ∃ q, x = Fin q ∧ (0 <= q)%Q ∧ (q <= 1)%Q.

(** ** Clustering coefficient, in the words of the specification *)

(** C(n, 2) *)
Definition choose2 (n : nat) : nat := n * (n - 1) / 2.

(** The unordered pairs of positions below [n], each as [(i, j)] with
    [i < j]. *)
Definition indexPairs (n : nat) : list (nat * nat) :=
  i ← seq 0 n; j ← seq (S i) (n - S i); [(i, j)].

(** Neighbour [p.1] lists the id of neighbour [p.2]. *)
Definition pairLinked (neighbors : list Verse) (p : nat * nat) : bool :=
  match neighbors !! p.1, neighbors !! p.2 with
  | Some ni, Some nj => bool_decide (id nj ∈ refs ni)
  | _, _ => false
  end.

(** The number of unordered neighbour pairs that are linked. *)
Definition linkedPairs (neighbors : list Verse) : nat :=
  length (filter (λ p, pairLinked neighbors p = true) (indexPairs (length neighbors))).

(** ** Walks *)

(** [pathTo verseMap start p c]: [p] is a walk from [start] to [c] in
    which every step follows a reference that resolves in the index. *)
Inductive pathTo (verseMap : gmap string Verse) (start : Verse)
    : list Verse → Verse → Prop :=
| pathTo_start : pathTo verseMap start [start] start
| pathTo_step (p : list Verse) (u v : Verse) :
    pathTo verseMap start p u →
    id v ∈ refs u →
    verseMap !! id v = Some v →
    pathTo verseMap start (p ++ [v]) v.

(** A walk from [start] to the verse with the id of [endVerse]. *)
Definition connects (verseMap : gmap string Verse) (start endVerse : Verse)
    (p : list Verse) : Prop :=
  ∃ c, pathTo verseMap start p c ∧ id c = id endVerse.

(** The number of references followed along a walk. *)
Definition hops (p : list Verse) : nat := length p - 1.

(** Every verse of the index is stored under its own id. *)
Definition keyedById (verseMap : gmap string Verse) : Prop :=
  ∀ k v, verseMap !! k = Some v → id v = k.

(** Every entry of [p] behind the first is a verse of the index. *)
Definition fromIndex (verseMap : gmap string Verse) (p : list Verse) : Prop :=
  ∀ u, u ∈ tail p → ∃ k, verseMap !! k = Some u.

(** The ids [expandRefs] marks for the first time: those of [rs] not yet
    in [visited], each once. *)
Fixpoint freshRefs (rs : list string) (visited : gset string) : list string :=
  match rs with
  | [] => []
  | r :: rs' =>
      if decide (r ∈ visited) then freshRefs rs' visited
      else r :: freshRefs rs' (visited ∪ {[r]})
  end.

(** The loop invariant of [bfsLoop]: the queue holds shortest walks of
    the current length [d] ([front]) followed by walks of length [d + 1]
    ([back]); [processed] are the ids already expanded, [skipped] those
    dropped by the depth cap. *)
Record bfsInv (verseMap : gmap string Verse) (start endVerse : Verse)
    (queue : list (list Verse)) (visited processed skipped : gset string)
    (front back : list (list Verse)) (d : nat) : Prop := mkBfsInv {
  inv_split : queue = front ++ back;
  inv_front : Forall (λ p, length p = d) front;
  inv_back : Forall (λ p, length p = S d) back;
  inv_paths : ∀ p, p ∈ queue →
      ∃ c, pathTo verseMap start p c ∧ id c ∈ visited ∧
           ∀ p', pathTo verseMap start p' c → length p ≤ length p';
  inv_closer : ∀ p c, pathTo verseMap start p c → length p < d →
      length p ≤ maxDepth → id c ∈ processed;
  inv_seen : ∀ c, verseMap !! id c = Some c → id c ∈ visited →
      (∃ q, q ∈ queue ∧ last q = Some c) ∨ id c ∈ processed ∨ id c ∈ skipped;
  inv_processed : ∀ c, verseMap !! id c = Some c → id c ∈ processed →
      id c ≠ id endVerse ∧ ∀ r, r ∈ refs c → r ∈ visited;
  inv_skipped : ∀ c p, id c ∈ skipped → pathTo verseMap start p c →
      maxDepth < length p;
  inv_start : id start ∈ visited;
  inv_level : 1 ≤ d
}.

(** ** Betweenness sampling *)

(** The number of rounds: [Math.min(sampleSize, verses.length)], none when
    that is negative. *)
Definition sampleCount (verses : list Verse) (sampleSize : Z) : nat :=
  Z.to_nat (mathMin sampleSize (Z.of_nat (length verses))).

(** The paths the [n] rounds from stream position [k] find, in order;
    rounds that draw one verse twice or find no path contribute none. *)
Fixpoint sampledPaths (mathRandom : nat → Q) (n : nat) (verses : list Verse)
    (verseMap : gmap string Verse) (k : nat) : list (list Verse) :=
  match n with
  | 0 => []
  | S n' =>
      match randomVerse mathRandom verses k, randomVerse mathRandom verses (S k) with
      | Some source, Some target =>
          if decide (id source = id target)
          then sampledPaths mathRandom n' verses verseMap (S (S k))
          else
            match findShortestPath source target verseMap with
            | Ok (Some p) => p :: sampledPaths mathRandom n' verses verseMap (S (S k))
            | _ => sampledPaths mathRandom n' verses verseMap (S (S k))
            end
      | _, _ => []
      end
  end.

(** The accumulator the sampled paths leave for a verse id. *)
Definition accumulatorOf (verses : list Verse) (paths : list (list Verse)) (k : string) : nat :=
  countOf (foldl (λ b p, accumulatePath (Some p) b) (initialCounts verses) paths) k.

(** Only ids of verses have an accumulator. *)
Definition keysFrom (verses : list Verse) (b : gmap string nat) : Prop :=
  ∀ k, is_Some (b !! k) → k ∈ map id verses.

(** The divisor of the normalisation: the largest accumulator, or 1. *)
Definition normaliser (b : gmap string nat) : nat :=
  let top := max_list (snd <$> map_to_list b) in if decide (top = 0) then 1 else top.

(** The record of a verse no sampled path passed through. *)
Definition zeroBetweenness (v : Verse) : BetweennessScore :=
  {| bsVerse := v; betweennessCentrality := Fin 0; betweennessScore := 0 |}.

(** ** Community groups *)

(** The members [groups] holds for a key. *)
Definition groupOf (label : option string) (groups : list (option string * list Verse))
    : list Verse :=
  match List.find (λ g, bool_decide (g.1 = label)) groups with
  | Some g => g.2
  | None => []
  end.

(** ** Graphs without their dangling references *)

(** [v] without the references that do not resolve in [verseMap]. *)
Definition pruneRefs (verseMap : gmap string Verse) (v : Verse) : Verse :=
  {| id := id v; verse := verse v; book := book v;
     refs := filter (λ r, is_Some (verseMap !! r)) (refs v);
     refCount := refCount v |}.

(** The graph with every dangling reference removed. *)
Definition pruned (verses : list Verse) : list Verse :=
  map (pruneRefs (verseMapOf verses)) verses.

(** Two visited sets that agree on the ids the index resolves. *)
Definition agreeOn (verseMap : gmap string Verse) (v1 v2 : gset string) : Prop :=
  ∀ r, is_Some (verseMap !! r) → (r ∈ v1 ↔ r ∈ v2).

Definition resMap {A B : Type} (f : A → B) (r : Res A) : Res B :=
  match r with
  | Ok a => Ok (f a)
  | Throw e => Throw e
  | OutOfFuel => OutOfFuel
  end.

(** ** Sequences of calls *)

(** The calls of the public interface that touch the world. *)
Inductive Call : Type :=
| CallDegreeCentrality (verses : list Verse)
| CallBetweennessCentrality (verses : list Verse) (sampleSize : Z)
| CallClusteringCoefficient (verses : list Verse)
| CallIdentifyHubs (verses : list Verse) (topN : Z)
| CallDetectCommunities (verses : list Verse) (iterations : Z)
| CallNetworkStatistics (verses : list Verse)
| CallComputeAllStats (verses : list Verse)
| CallClearCache.

Definition runCall (mathRandom : nat → Q) (shuffleSort : nat → list Verse → list Verse * nat)
    (c : Call) (w : World) : World :=
  match c with
  | CallDegreeCentrality vs => (calculateDegreeCentrality vs w).2
  | CallBetweennessCentrality vs n => (calculateBetweennessCentrality mathRandom vs n w).2
  | CallClusteringCoefficient vs => (calculateClusteringCoefficient vs w).2
  | CallIdentifyHubs vs n => (identifyHubs vs n w).2
  | CallDetectCommunities vs n => (detectCommunities shuffleSort vs n w).2
  | CallNetworkStatistics vs => (getNetworkStatistics vs w).2
  | CallComputeAllStats vs => (computeAllStats mathRandom shuffleSort vs w).2
  | CallClearCache => (clearCache w).2
  end.

Definition runCalls (mathRandom : nat → Q) (shuffleSort : nat → list Verse → list Verse * nat)
    (cs : list Call) (w : World) : World :=
  foldl (λ w c, runCall mathRandom shuffleSort c w) w cs.

(** No call of [cs] is [clearCache]. *)
Definition clearFree (cs : list Call) : Prop := Forall (λ c, c ≠ CallClearCache) cs.

(** Every filled slot of [c] is filled with the same value in [c']. *)
Definition cacheGrows (c c' : StatsCache) : Prop :=
  (∀ r, centrality c = Some r → centrality c' = Some r) ∧
  (∀ r, betweenness c = Some r → betweenness c' = Some r) ∧
  (∀ r, clustering c = Some r → clustering c' = Some r) ∧
  (∀ r, hubs c = Some r → hubs c' = Some r) ∧
  (∀ r, communities c = Some r → communities c' = Some r).

(** A computation that only ever fills slots. *)
Definition grows {A : Type} (m : M A) : Prop :=
  ∀ w, cacheGrows (statsCache w) (statsCache (m w).2).


(** ** Rankings and hubs *)

(** Equality of numbers is decidable. *)
#[global] Instance Q_eq_dec : EqDecision Q.
Proof. solve_decision. Defined.

#[global] Instance Number_eq_dec : EqDecision Number.
Proof. solve_decision. Defined.

(** [x <= y] on finite numbers. *)
Definition numLe (x y : Number) : Prop :=
  match x, y with
  | Fin a, Fin b => (a <= b)%Q
  | _, _ => False
  end.

(** The two rankings [identifyHubs] reads, as computed from [verses]. *)
Definition degreeRanking (verses : list Verse) : list DegreeScore :=
  arraySort byDegreeCentrality (degreeScores verses).

Definition clusteringRanking (verses : list Verse) : list ClusteringScore :=
  arraySort byClustering (clusteringScores verses).

(** A cache without hubs whose two rankings, where present, are those of
    [verses]. *)
Definition hubReady (verses : list Verse) (c : StatsCache) : Prop :=
  hubs c = None ∧
  (centrality c = None ∨ centrality c = Some (degreeRanking verses)) ∧
  (clustering c = None ∨ clustering c = Some (clusteringRanking verses)).

(** The number of hubs [identifyHubs] marks among [n] verses. *)
Definition hubCount (topN : Z) (n : nat) : nat := Z.to_nat (Z.min topN (Z.of_nat n)).

(** A world whose cache still holds the degree ranking of the one-verse
    graph [[isolatedVerse]]. *)
Definition staleWorld : World :=
  {| statsCache := setCentrality (degreeRanking [isolatedVerse]) emptyCache;
     rngPos := 0; clock := 0 |}.

(** A cache none of whose five result slots is filled. *)
Definition noResults (c : StatsCache) : Prop :=
  centrality c = None ∧ betweenness c = None ∧ clustering c = None ∧
  communities c = None ∧ hubs c = None.

(** ** Walks in an arbitrary index *)

(** [walkTo verseMap start p c]: [p] leads from [start] to [c], every
    step from a verse to what the index holds for one of its references. *)
Inductive walkTo (verseMap : gmap string Verse) (start : Verse)
    : list Verse → Verse → Prop :=
| walkTo_start : walkTo verseMap start [start] start
| walkTo_step (p : list Verse) (u v : Verse) (r : string) :
    walkTo verseMap start p u →
    r ∈ refs u →
    verseMap !! r = Some v →
    walkTo verseMap start (p ++ [v]) v.

(** The queue holds walks from [start]; with an index keyed by id, the
    ids along each of them are distinct and marked as visited. *)
Definition walksInv (vm : gmap string Verse) (start : Verse)
    (queue : list (list Verse)) (visited : gset string) : Prop :=
  ∀ p, p ∈ queue →
    ∃ c, walkTo vm start p c ∧
         (keyedById vm → NoDup (id <$> p) ∧ ∀ u, u ∈ p → id u ∈ visited).

(** ** Label propagation *)

(** The shuffle reorders its argument. *)
Definition shuffles (shuffleSort : nat → list Verse → list Verse * nat) : Prop :=
  ∀ k l, (shuffleSort k l).1 ≡ₚ l.

(** The number of references in [rs] that carry the label [l]. *)
Definition labelCount (labels : gmap string string) (rs : list string) (l : string) : nat :=
  length (filter (λ r, truthyLabel (labels !! r) = Some l) rs).

(** ** Loaded documents *)

(** The verse [processData] builds from an entry whose text is [text]. *)
Definition entryVerse (e : string * DataLoader.Entry) (text : string) : Verse :=
  {| id := e.1; verse := text; book := firstField text;
     refs := DataLoader.r e.2; refCount := length (DataLoader.r e.2) |}.

(** [x] is the verse built from the entry [e]. *)
Definition builtFrom (e : string * DataLoader.Entry) (x : Verse) : Prop :=
  ∃ text, DataLoader.v e.2 = Some text ∧ x = entryVerse e text.

(** Every entry has a text. *)
Definition allTexts (entries : list (string * DataLoader.Entry)) : Prop :=
  ∀ e, e ∈ entries → is_Some (DataLoader.v e.2).

(** A document of three verses in two books. *)
Definition sampleDocument : list (string * DataLoader.Entry) :=
  [ ("2", {| DataLoader.v := Some "GEN 1 2"; DataLoader.r := ["1"] |});
    ("1", {| DataLoader.v := Some "GEN 1 1"; DataLoader.r := ["2"; "3"] |});
    ("3", {| DataLoader.v := Some "EXO 2 1"; DataLoader.r := [] |}) ].

(** A document whose second entry has no text. *)
Definition brokenDocument : list (string * DataLoader.Entry) :=
  [ ("1", {| DataLoader.v := Some "GEN 1 1"; DataLoader.r := ["2"] |});
    ("2", {| DataLoader.v := None; DataLoader.r := [] |});
    ("3", {| DataLoader.v := Some "EXO 2 1"; DataLoader.r := [] |}) ].

(** [parseInt] on a text of decimal digits, [NaN] on a text that starts
    with no digit. *)
Definition digitOf (c : Ascii.ascii) : option nat :=
  let n := Ascii.nat_of_ascii c in
  if decide (48 ≤ n ∧ n ≤ 57) then Some (n - 48) else None.

Fixpoint digitsValue (s : string) (acc : option nat) : option nat :=
  match s with
  | EmptyString => acc
  | String c s' =>
      match digitOf c with
      | Some d => digitsValue s' (Some (10 * default 0 acc + d))
      | None => acc
      end
  end.

Definition parseDecimal (s : string) : Number :=
  match digitsValue s None with
  | Some n => ofNat n
  | None => NaN
  end.

(** The text [t] occurs in [s]. *)
Definition occursIn (t s : string) : Prop := ∃ a b, s = (a +:+ t +:+ b)%string.

(** The books of a document: the first fields of its texts. *)
Definition entryBooks (entries : list (string * DataLoader.Entry)) : gset string :=
  list_to_set (omap (λ e, firstField <$> DataLoader.v e.2) entries).

(* ===================================================================== *)
(** * Properties *)
(* ===================================================================== *)

#[local] Set Warnings "-clear-no-such-hyp".

(* ===================================================================== *)
(** ** Numbers *)
(* ===================================================================== *)

(** Division of counts: exact in lowest terms, [NaN] for [0 / 0]. *)
Lemma Qis0_inject (z : Z) : Qis0 (inject_Z z) = bool_decide (z = 0%Z).
Proof.
  unfold Qis0, Qeq_bool, inject_Z. simpl. rewrite Z.mul_1_r.
  change (0 * 1)%Z with 0%Z.
  destruct (Z.eqb_spec z 0) as [E|E].
  - by rewrite bool_decide_eq_true_2.
  - by rewrite bool_decide_eq_false_2.
Qed.

Lemma numDiv_nat (a b : nat) :
  0 < b → numDiv (ofNat a) (ofNat b) = Fin (Qred (Z.of_nat a # Pos.of_nat b)).
Proof.
  intros Hb. unfold numDiv, ofNat, ofZ. rewrite Qis0_inject.
  rewrite bool_decide_eq_false_2 by lia. f_equal. apply Qred_complete.
  unfold Qeq, Qdiv, Qmult, Qinv, inject_Z. simpl.
  destruct (Z.of_nat b) eqn:E; try lia. simpl.
  assert (Pos.of_nat b = p) as -> by lia. lia.
Qed.

Lemma numDiv_nat_zero (a : nat) :
  numDiv (ofNat a) (ofNat 0) = if decide (a = 0) then NaN else Infinity.
Proof.
  unfold numDiv, ofNat, ofZ. rewrite !Qis0_inject.
  rewrite (bool_decide_eq_true_2 (Z.of_nat 0 = 0%Z)) by done.
  destruct (decide (a = 0)) as [->|Ha]; [done|].
  rewrite bool_decide_eq_false_2 by lia.
  unfold Qnonneg, Qle_bool. simpl.
  destruct (_ <=? _)%Z eqn:E; [done|]. apply Z.leb_gt in E. lia.
Qed.

Lemma numDiv_nat_unit (a b : nat) : 0 < b → a ≤ b → inUnit (numDiv (ofNat a) (ofNat b)).
Proof.
  intros Hb Hab. rewrite numDiv_nat by done. eexists; split; [done|].
  split.
  - rewrite Qred_correct. unfold Qle. simpl. lia.
  - rewrite Qred_correct. unfold Qle. simpl. lia.
Qed.

Lemma numDiv_nat_self (a : nat) : 0 < a → numDiv (ofNat a) (ofNat a) = Fin 1.
Proof.
  intros Ha. rewrite numDiv_nat by done.
  apply (f_equal Fin). change 1%Q with (Qred 1). apply Qred_complete. unfold Qeq. simpl. lia.
Qed.

Lemma numDiv_nat_0 (b : nat) : 0 < b → numDiv (ofNat 0) (ofNat b) = Fin 0.
Proof.
  intros Hb. rewrite numDiv_nat by done.
  apply (f_equal Fin). change 0%Q with (Qred 0). apply Qred_complete. unfold Qeq. simpl. lia.
Qed.

(** The comparator [(a, b) => b - a] on counts moves [a] behind [b]
    exactly when [a < b]. *)
Lemma isPositive_byCount (a b : nat) :
  isPositive (numSub (ofNat b) (ofNat a)) = bool_decide (a < b).
Proof.
  unfold numSub, ofNat, ofZ, isPositive. f_equal.
  destruct (decide (a < b)) as [H|H].
  - rewrite bool_decide_eq_true_2 by done. apply negb_true_iff.
    destruct (Qle_bool _ 0) eqn:E; [|done].
    apply Qle_bool_iff in E. rewrite Qred_correct in E.
    unfold Qle, Qminus, Qplus, Qopp, inject_Z in E. simpl in E. lia.
  - rewrite bool_decide_eq_false_2 by done. apply negb_false_iff.
    apply Qle_bool_iff. rewrite Qred_correct.
    unfold Qle, Qminus, Qplus, Qopp, inject_Z. simpl. lia.
Qed.

Lemma max_list_le (l : list nat) (m : nat) : (∀ x, x ∈ l → x ≤ m) → max_list l ≤ m.
Proof.
  induction l as [|x l IH]; intros H; simpl; [lia|].
  apply Nat.max_lub; [apply H; left|apply IH; intros; apply H; by right].
Qed.

(* ===================================================================== *)
(** ** Sorting *)
(* ===================================================================== *)

(** [arraySort] rearranges its argument and keeps every element. *)
Lemma sortInsert_perm {A} (cmp : A → A → Number) x l : sortInsert cmp x l ≡ₚ x :: l.
Proof.
  induction l as [|y l IH]; simpl; [done|].
  destruct (isPositive (cmp x y)); [|done].
  rewrite IH. apply Permutation_swap.
Qed.

Lemma arraySort_perm {A} (cmp : A → A → Number) l : arraySort cmp l ≡ₚ l.
Proof.
  induction l as [|x l IH]; simpl; [done|].
  unfold arraySort in *. simpl. rewrite sortInsert_perm. by rewrite IH.
Qed.

Lemma elem_of_arraySort {A} (cmp : A → A → Number) l x : x ∈ arraySort cmp l ↔ x ∈ l.
Proof. by rewrite arraySort_perm. Qed.

Lemma length_arraySort {A} (cmp : A → A → Number) l : length (arraySort cmp l) = length l.
Proof. by rewrite arraySort_perm. Qed.

(** A list on which no comparison is positive is left as it is. *)
Lemma arraySort_id {A} (cmp : A → A → Number) l :
  (∀ x y, x ∈ l → y ∈ l → isPositive (cmp x y) = false) → arraySort cmp l = l.
Proof.
  induction l as [|x l IH]; intros H; [done|].
  unfold arraySort in *. simpl. rewrite IH.
  - destruct l as [|y l']; simpl; [done|]. rewrite H; [done| |]; set_solver.
  - intros a b Ha Hb. apply H; set_solver.
Qed.

(** Under a comparator that orders by a count, descending, the result is
    sorted by that count. *)
Lemma sortInsert_sorted {A} (cmp : A → A → Number) (key : A → nat) (x : A) (l : list A) :
  (∀ x y, isPositive (cmp x y) = bool_decide (key x < key y)) →
  StronglySorted (λ a b, key b ≤ key a) l →
  StronglySorted (λ a b, key b ≤ key a) (sortInsert cmp x l).
Proof.
  intros Hcmp. induction 1 as [|y l Hl IH Hy]; simpl.
  { constructor; [constructor|constructor]. }
  rewrite Hcmp. case_bool_decide as Hlt.
  - constructor; [done|].
    apply Forall_forall. intros z Hz.
    rewrite sortInsert_perm in Hz. apply elem_of_cons in Hz as [->|Hz]; [lia|].
    by eapply Forall_forall in Hy.
  - constructor; [by constructor|]. constructor; [lia|].
    eapply Forall_impl; [exact Hy|]. simpl. intros; lia.
Qed.

Lemma arraySort_sorted {A} (cmp : A → A → Number) (key : A → nat) (l : list A) :
  (∀ x y, isPositive (cmp x y) = bool_decide (key x < key y)) →
  StronglySorted (λ a b, key b ≤ key a) (arraySort cmp l).
Proof.
  intros Hcmp. induction l as [|x l IH]; [constructor|].
  unfold arraySort in *. simpl. by apply sortInsert_sorted.
Qed.

(* ===================================================================== *)
(** ** The id index *)
(* ===================================================================== *)

(** A [Map] built entry by entry holds for a key the last entry written
    under it. *)
Lemma foldl_insert_lookup {V} (f : Verse → V) (verses : list Verse) (m : gmap string V) (k : string) :
  foldl (λ m v, <[id v := f v]> m) m verses !! k
  = match last (filter (λ v, id v = k) verses) with
    | Some v => Some (f v)
    | None => m !! k
    end.
Proof.
  revert m. induction verses as [|u l IH]; intros m; [done|].
  cbn [foldl]. rewrite IH, filter_cons.
  destruct (decide (id u = k)) as [<-|Hne].
  - destruct (filter _ l) as [|x l'] eqn:E.
    + simpl. apply lookup_insert_eq.
    + rewrite last_cons_cons. destruct (last (x :: l')) eqn:E2; [done|].
      by apply last_None in E2.
  - destruct (last (filter _ l)); [done|]. by rewrite lookup_insert_ne.
Qed.

Lemma verseMapOf_lookup (verses : list Verse) (k : string) (v : Verse) :
  verseMapOf verses !! k = Some v → v ∈ verses ∧ id v = k.
Proof.
  unfold verseMapOf. rewrite (foldl_insert_lookup (λ v, v)).
  destruct (last _) as [u|] eqn:E; [|by rewrite lookup_empty].
  intros [= ->]. apply last_Some_elem_of in E.
  by apply list_elem_of_filter in E as [? ?].
Qed.

Lemma verseMapOf_is_Some (verses : list Verse) (v : Verse) :
  v ∈ verses → is_Some (verseMapOf verses !! id v).
Proof.
  intros Hv. unfold verseMapOf. rewrite (foldl_insert_lookup (λ v, v)).
  destruct (last _) as [u|] eqn:E; [done|].
  apply last_None in E.
  assert (v ∈ filter (λ u, id u = id v) verses) as H by by apply list_elem_of_filter.
  rewrite E in H. by apply elem_of_nil in H.
Qed.

Lemma verseMapOf_keyed (verses : list Verse) : keyedById (verseMapOf verses).
Proof. intros k v H. by apply verseMapOf_lookup in H as [_ ?]. Qed.

Lemma verseMapOf_fmap (f : Verse → Verse) (verses : list Verse) :
  (∀ v, id (f v) = id v) → verseMapOf (map f verses) = f <$> verseMapOf verses.
Proof.
  intros Hf. unfold verseMapOf.
  assert (∀ m : gmap string Verse,
            foldl (λ m v, <[id v := v]> m) (f <$> m) (map f verses)
               = f <$> foldl (λ m v, <[id v := v]> m) m verses) as H.
  { induction verses as [|v l IH]; intros m; [done|].
    cbn [map foldl]. rewrite Hf, <- fmap_insert. apply IH. }
  rewrite <- H. by rewrite fmap_empty.
Qed.

Lemma initialCounts_lookup (verses : list Verse) (k : string) :
  initialCounts verses !! k = if decide (k ∈ map id verses) then Some 0 else None.
Proof.
  unfold initialCounts. rewrite (foldl_insert_lookup (λ _, 0)).
  destruct (last _) as [u|] eqn:E.
  - apply last_Some_elem_of, list_elem_of_filter in E as [<- Hu].
    rewrite decide_True; [done|]. apply list_elem_of_fmap. eauto.
  - rewrite lookup_empty. apply last_None in E.
    rewrite decide_False; [done|]. intros (v & -> & Hv)%list_elem_of_fmap.
    assert (v ∈ filter (λ u, id u = id v) verses) as H by by apply list_elem_of_filter.
    rewrite E in H. by apply elem_of_nil in H.
Qed.

Lemma initialLabels_lookup (verses : list Verse) (v : Verse) :
  v ∈ verses → initialLabels verses !! id v = Some (id v).
Proof.
  intros Hv. unfold initialLabels. rewrite (foldl_insert_lookup id).
  destruct (last _) as [u|] eqn:E.
  - apply last_Some_elem_of, list_elem_of_filter in E as [-> _]. done.
  - apply last_None in E.
    assert (v ∈ filter (λ u, id u = id v) verses) as H by by apply list_elem_of_filter.
    rewrite E in H. by apply elem_of_nil in H.
Qed.

(* ===================================================================== *)
(** ** Cache hits and misses *)
(* ===================================================================== *)

(** Each cached function either returns the slot's value and leaves the
    world alone (hit), or computes, fills the slot and returns (miss). *)
Lemma calculateDegreeCentrality_fresh (verses : list Verse) (w : World) :
  centrality (statsCache w) = None →
  calculateDegreeCentrality verses w
  = (Ok (arraySort byDegreeCentrality (degreeScores verses)),
     withCache w (setCentrality (arraySort byDegreeCentrality (degreeScores verses))
                    (statsCache w))).
Proof. intros H. unfold calculateDegreeCentrality, mbind, M_bind, getCache. by rewrite H. Qed.

Lemma calculateDegreeCentrality_cached (verses : list Verse) (w : World) r :
  centrality (statsCache w) = Some r → calculateDegreeCentrality verses w = (Ok r, w).
Proof. intros H. unfold calculateDegreeCentrality, mbind, M_bind, getCache. by rewrite H. Qed.

Lemma calculateDegreeCentrality_Ok vs w : ∃ r, (calculateDegreeCentrality vs w).1 = Ok r.
Proof.
  destruct (centrality (statsCache w)) as [r|] eqn:E.
  - rewrite (calculateDegreeCentrality_cached vs w r E). eauto.
  - rewrite (calculateDegreeCentrality_fresh vs w E). eauto.
Qed.

Lemma calculateClusteringCoefficient_fresh (verses : list Verse) (w : World) :
  clustering (statsCache w) = None →
  calculateClusteringCoefficient verses w
  = (Ok (arraySort byClustering (clusteringScores verses)),
     withCache w (setClustering (arraySort byClustering (clusteringScores verses))
                    (statsCache w))).
Proof. intros H. unfold calculateClusteringCoefficient, mbind, M_bind, getCache. by rewrite H. Qed.

Lemma calculateClusteringCoefficient_cached (verses : list Verse) (w : World) r :
  clustering (statsCache w) = Some r → calculateClusteringCoefficient verses w = (Ok r, w).
Proof. intros H. unfold calculateClusteringCoefficient, mbind, M_bind, getCache. by rewrite H. Qed.

Lemma calculateClusteringCoefficient_Ok vs w :
  ∃ r, (calculateClusteringCoefficient vs w).1 = Ok r.
Proof.
  destruct (clustering (statsCache w)) as [r|] eqn:E.
  - rewrite (calculateClusteringCoefficient_cached vs w r E). eauto.
  - rewrite (calculateClusteringCoefficient_fresh vs w E). eauto.
Qed.

Lemma calculateBetweennessCentrality_fresh (mathRandom : nat → Q) (verses : list Verse)
    (sampleSize : Z) (w : World) (b : gmap string nat) (k : nat) :
  betweenness (statsCache w) = None →
  sampleLoop mathRandom (sampleCount verses sampleSize) verses (verseMapOf verses)
    (initialCounts verses) (rngPos w) = (Ok b, k) →
  calculateBetweennessCentrality mathRandom verses sampleSize w
  = (Ok (arraySort byBetweenness (betweennessScores verses b)),
     withCache (withRng w k)
       (setBetweenness (arraySort byBetweenness (betweennessScores verses b)) (statsCache w))).
Proof.
  intros Hc Hrun.
  unfold calculateBetweennessCentrality, mbind, M_bind, getCache, sampleM.
  fold (sampleCount verses sampleSize). rewrite Hc, Hrun. done.
Qed.

Lemma calculateBetweennessCentrality_cached (mathRandom : nat → Q) (verses : list Verse)
    (sampleSize : Z) (w : World) r :
  betweenness (statsCache w) = Some r →
  calculateBetweennessCentrality mathRandom verses sampleSize w = (Ok r, w).
Proof.
  intros H. unfold calculateBetweennessCentrality, mbind, M_bind, getCache. by rewrite H.
Qed.

Lemma detectCommunities_fresh (shuffleSort : nat → list Verse → list Verse * nat)
    (verses : list Verse) (iterations : Z) (w : World) :
  communities (statsCache w) = None →
  let run := propagate shuffleSort (Z.to_nat iterations) verses (initialLabels verses)
               (rngPos w) in
  let result := {| communityGroups := significantCommunities run.1 verses;
                   communityCount := length (significantCommunities run.1 verses);
                   labels := run.1 |} in
  detectCommunities shuffleSort verses iterations w
  = (Ok result, withCache (withRng w run.2) (setCommunities result (statsCache w))).
Proof.
  intros Hc. unfold detectCommunities, mbind, M_bind, getCache, propagateM.
  rewrite Hc. by destruct (propagate _ _ _ _ _).
Qed.

Lemma detectCommunities_cached (shuffleSort : nat → list Verse → list Verse * nat)
    (verses : list Verse) (iterations : Z) (w : World) r :
  communities (statsCache w) = Some r →
  detectCommunities shuffleSort verses iterations w = (Ok r, w).
Proof. intros H. unfold detectCommunities, mbind, M_bind, getCache. by rewrite H. Qed.

Lemma detectCommunities_Ok shuffleSort vs n w :
  ∃ r, (detectCommunities shuffleSort vs n w).1 = Ok r.
Proof.
  destruct (communities (statsCache w)) as [r|] eqn:E.
  - rewrite (detectCommunities_cached shuffleSort vs n w r E). eauto.
  - rewrite (detectCommunities_fresh shuffleSort vs n w E). eauto.
Qed.

Lemma identifyHubs_cached (vs : list Verse) (n : Z) (w : World) r :
  hubs (statsCache w) = Some r → identifyHubs vs n w = (Ok r, w).
Proof. intros H. unfold identifyHubs, mbind, M_bind, getCache. by rewrite H. Qed.

Lemma identifyHubs_miss vs n w :
  hubs (statsCache w) = None →
  identifyHubs vs n w
  = (cen ← calculateDegreeCentrality vs;
     clu ← calculateClusteringCoefficient vs;
     hubScores ← liftRes (mapRes (hubScoreOf cen clu) vs);
     modifyCache (setHubs (markHubs n (arraySort byHubScore hubScores)));;
     mret (markHubs n (arraySort byHubScore hubScores))) w.
Proof. intros H. unfold identifyHubs, mbind, M_bind, getCache. by rewrite H. Qed.

(* ===================================================================== *)
(** ** Degree centrality *)
(* ===================================================================== *)

(** With a positive maximum degree every score lies in [0,1] and the
    verses of maximum degree score exactly 1. *)
Lemma degreeScores_positive (verses : list Verse) (d : DegreeScore) :
  0 < max_list (map refCount verses) → d ∈ degreeScores verses →
  inUnit (degreeCentrality d) ∧
  (refCount (dsVerse d) = max_list (map refCount verses) → degreeCentrality d = Fin 1).
Proof.
  intros Hmax Hd. unfold degreeScores in Hd.
  apply list_elem_of_fmap in Hd as (v & -> & Hv). cbn [degreeCentrality dsVerse].
  assert (mathMax (map refCount verses) = ofNat (max_list (map refCount verses))) as ->.
  { destruct verses; [by apply elem_of_nil in Hv|done]. }
  split.
  - apply numDiv_nat_unit; [done|]. apply max_list_elem_of_le.
    apply list_elem_of_fmap. eauto.
  - intros ->. by apply numDiv_nat_self.
Qed.

(** With a non-empty list of verses that all have degree 0, every score is
    [NaN]. *)
Lemma degreeScores_all_zero (verses : list Verse) (d : DegreeScore) :
  (∀ v, v ∈ verses → refCount v = 0) → d ∈ degreeScores verses →
  degreeCentrality d = NaN.
Proof.
  intros Hz Hd. unfold degreeScores in Hd.
  apply list_elem_of_fmap in Hd as (v & -> & Hv). cbn [degreeCentrality dsVerse].
  assert (max_list (map refCount verses) = 0) as Hm.
  { clear v Hv. induction verses as [|u l IH]; [done|]. simpl.
    rewrite (Hz u) by set_solver. rewrite IH; [done|]. intros; apply Hz; set_solver. }
  destruct verses as [|u l]; [by apply elem_of_nil in Hv|].
  change (mathMax (map refCount (u :: l))) with (ofNat (max_list (map refCount (u :: l)))).
  by rewrite Hm, (Hz v Hv), numDiv_nat_zero.
Qed.

(** Claim C1 (every degree centrality lies in [0,1], the nodes of maximum
    degree score 1, and when every degree is 0 every score is 0 with no
    division by zero).  The degenerate half does not hold of the code: for
    the single verse without references [maxRefs] is 0, the score is
    [0 / 0], and the record returned carries [NaN].  Lemma
    [degreeScores_all_zero] is the general form; [degreeScores_positive]
    proves the other half for graphs with a positive maximum degree. *)
Theorem degree_centrality_zero_degree_is_NaN :
  fst (calculateDegreeCentrality [isolatedVerse] emptyWorld)
  = Ok [ {| dsVerse := isolatedVerse; degreeCentrality := NaN; normalizedDegree := 0 |} ].
Proof. reflexivity. Qed.

(* ===================================================================== *)
(** ** Graph-wide statistics *)
(* ===================================================================== *)

(** Claim C3 (zero nodes, or all degrees 0, give well-defined zero or
    empty results and no division by zero).  This does not hold of the
    code: on the empty list the average degree and the density are
    formatted from [NaN] and the median and maximum degree are
    [undefined]; on one verse without references the density and the
    centrality of the top verse are formatted from [NaN]. *)
Theorem network_statistics_empty_graph_is_NaN :
  fst (getNetworkStatistics [] emptyWorld)
  = Ok {| nodeCount := 0; edgeCount := 0; avgDegree := toFixed NaN 2;
          medianDegree := None; maxDegree := None; density := toFixed NaN 4;
          topVerses := [] |}
  ∧ fst (getNetworkStatistics [isolatedVerse] emptyWorld)
  = Ok {| nodeCount := 1; edgeCount := 0; avgDegree := toFixed (Fin 0) 2;
          medianDegree := Some 0; maxDegree := Some 0; density := toFixed NaN 4;
          topVerses := [ {| tvVerse := "1"; tvRefs := 0; tvCentrality := toFixed NaN 3 |} ] |}.
Proof. split; reflexivity. Qed.

(* ===================================================================== *)
(** ** Clustering coefficient *)
(* ===================================================================== *)

(** The nested counting loops count the linked index pairs. *)
Lemma foldl_count {A} (P : A → bool) (l : list A) (c : nat) :
  foldl (λ c x, if P x then S c else c) c l = c + length (filter (λ x, P x = true) l).
Proof.
  revert c. induction l as [|x l IH]; intros c; [simpl; lia|].
  cbn [foldl]. rewrite IH, filter_cons.
  destruct (P x); [rewrite decide_True by done|rewrite decide_False by done];
    simpl; lia.
Qed.

Lemma linked_row (neighbors : list Verse) (i : nat) (l : list nat) :
  length (filter (λ p, pairLinked neighbors p = true) (j ← l; [(i, j)]))
  = length (filter (λ j, linked neighbors i j = true) l).
Proof.
  induction l as [|j l IH]; [done|].
  change ((j :: l) ≫= (λ j, [(i, j)])) with ((i, j) :: (l ≫= (λ j, [(i, j)]))).
  rewrite !filter_cons. change (pairLinked neighbors (i, j)) with (linked neighbors i j).
  destruct (decide (linked neighbors i j = true)); simpl; by rewrite IH.
Qed.

Lemma countConnections_loop (neighbors : list Verse) (n : nat) (rows : list nat) (c : nat) :
  foldl (λ connections i,
           foldl (λ connections j,
                    if linked neighbors i j then S connections else connections)
                 connections (seq (S i) (n - S i))) c rows
  = c + length (filter (λ p, pairLinked neighbors p = true)
                  (i ← rows; j ← seq (S i) (n - S i); [(i, j)])).
Proof.
  revert c. induction rows as [|i rows IH]; intros c; [simpl; lia|].
  cbn [foldl]. rewrite IH, foldl_count.
  change ((i :: rows) ≫= ?f) with (f i ++ (rows ≫= f)).
  rewrite filter_app, length_app, linked_row. lia.
Qed.

Lemma countConnections_linkedPairs (neighbors : list Verse) :
  countConnections neighbors = linkedPairs neighbors.
Proof. apply countConnections_loop. Qed.

(** There are C(n, 2) index pairs. *)
Lemma length_indexPairs_row (n m : nat) :
  m ≤ n →
  2 * length (i ← seq (n - m) m; j ← seq (S i) (n - S i); [(i, j)]) = m * (m - 1).
Proof.
  induction m as [|m IH]; intros Hm; [done|].
  replace (n - S m) with (n - m - 1) by lia.
  change (seq (n - m - 1) (S m)) with ((n - m - 1) :: seq (S (n - m - 1)) m).
  replace (S (n - m - 1)) with (n - m) by lia.
  change ((?x :: ?l) ≫= ?f) with (f x ++ (l ≫= f)).
  rewrite length_app. specialize (IH ltac:(lia)).
  assert (length (j ← seq (S (n - m - 1)) (n - S (n - m - 1)); [(n - m - 1, j)]) = m) as ->.
  { replace (n - S (n - m - 1)) with m by lia. generalize (S (n - m - 1)) as a.
    generalize (n - m - 1) as b. intros b. clear.
    induction m as [|m IH]; intros a; [done|]. simpl. f_equal. apply IH. }
  destruct m; simpl in *; lia.
Qed.

Lemma length_indexPairs (n : nat) : 2 * length (indexPairs n) = n * (n - 1).
Proof.
  unfold indexPairs. pose proof (length_indexPairs_row n n ltac:(lia)) as H.
  by rewrite Nat.sub_diag in H.
Qed.

Lemma choose2_indexPairs (n : nat) : choose2 n = length (indexPairs n).
Proof.
  unfold choose2. rewrite <- length_indexPairs.
  rewrite Nat.mul_comm. by rewrite Nat.div_mul.
Qed.

Lemma linkedPairs_le (neighbors : list Verse) :
  linkedPairs neighbors ≤ choose2 (length neighbors).
Proof. rewrite choose2_indexPairs. apply length_filter. Qed.

Lemma numDiv_half (n : nat) :
  numDiv (ofNat (n * (n - 1))) (ofNat 2) = ofNat (choose2 n).
Proof.
  rewrite numDiv_nat by lia. unfold ofNat, ofZ. apply (f_equal Fin).
  rewrite <- inject_Z_Qred. apply Qred_complete.
  pose proof (length_indexPairs n) as H. rewrite <- choose2_indexPairs in H.
  unfold Qeq, inject_Z. simpl. lia.
Qed.

Lemma choose2_pos (n : nat) : 2 ≤ n → 0 < choose2 n.
Proof.
  intros Hn. pose proof (length_indexPairs n) as H. rewrite <- choose2_indexPairs in H.
  nia.
Qed.

(** The record computed for one verse. *)
Lemma clusteringScore_spec (verseMap : gmap string Verse) (v : Verse) :
  let ns := resolveNeighbors verseMap v in
  csVerse (clusteringScore verseMap v) = v ∧
  inUnit (clusteringCoefficient (clusteringScore verseMap v)) ∧
  (refCount v < 2 ∨ length ns < 2 →
     clusteringCoefficient (clusteringScore verseMap v) = Fin 0) ∧
  (2 ≤ refCount v → 2 ≤ length ns →
     clusteringCoefficient (clusteringScore verseMap v)
     = numDiv (ofNat (linkedPairs ns)) (ofNat (choose2 (length ns)))).
Proof.
  intros ns. unfold clusteringScore. fold ns.
  assert (inUnit (ofNat 0)) as H0.
  { exists 0%Q. split; [done|]. split; unfold Qle; simpl; lia. }
  destruct (decide (refCount v < 2)) as [H1|H1]; cbn [clusteringCoefficient csVerse].
  { split; [done|]. split; [done|]. split; [done|lia]. }
  destruct (decide (length ns < 2)) as [H2|H2]; cbn [clusteringCoefficient csVerse].
  { split; [done|]. split; [done|]. split; [done|lia]. }
  rewrite numDiv_half, countConnections_linkedPairs.
  split; [done|]. split; [|split; [lia|done]].
  apply numDiv_nat_unit; [apply choose2_pos; lia|apply linkedPairs_le].
Qed.

(** Claim C5.  A call of [calculateClusteringCoefficient] that computes
    (empty slot) returns one record per verse.  In every record the
    coefficient lies in [0,1]; it is exactly 0 when [refCount] is below 2
    or fewer than 2 references resolve; otherwise it is the number of
    index pairs [i < j] of resolved neighbours for which the id of
    neighbour [j] is among the references of neighbour [i], divided by
    C(n, 2) for the [n] resolved neighbours.  On the complete graph on
    four verses every coefficient is 1. *)
Theorem clustering_coefficient_spec (verses : list Verse) (w : World) :
  clustering (statsCache w) = None →
  ∃ scores w',
    calculateClusteringCoefficient verses w = (Ok scores, w') ∧
    map csVerse scores ≡ₚ verses ∧
    (∀ s, s ∈ scores →
       let ns := resolveNeighbors (verseMapOf verses) (csVerse s) in
       inUnit (clusteringCoefficient s) ∧
       (refCount (csVerse s) < 2 ∨ length ns < 2 → clusteringCoefficient s = Fin 0) ∧
       (2 ≤ refCount (csVerse s) → 2 ≤ length ns →
          clusteringCoefficient s
          = numDiv (ofNat (linkedPairs ns)) (ofNat (choose2 (length ns))))) ∧
    (verses = completeGraph4 → ∀ s, s ∈ scores → clusteringCoefficient s = Fin 1).
Proof.
  intros Hc. rewrite calculateClusteringCoefficient_fresh by done.
  eexists _, _. split; [done|]. split; [|split].
  - rewrite arraySort_perm. unfold clusteringScores. rewrite map_map.
    erewrite map_ext; [by rewrite map_id|].
    intros v. apply clusteringScore_spec.
  - intros s Hs. apply elem_of_arraySort, list_elem_of_fmap in Hs as (v & -> & Hv).
    pose proof (clusteringScore_spec (verseMapOf verses) v) as (Hv' & H).
    rewrite Hv'. exact H.
  - intros -> s Hs. apply elem_of_arraySort in Hs.
    vm_compute in Hs. set_solver.
Qed.

(** Claim C5 at the complete graph on four verses and the empty world. *)
Lemma clustering_coefficient_spec_witness :
  clustering (statsCache emptyWorld) = None ∧
  ∃ scores w',
    calculateClusteringCoefficient completeGraph4 emptyWorld = (Ok scores, w') ∧
    map csVerse scores ≡ₚ completeGraph4 ∧
    (∀ s, s ∈ scores →
       let ns := resolveNeighbors (verseMapOf completeGraph4) (csVerse s) in
       inUnit (clusteringCoefficient s) ∧
       (refCount (csVerse s) < 2 ∨ length ns < 2 → clusteringCoefficient s = Fin 0) ∧
       (2 ≤ refCount (csVerse s) → 2 ≤ length ns →
          clusteringCoefficient s
          = numDiv (ofNat (linkedPairs ns)) (ofNat (choose2 (length ns))))) ∧
    (completeGraph4 = completeGraph4 → ∀ s, s ∈ scores → clusteringCoefficient s = Fin 1).
Proof. split; [reflexivity|apply (clustering_coefficient_spec completeGraph4 emptyWorld); reflexivity]. Defined.

(* ===================================================================== *)
(** ** The path search terminates *)
(* ===================================================================== *)

(** The queue length plus the number of index keys not yet visited never
    grows in [expandRefs], and every round of [bfsLoop] removes one path:
    the sum bounds the number of rounds. *)
Lemma expandRefs_measure (vm : gmap string Verse) path rs q v :
  length (expandRefs vm path rs q v).1 + size (dom vm ∖ (expandRefs vm path rs q v).2)
  ≤ length q + size (dom vm ∖ v).
Proof.
  revert q v. induction rs as [|r rs IH]; intros q v; [done|].
  cbn [expandRefs]. destruct (decide (r ∈ v)) as [Hin|Hnin]; [apply IH|].
  destruct (vm !! r) as [w|] eqn:E.
  - etrans; [apply IH|]. rewrite length_app. simpl.
    assert (dom vm ∖ v = {[r]} ∪ dom vm ∖ (v ∪ {[r]})) as ->.
    { apply set_eq. intros x. rewrite elem_of_union, !elem_of_difference, elem_of_union,
        elem_of_singleton, elem_of_dom.
      destruct (decide (x = r)) as [->|]; naive_solver. }
    rewrite (size_union (C:=gset string) {[r]} (dom vm ∖ (v ∪ {[r]}))) by set_solver.
    rewrite size_singleton. lia.
  - etrans; [apply IH|]. apply Nat.add_le_mono_l, subseteq_size. set_solver.
Qed.

Lemma expandRefs_nonempty (vm : gmap string Verse) path rs q v :
  Forall (λ p, p ≠ []) q → Forall (λ p, p ≠ []) (expandRefs vm path rs q v).1.
Proof.
  revert q v. induction rs as [|r rs IH]; intros q v Hq; [done|].
  cbn [expandRefs]. destruct (decide (r ∈ v)); [by apply IH|].
  destruct (vm !! r); apply IH; [|done].
  apply Forall_app; split; [done|]. constructor; [|done]. by destruct path.
Qed.

Lemma bfsLoop_terminates (fuel : nat) (endVerse : Verse) (vm : gmap string Verse) q v :
  Forall (λ p, p ≠ []) q →
  length q + size (dom vm ∖ v) < fuel →
  ∃ r, bfsLoop fuel endVerse vm q v = Ok r.
Proof.
  revert q v. induction fuel as [|fuel IH]; intros q v Hq Hf; [lia|].
  cbn [bfsLoop]. destruct q as [|path q']; [eauto|].
  apply Forall_cons in Hq as [Hp Hq]. simpl in Hf.
  destruct (decide (maxDepth < length path)); [apply IH; [done|lia]|].
  destruct (last path) as [current|] eqn:El; [|by apply last_None in El].
  destruct (decide (id current = id endVerse)); [eauto|].
  pose proof (expandRefs_measure vm path (refs current) q' v) as Hm.
  pose proof (expandRefs_nonempty vm path (refs current) q' v Hq) as Hn.
  destruct (expandRefs vm path (refs current) q' v) as [q'' v']. simpl in *.
  apply IH; [done|lia].
Qed.

Lemma findShortestPath_terminates (start endVerse : Verse) (vm : gmap string Verse) :
  ∃ r, findShortestPath start endVerse vm = Ok r.
Proof.
  apply bfsLoop_terminates; [by repeat constructor|]. simpl.
  assert (size (dom vm ∖ {[id start]}) ≤ size vm); [|lia].
  rewrite <- size_dom. apply subseteq_size. set_solver.
Qed.

(** Every entry of a returned path behind the first is a verse of the
    index. *)
Lemma fromIndex_snoc vm p w k : fromIndex vm p → vm !! k = Some w → fromIndex vm (p ++ [w]).
Proof.
  intros Hp Hw u Hu. destruct p as [|x p]; [by apply elem_of_nil in Hu|].
  simpl in Hu. apply elem_of_app in Hu as [Hu|Hu]; [by apply Hp|].
  apply list_elem_of_singleton in Hu as ->. eauto.
Qed.

Lemma expandRefs_fromIndex vm path rs q v :
  fromIndex vm path → Forall (fromIndex vm) q →
  Forall (fromIndex vm) (expandRefs vm path rs q v).1.
Proof.
  revert q v. induction rs as [|r rs IH]; intros q v Hp Hq; [done|].
  cbn [expandRefs]. destruct (decide (r ∈ v)); [by apply IH|].
  destruct (vm !! r) eqn:E; apply IH; try done.
  apply Forall_app; split; [done|]. constructor; [|done]. by eapply fromIndex_snoc.
Qed.

Lemma bfsLoop_fromIndex fuel endVerse vm q v p :
  Forall (fromIndex vm) q → bfsLoop fuel endVerse vm q v = Ok (Some p) → fromIndex vm p.
Proof.
  revert q v. induction fuel as [|fuel IH]; intros q v Hq; [done|].
  cbn [bfsLoop]. destruct q as [|path q']; [done|].
  apply Forall_cons in Hq as [Hp Hq].
  destruct (decide (maxDepth < length path)); [by apply IH|].
  destruct (last path) as [current|]; [|done].
  destruct (decide (id current = id endVerse)); [by intros [= <-]|].
  pose proof (expandRefs_fromIndex vm path (refs current) q' v Hp Hq) as Hn.
  destruct (expandRefs vm path (refs current) q' v) as [q'' v']. by apply IH.
Qed.

Lemma findShortestPath_fromIndex start endVerse vm p :
  findShortestPath start endVerse vm = Ok (Some p) → fromIndex vm p.
Proof.
  apply bfsLoop_fromIndex. constructor; [|done]. intros u Hu. by apply elem_of_nil in Hu.
Qed.

(* ===================================================================== *)
(** ** The path search finds shortest paths of at most six nodes *)
(* ===================================================================== *)

(** The invariant [bfsInv] holds at the start of the search, is kept by
    every round of [bfsLoop], and gives the result its meaning. *)
Section BreadthFirst.

Variable verseMap : gmap string Verse.
Variables start endVerse : Verse.
Hypothesis Hkeyed : keyedById verseMap.
Hypothesis Hstart : verseMap !! id start = Some start.

Lemma pathTo_last p c : pathTo verseMap start p c → last p = Some c.
Proof. destruct 1; [done|]. apply last_snoc. Qed.

Lemma pathTo_indexed p c : pathTo verseMap start p c → verseMap !! id c = Some c.
Proof. by destruct 1. Qed.

Lemma pathTo_length p c : pathTo verseMap start p c → 1 ≤ length p.
Proof. destruct 1; [done|]. rewrite length_app. simpl. lia. Qed.

Lemma pathTo_head p c : pathTo verseMap start p c → head p = Some start.
Proof.
  induction 1 as [|p u v Hp IH]; [done|].
  destruct p; [done|]. done.
Qed.

Lemma pathTo_one p c : pathTo verseMap start p c → length p = 1 → c = start.
Proof.
  destruct 1 as [|p u v Hp]; [done|]. rewrite length_app. simpl.
  apply pathTo_length in Hp. lia.
Qed.

Lemma pathTo_inv p c :
  pathTo verseMap start p c →
  (p = [start] ∧ c = start) ∨
  ∃ p0 u, p = p0 ++ [c] ∧ pathTo verseMap start p0 u ∧ id c ∈ refs u ∧
          verseMap !! id c = Some c.
Proof. destruct 1; [by left|right; eauto 10]. Qed.

Lemma indexed_inj c c' :
  verseMap !! id c = Some c → verseMap !! id c' = Some c' → id c = id c' → c = c'.
Proof. intros H H' E. rewrite E in H. congruence. Qed.

Lemma pathTo_same_end p c c' : pathTo verseMap start p c → last p = Some c' → c = c'.
Proof. intros H%pathTo_last. congruence. Qed.

Lemma freshRefs_elem rs visited r : r ∈ freshRefs rs visited ↔ r ∈ rs ∧ r ∉ visited.
Proof.
  revert visited. induction rs as [|x rs IH]; intros visited; simpl.
  { rewrite elem_of_nil. split; [done|by intros [? ?]]. }
  destruct (decide (x ∈ visited)) as [Hin|Hnin].
  - rewrite IH, elem_of_cons. split; [tauto|]. intros [[->|?] ?]; done.
  - rewrite !elem_of_cons, IH, elem_of_union, elem_of_singleton.
    destruct (decide (r = x)) as [->|]; tauto.
Qed.

Lemma expandRefs_spec path rs queue visited :
  expandRefs verseMap path rs queue visited
  = (queue ++ map (λ w, path ++ [w]) (omap (λ r, verseMap !! r) (freshRefs rs visited)),
     visited ∪ list_to_set rs).
Proof.
  revert queue visited. induction rs as [|r rs IH]; intros queue visited.
  { simpl. rewrite app_nil_r. f_equal. set_solver. }
  cbn [expandRefs freshRefs]. destruct (decide (r ∈ visited)) as [Hin|Hnin].
  - rewrite IH. f_equal. set_solver.
  - cbn [omap list_omap]. destruct (verseMap !! r) as [w|] eqn:E.
    + rewrite IH. cbn [map]. rewrite <- app_assoc. f_equal. set_solver.
    + rewrite IH. f_equal. set_solver.
Qed.

Lemma bfsInv_init :
  bfsInv verseMap start endVerse [[start]] {[id start]} ∅ ∅ [[start]] [] 1.
Proof.
  split; try done.
  - by repeat constructor.
  - intros p ->%list_elem_of_singleton. exists start.
    split; [constructor|]. split; [set_solver|]. intros p' Hp'. simpl.
    by eapply pathTo_length.
  - intros p c Hp%pathTo_length ? ?. exfalso. lia.
  - intros c Hc Hin%elem_of_singleton. left. exists [start].
    split; [left|]. simpl. f_equal. symmetry. by apply indexed_inj.
  - set_solver.
Qed.

Lemma bfsInv_relevel queue visited processed skipped back d :
  bfsInv verseMap start endVerse queue visited processed skipped [] back d →
  bfsInv verseMap start endVerse queue visited processed skipped back [] (S d).
Proof.
  intros [Hsplit Hf Hb Hpaths Hcloser Hseen Hproc Hskip Hst Hlev].
  simpl in Hsplit. subst queue.
  split; try done; [by rewrite app_nil_r| |lia].
  intros p c Hp Hlen Hmax.
  destruct (decide (length p < d)) as [|Hd]; [by eapply Hcloser|].
  assert (length p = d) as Hpd by lia.
  assert (id c ∈ visited) as Hvis.
  { clear Hd. destruct (pathTo_inv _ _ Hp) as [[-> ->]|(p0 & u & -> & Hp0 & Href & Hidx)];
      [done|].
    rewrite length_app in Hpd, Hmax. simpl in *.
    destruct (Hproc u) as [_ Hrefs].
    - by eapply pathTo_indexed.
    - eapply Hcloser; [done|lia|lia].
    - by apply Hrefs. }
  destruct (Hseen c (pathTo_indexed _ _ Hp) Hvis) as [(q & Hq & Hlast)|[?|Hs]]; [|done|].
  - destruct (Hpaths q Hq) as (c' & Hqc & _ & Hshort).
    assert (c' = c) as -> by by eapply pathTo_same_end.
    specialize (Hshort p Hp). eapply Forall_forall in Hb; [|exact Hq]. lia.
  - specialize (Hskip c p Hs Hp). lia.
Qed.

Lemma bfsInv_head path queue visited processed skipped front back d :
  bfsInv verseMap start endVerse (path :: queue) visited processed skipped front back d →
  ∃ front' back' d',
    bfsInv verseMap start endVerse (path :: queue) visited processed skipped
      (path :: front') back' d'.
Proof.
  intros Hinv. destruct front as [|p front].
  - apply bfsInv_relevel in Hinv. pose proof (inv_split _ _ _ _ _ _ _ _ _ _ Hinv) as Hs.
    rewrite app_nil_r in Hs. subst back. eauto.
  - pose proof (inv_split _ _ _ _ _ _ _ _ _ _ Hinv) as Hs.
    injection Hs as <- _. eauto.
Qed.

Lemma bfsInv_skip path queue visited processed skipped front back d c :
  bfsInv verseMap start endVerse (path :: queue) visited processed skipped
    (path :: front) back d →
  maxDepth < length path → last path = Some c →
  bfsInv verseMap start endVerse queue visited processed (skipped ∪ {[id c]}) front back d.
Proof.
  intros [Hsplit Hf Hb Hpaths Hcloser Hseen Hproc Hskip Hst Hlev] Hdeep Hlast.
  injection Hsplit as Hsplit. apply Forall_cons in Hf as [Hpd Hf].
  destruct (Hpaths path) as (c' & Hpc & _ & Hshort); [left|].
  assert (c' = c) as -> by by eapply pathTo_same_end.
  split; try done.
  - intros p Hp. apply Hpaths. by right.
  - intros c0 Hc0 Hvis.
    destruct (Hseen c0 Hc0 Hvis) as [(q & Hq & Hql)|[?|?]]; [|auto|set_solver].
    apply elem_of_cons in Hq as [->|Hq]; [|eauto].
    assert (c0 = c) as -> by congruence. set_solver.
  - intros c0 p [Hin|Hin%elem_of_singleton]%elem_of_union Hp; [by eapply Hskip|].
    assert (c0 = c) as ->.
    { apply indexed_inj; [by eapply pathTo_indexed|by eapply pathTo_indexed|done]. }
    specialize (Hshort p Hp). lia.
Qed.

Lemma bfsInv_expand path queue visited processed skipped front back d c :
  bfsInv verseMap start endVerse (path :: queue) visited processed skipped
    (path :: front) back d →
  length path ≤ maxDepth → last path = Some c → id c ≠ id endVerse →
  let new := map (λ w, path ++ [w])
               (omap (λ r, verseMap !! r) (freshRefs (refs c) visited)) in
  bfsInv verseMap start endVerse (queue ++ new) (visited ∪ list_to_set (refs c))
    (processed ∪ {[id c]}) skipped front (back ++ new) d.
Proof.
  intros [Hsplit Hf Hb Hpaths Hcloser Hseen Hproc Hskip Hst Hlev] Hdeep Hlast Hend new.
  injection Hsplit as Hsplit. apply Forall_cons in Hf as [Hpd Hf].
  destruct (Hpaths path) as (c' & Hpc & _ & Hshort); [left|].
  assert (c' = c) as -> by by eapply pathTo_same_end.
  assert (∀ p, p ∈ new ↔ ∃ w, p = path ++ [w] ∧ id w ∈ refs c ∧ (id w ∉ visited) ∧
                            verseMap !! id w = Some w) as Hnew.
  { intros p. unfold new. rewrite list_elem_of_fmap. split.
    - intros (w & -> & (r & Hr & Hw)%list_elem_of_omap). exists w.
      apply freshRefs_elem in Hr as [Hr Hnv].
      pose proof (Hkeyed r w Hw) as <-. done.
    - intros (w & -> & Hr & Hnv & Hw). exists w. split; [done|].
      apply list_elem_of_omap. exists (id w). split; [|done].
      by apply freshRefs_elem. }
  split.
  - by rewrite Hsplit, app_assoc.
  - done.
  - apply Forall_app. split; [done|]. apply Forall_forall.
    intros p (w & -> & _)%Hnew. rewrite length_app. simpl. lia.
  - intros p [Hp|Hp]%elem_of_app.
    + destruct (Hpaths p) as (c0 & ? & ? & ?); [by right|]. exists c0.
      split; [done|]. split; [set_solver|done].
    + apply Hnew in Hp as (w & -> & Hr & Hnv & Hw). exists w.
      split; [by econstructor|]. split; [set_solver|].
      intros p' Hp'. rewrite length_app. simpl.
      destruct (decide (length p' ≤ length path)) as [Hle|]; [|lia]. exfalso.
      destruct (pathTo_inv _ _ Hp') as [[-> ->]|(p0 & u & -> & Hp0 & Href & Hidx)];
        [done|].
      rewrite length_app in Hle. simpl in Hle.
      destruct (Hproc u) as [_ Hrefs].
      * by eapply pathTo_indexed.
      * eapply Hcloser; [done|lia|lia].
      * by apply Hnv, Hrefs.
  - intros p c0 Hp Hlen Hmax. apply elem_of_union. left. by eapply Hcloser.
  - intros c0 Hc0 Hvis. destruct (decide (id c0 ∈ visited)) as [Hold|Hfresh].
    + destruct (Hseen c0 Hc0 Hold) as [(q & Hq & Hql)|[?|?]]; [|set_solver|auto].
      apply elem_of_cons in Hq as [->|Hq].
      * assert (c0 = c) as -> by congruence. set_solver.
      * left. exists q. split; [|done]. apply elem_of_app. by left.
    + left. exists (path ++ [c0]). split; [|apply last_snoc].
      apply elem_of_app. right. apply Hnew. exists c0.
      split; [done|]. split; [set_solver|done].
  - intros c0 Hc0 [Hin|Hin%elem_of_singleton]%elem_of_union.
    + destruct (Hproc c0 Hc0 Hin) as [? Hrefs]. split; [done|].
      intros r Hr. apply elem_of_union. left. by apply Hrefs.
    + assert (c0 = c) as ->.
      { apply indexed_inj; [done|by eapply pathTo_indexed|done]. }
      split; [done|]. set_solver.
  - done.
  - set_solver.
  - done.
Qed.

Lemma bfsInv_exhausted visited processed skipped front back d p c :
  bfsInv verseMap start endVerse [] visited processed skipped front back d →
  pathTo verseMap start p c → length p ≤ maxDepth → id c ∈ processed.
Proof.
  intros [Hsplit Hf Hb Hpaths Hcloser Hseen Hproc Hskip Hst Hlev] Hp.
  assert (∀ c p, verseMap !! id c = Some c → id c ∈ visited →
                 pathTo verseMap start p c → length p ≤ maxDepth → id c ∈ processed) as Hdone.
  { intros c0 p0 Hc0 Hvis Hp0 Hlen.
    destruct (Hseen c0 Hc0 Hvis) as [(q & Hq & _)|[?|Hs]]; [by apply elem_of_nil in Hq|done|].
    specialize (Hskip c0 p0 Hs Hp0). lia. }
  induction Hp as [|p u v Hp IH Href Hidx]; intros Hlen.
  - eapply Hdone; [done|done|constructor|done].
  - rewrite length_app in Hlen. simpl in Hlen.
    destruct (Hproc u) as [_ Hrefs]; [by eapply pathTo_indexed|apply IH; lia|].
    eapply Hdone; [done|by apply Hrefs|by econstructor|].
    rewrite length_app. simpl. lia.
Qed.

Lemma bfsLoop_sound fuel queue visited processed skipped front back d r :
  bfsInv verseMap start endVerse queue visited processed skipped front back d →
  bfsLoop fuel endVerse verseMap queue visited = Ok r →
  match r with
  | Some p => connects verseMap start endVerse p ∧ length p ≤ maxDepth ∧
              ∀ p', connects verseMap start endVerse p' → length p ≤ length p'
  | None => ∀ p', connects verseMap start endVerse p' → maxDepth < length p'
  end.
Proof.
  revert queue visited processed skipped front back d.
  induction fuel as [|fuel IH]; intros queue visited processed skipped front back d Hinv;
    [done|].
  cbn [bfsLoop]. destruct queue as [|path queue].
  { intros [= <-]. intros p' (c & Hp' & Hc).
    destruct (decide (length p' ≤ maxDepth)) as [Hle|]; [|lia]. exfalso.
    pose proof (bfsInv_exhausted _ _ _ _ _ _ _ _ Hinv Hp' Hle) as Hin.
    destruct (inv_processed _ _ _ _ _ _ _ _ _ _ Hinv c) as [Hne _]; [|done|done].
    by eapply pathTo_indexed. }
  apply bfsInv_head in Hinv as (front' & back' & d' & Hinv).
  destruct (inv_paths _ _ _ _ _ _ _ _ _ _ Hinv path) as (c & Hpc & _ & Hshort); [left|].
  rewrite (pathTo_last _ _ Hpc).
  destruct (decide (maxDepth < length path)) as [Hdeep|Hdeep].
  { apply IH with (processed := processed) (skipped := skipped ∪ {[id c]})
                  (front := front') (back := back') (d := d').
    eapply bfsInv_skip; [done|done|by eapply pathTo_last]. }
  destruct (decide (id c = id endVerse)) as [Hend|Hend].
  { intros [= <-]. split; [by exists c|]. split; [lia|].
    intros p' (c' & Hp' & Hc'). apply Hshort.
    assert (c' = c) as -> ; [|done].
    apply indexed_inj; [by eapply pathTo_indexed|by eapply pathTo_indexed|congruence]. }
  rewrite expandRefs_spec.
  eapply IH, bfsInv_expand; [done|lia|by eapply pathTo_last|done].
Qed.

End BreadthFirst.

Lemma connects_length (verseMap : gmap string Verse) (start endVerse : Verse) p :
  connects verseMap start endVerse p → 1 ≤ length p.
Proof. intros (c & Hp & _). by eapply pathTo_length. Qed.

(** The search from a verse of the index built from [verses]. *)
Lemma findShortestPath_sound (verses : list Verse) (start endVerse : Verse) :
  verseMapOf verses !! id start = Some start →
  ∃ r, findShortestPath start endVerse (verseMapOf verses) = Ok r ∧
       match r with
       | Some q => connects (verseMapOf verses) start endVerse q ∧ hops q ≤ 5 ∧
                   ∀ p, connects (verseMapOf verses) start endVerse p → hops q ≤ hops p
       | None => ∀ p, connects (verseMapOf verses) start endVerse p → 5 < hops p
       end.
Proof.
  intros Hstart.
  destruct (findShortestPath_terminates start endVerse (verseMapOf verses)) as [r Hr].
  exists r. split; [done|].
  pose proof (bfsLoop_sound (verseMapOf verses) start endVerse (verseMapOf_keyed verses)
                Hstart _ _ _ _ _ _ _ _ r
                (bfsInv_init (verseMapOf verses) start endVerse (verseMapOf_keyed verses)
                   Hstart) Hr) as H.
  unfold hops. destruct r as [q|].
  - destruct H as (Hq & Hlen & Hmin). split; [done|]. unfold maxDepth in Hlen.
    split; [lia|]. intros p Hp. specialize (Hmin p Hp). lia.
  - intros p Hp. specialize (H p Hp). unfold maxDepth in H. lia.
Qed.

(** Builds a concrete walk one verse at a time, from its end. *)
Ltac walk_step :=
  match goal with
  | |- pathTo _ _ [_] _ => apply pathTo_start
  | |- pathTo ?vm ?s ?p ?c =>
      let p0 := eval cbv in (removelast p) in
      let u := eval cbv in (List.last p0 c) in
      change p with (p0 ++ [c]);
      apply (pathTo_step vm s p0 u c);
        [|apply list_elem_of_In; simpl; tauto|reflexivity]
  end.

(** Claim C2 as stated (a path of at most 6 hops is found) fails: in the
    chain of seven verses the last is 6 hops from the first, the chain
    itself is a walk between them, and the search returns [null]. *)
Lemma six_hop_path_is_not_found :
  let start := plainVerse "1" ["2"] in
  let target := plainVerse "7" ["6"] in
  connects (verseMapOf chain7) start target chain7 ∧
  hops chain7 = 6 ∧
  findShortestPath start target (verseMapOf chain7) = Ok None.
Proof.
  split; [|split; reflexivity].
  exists (plainVerse "7" ["6"]). split; [|done].
  unfold chain7. repeat walk_step.
Qed.

(** Claim C2, amended to the cap the code applies.  For a start verse that
    the index holds under its id: whenever some walk to the target has at
    most 5 hops (6 nodes), [findShortestPath] returns a walk to the target
    that no other walk beats in hops; whenever every walk to the target
    has more than 5 hops, it returns [null]; on the chain A-B-C-D the
    query from A to D returns [A; B; C; D]. *)
Theorem findShortestPath_within_five_hops (verses : list Verse) (start endVerse : Verse) :
  verseMapOf verses !! id start = Some start →
  let verseMap := verseMapOf verses in
  ((∃ p, connects verseMap start endVerse p ∧ hops p ≤ 5) →
     ∃ q, findShortestPath start endVerse verseMap = Ok (Some q) ∧
          connects verseMap start endVerse q ∧
          ∀ p, connects verseMap start endVerse p → hops q ≤ hops p) ∧
  ((∀ p, connects verseMap start endVerse p → 5 < hops p) →
     findShortestPath start endVerse verseMap = Ok None) ∧
  (verses = chainGraph → start = plainVerse "A" ["B"] → endVerse = plainVerse "D" ["C"] →
     findShortestPath start endVerse verseMap = Ok (Some chainGraph)).
Proof.
  intros Hstart verseMap.
  destruct (findShortestPath_sound verses start endVerse Hstart) as (r & Hr & Hpost).
  fold verseMap in Hr, Hpost. split; [|split].
  - intros (p & Hp & Hlen). destruct r as [q|].
    + destruct Hpost as (Hq & _ & Hmin). eauto.
    + specialize (Hpost p Hp). lia.
  - intros Hfar. destruct r as [q|]; [|done].
    destruct Hpost as (Hq & Hlen & _). specialize (Hfar q Hq). lia.
  - intros -> -> ->. reflexivity.
Qed.

(** Claim C2 (amended) at the chain A-B-C-D, from A to D. *)
Lemma findShortestPath_within_five_hops_witness :
  verseMapOf chainGraph !! id (plainVerse "A" ["B"]) = Some (plainVerse "A" ["B"]) ∧
  let start := plainVerse "A" ["B"] in
  let endVerse := plainVerse "D" ["C"] in
  let verseMap := verseMapOf chainGraph in
  ((∃ p, connects verseMap start endVerse p ∧ hops p ≤ 5) →
     ∃ q, findShortestPath start endVerse verseMap = Ok (Some q) ∧
          connects verseMap start endVerse q ∧
          ∀ p, connects verseMap start endVerse p → hops q ≤ hops p) ∧
  ((∀ p, connects verseMap start endVerse p → 5 < hops p) →
     findShortestPath start endVerse verseMap = Ok None) ∧
  (chainGraph = chainGraph → start = plainVerse "A" ["B"] → endVerse = plainVerse "D" ["C"] →
     findShortestPath start endVerse verseMap = Ok (Some chainGraph)).
Proof.
  split; [reflexivity|].
  apply (findShortestPath_within_five_hops chainGraph (plainVerse "A" ["B"])
           (plainVerse "D" ["C"])).
  reflexivity.
Defined.

(* ===================================================================== *)
(** ** Sampled betweenness *)
(* ===================================================================== *)

(** A draw in [0,1) selects a verse of a non-empty list. *)
Lemma randomVerse_Some (mathRandom : nat → Q) (verses : list Verse) (k : nat) :
  unitDraws mathRandom → verses ≠ [] →
  ∃ v, randomVerse mathRandom verses k = Some v ∧ v ∈ verses.
Proof.
  intros Hr Hne. destruct (Hr k) as [H0 H1].
  unfold randomVerse, arrayAt, mathFloor.
  set (len := Z.of_nat (length verses)).
  assert (0 < len)%Z as Hlen by (destruct verses; [done|simpl in *; lia]).
  set (x := (mathRandom k * inject_Z len)%Q).
  assert (0 <= x)%Q as Hx0.
  { apply Qmult_le_0_compat; [done|]. change 0%Q with (inject_Z 0). rewrite <- Zle_Qle. lia. }
  assert (x < inject_Z len)%Q as Hx1.
  { unfold x. rewrite <- (Qmult_1_l (inject_Z len)) at 2.
    apply Qmult_lt_compat_r; [|done]. change 0%Q with (inject_Z 0). rewrite <- Zlt_Qlt. lia. }
  assert (0 ≤ Qfloor x)%Z as Hf0.
  { change 0%Z with (Qfloor 0). by apply Qfloor_resp_le. }
  assert (Qfloor x < len)%Z as Hf1.
  { rewrite Zlt_Qlt. eapply Qle_lt_trans; [apply Qfloor_le|done]. }
  rewrite decide_True by done.
  destruct (lookup_lt_is_Some_2 verses (Z.to_nat (Qfloor x))) as [v Hv]; [lia|].
  exists v. split; [done|]. by eapply list_elem_of_lookup_2.
Qed.

Lemma interior_tail (p : list Verse) (u : Verse) : u ∈ interior p → u ∈ tail p.
Proof.
  unfold interior. intros Hu.
  eapply elem_of_sublist in Hu; [|apply sublist_take].
  destruct p; [done|]. simpl in *. by rewrite drop_0 in Hu.
Qed.

Lemma interior_nonempty (p : list Verse) : 2 < length p → ∃ u, u ∈ interior p.
Proof.
  intros Hp. unfold interior.
  destruct p as [|x [|y p]]; [simpl in Hp; lia..|].
  exists y. destruct p as [|z p]; [simpl in Hp; lia|]. simpl. left.
Qed.

Lemma accumulatePath_short (path : list Verse) (b : gmap string nat) :
  length path ≤ 2 → accumulatePath (Some path) b = b.
Proof. intros H. unfold accumulatePath. rewrite decide_False; [done|lia]. Qed.

(** Accumulating a path adds accumulators only for ids of the index, keeps
    the existing ones, and never lowers a count. *)
Lemma accumulate_keys (l : list Verse) (b : gmap string nat) (k : string) :
  is_Some (foldl (λ b v, <[id v := countOf b (id v) + 1]> b) b l !! k)
  ↔ is_Some (b !! k) ∨ k ∈ map id l.
Proof.
  revert b. induction l as [|u l IH]; intros b; simpl.
  - rewrite elem_of_nil. tauto.
  - rewrite IH, elem_of_cons, lookup_insert_is_Some. destruct (decide (id u = k)); naive_solver.
Qed.

Lemma accumulatePath_keys (verses : list Verse) (p : option (list Verse)) (b : gmap string nat) :
  (∀ q, p = Some q → fromIndex (verseMapOf verses) q) →
  keysFrom verses b → keysFrom verses (accumulatePath p b).
Proof.
  intros Hp Hb. destruct p as [q|]; [|done]. unfold accumulatePath.
  destruct (decide (2 < length q)); [|done].
  intros k [Hk|Hk]%accumulate_keys; [by apply Hb|].
  apply list_elem_of_fmap in Hk as (u & -> & Hu).
  apply interior_tail, (Hp q eq_refl) in Hu as (k & Hk).
  apply verseMapOf_lookup in Hk as [Hin _]. apply list_elem_of_fmap. eauto.
Qed.

Lemma accumulatePath_persist (p : option (list Verse)) (b : gmap string nat) (k : string) :
  is_Some (b !! k) → is_Some (accumulatePath p b !! k).
Proof.
  intros Hk. destruct p as [q|]; [|done]. unfold accumulatePath.
  destruct (decide (2 < length q)); [|done]. apply accumulate_keys. by left.
Qed.

Lemma accumulate_mono (l : list Verse) (b : gmap string nat) (k : string) :
  countOf b k ≤ countOf (foldl (λ b v, <[id v := countOf b (id v) + 1]> b) b l) k.
Proof.
  revert b. induction l as [|u l IH]; intros b; [done|].
  cbn [foldl]. etrans; [|apply IH]. unfold countOf at 2.
  destruct (decide (id u = k)) as [->|Hne].
  - rewrite lookup_insert_eq. simpl. lia.
  - rewrite lookup_insert_ne by done. done.
Qed.

Lemma accumulate_bumps (l : list Verse) (b : gmap string nat) (u : Verse) :
  u ∈ l → 0 < countOf (foldl (λ b v, <[id v := countOf b (id v) + 1]> b) b l) (id u).
Proof.
  revert b. induction l as [|x l IH]; intros b Hu; [by apply elem_of_nil in Hu|].
  cbn [foldl]. apply elem_of_cons in Hu as [->|Hu]; [|by apply IH].
  eapply Nat.lt_le_trans; [|apply accumulate_mono].
  unfold countOf at 1. rewrite lookup_insert_eq. simpl. lia.
Qed.

Lemma accumulatePath_mono (p : list Verse) (b : gmap string nat) (k : string) :
  countOf b k ≤ countOf (accumulatePath (Some p) b) k.
Proof.
  unfold accumulatePath. destruct (decide (2 < length p)); [apply accumulate_mono|done].
Qed.

Lemma accumulatePaths_mono (paths : list (list Verse)) (b : gmap string nat) (k : string) :
  countOf b k ≤ countOf (foldl (λ b p, accumulatePath (Some p) b) b paths) k.
Proof.
  revert b. induction paths as [|p paths IH]; intros b; [done|].
  cbn [foldl]. etrans; [apply (accumulatePath_mono p)|apply IH].
Qed.

Lemma accumulatePaths_bumps (paths : list (list Verse)) (b : gmap string nat)
    (p : list Verse) (u : Verse) :
  p ∈ paths → 2 < length p → u ∈ interior p →
  0 < countOf (foldl (λ b p, accumulatePath (Some p) b) b paths) (id u).
Proof.
  revert b. induction paths as [|q paths IH]; intros b Hp Hlen Hu;
    [by apply elem_of_nil in Hp|].
  cbn [foldl]. apply elem_of_cons in Hp as [<-|Hp]; [|by apply IH].
  eapply Nat.lt_le_trans; [|apply accumulatePaths_mono].
  unfold accumulatePath. rewrite decide_True by done. by apply accumulate_bumps.
Qed.

(** The sampling loop ends normally after reading two draws per round, and
    leaves the accumulators that the sampled paths give. *)
Lemma sampleLoop_ok (mathRandom : nat → Q) (verses : list Verse) (n : nat)
    (b : gmap string nat) (k : nat) :
  unitDraws mathRandom → n ≤ length verses → keysFrom verses b →
  ∃ b', sampleLoop mathRandom n verses (verseMapOf verses) b k = (Ok b', k + 2 * n) ∧
        keysFrom verses b' ∧
        (∀ key, is_Some (b !! key) → is_Some (b' !! key)) ∧
        b' = foldl (λ b p, accumulatePath (Some p) b) b
               (sampledPaths mathRandom n verses (verseMapOf verses) k).
Proof.
  intros Hr. revert b k. induction n as [|n IH]; intros b k Hn Hb.
  { exists b. simpl. rewrite Nat.add_0_r. done. }
  assert (verses ≠ []) as Hne by (destruct verses; [simpl in Hn; lia|done]).
  destruct (randomVerse_Some mathRandom verses k Hr Hne) as (source & Hs & _).
  destruct (randomVerse_Some mathRandom verses (S k) Hr Hne) as (target & Ht & _).
  cbn [sampleLoop sampledPaths]. rewrite Hs, Ht.
  replace (k + 2 * S n) with (S (S k) + 2 * n) by lia.
  destruct (decide (id source = id target)); [apply IH; [lia|done]|].
  destruct (findShortestPath_terminates source target (verseMapOf verses)) as [r Hfind].
  rewrite Hfind.
  destruct (IH (accumulatePath r b) (S (S k)) ltac:(lia)) as (b' & Hrun & Hk & Hp & Htr).
  { apply accumulatePath_keys; [|done]. intros q ->. by eapply findShortestPath_fromIndex. }
  exists b'. split; [done|]. split; [done|]. split.
  - intros key Hkey. by apply Hp, accumulatePath_persist.
  - destruct r; done.
Qed.

Lemma sampledPaths_fromIndex (mathRandom : nat → Q) (n : nat) (verses : list Verse)
    (verseMap : gmap string Verse) (k : nat) (p : list Verse) :
  p ∈ sampledPaths mathRandom n verses verseMap k → fromIndex verseMap p.
Proof.
  revert k. induction n as [|n IH]; intros k; [by intros ?%elem_of_nil|].
  cbn [sampledPaths].
  destruct (randomVerse mathRandom verses k) as [source|]; [|by intros ?%elem_of_nil].
  destruct (randomVerse mathRandom verses (S k)) as [target|]; [|by intros ?%elem_of_nil].
  destruct (decide (id source = id target)); [apply IH|].
  destruct (findShortestPath source target verseMap) as [[q|]| |] eqn:E; try apply IH.
  intros [->|Hp]%elem_of_cons; [by eapply findShortestPath_fromIndex|by eapply IH].
Qed.

(** A sampled path of more than 2 nodes leaves a positive accumulator at a
    verse of the input. *)
Lemma accumulator_positive (mathRandom : nat → Q) (n : nat) (verses : list Verse) (k : nat) :
  (∃ p, p ∈ sampledPaths mathRandom n verses (verseMapOf verses) k ∧ 2 < length p) →
  ∃ v, v ∈ verses ∧
       0 < accumulatorOf verses (sampledPaths mathRandom n verses (verseMapOf verses) k) (id v).
Proof.
  intros (p & Hp & Hlen). destruct (interior_nonempty p Hlen) as [u Hu].
  exists u. split.
  - apply sampledPaths_fromIndex in Hp. apply interior_tail, Hp in Hu as (key & Hkey).
    by apply verseMapOf_lookup in Hkey as [? _].
  - unfold accumulatorOf. by eapply accumulatePaths_bumps.
Qed.

(** [Math.max(...betweenness.values()) || 1] and the verses attaining the
    maximum. *)
Lemma maxBetweenness_nonempty (b : gmap string nat) :
  b ≠ ∅ → numOr (mathMax (snd <$> map_to_list b)) (ofNat 1) = ofNat (normaliser b).
Proof.
  intros Hb. unfold normaliser.
  destruct (map_to_list b) as [|e l] eqn:E; [by apply map_to_list_empty_iff in E|].
  cbn [fmap list_fmap mathMax]. set (top := max_list _).
  unfold numOr, truthy, ofNat, ofZ. rewrite Qis0_inject.
  destruct (decide (top = 0)) as [->|Hne]; [done|].
  rewrite bool_decide_eq_false_2 by lia. done.
Qed.

Lemma countOf_le_max (b : gmap string nat) (k : string) :
  countOf b k ≤ max_list (snd <$> map_to_list b).
Proof.
  unfold countOf. destruct (b !! k) as [c|] eqn:E; simpl; [|lia].
  apply max_list_elem_of_le, list_elem_of_fmap. exists (k, c).
  split; [done|]. by apply elem_of_map_to_list.
Qed.

Lemma max_attained (b : gmap string nat) :
  b ≠ ∅ → ∃ k, b !! k = Some (max_list (snd <$> map_to_list b)).
Proof.
  intros Hb.
  assert (snd <$> map_to_list b ≠ []) as Hne.
  { intros H. apply fmap_nil_inv in H. by apply map_to_list_empty_iff in H. }
  apply max_list_elem_of, list_elem_of_fmap in Hne as ([k c] & Hc & Hin).
  apply elem_of_map_to_list in Hin. simpl in Hc. exists k. by rewrite Hc.
Qed.

Lemma betweennessScores_elem (verses : list Verse) (b : gmap string nat) (s : BetweennessScore) :
  s ∈ betweennessScores verses b ↔
  ∃ v, v ∈ verses ∧
       s = {| bsVerse := v;
              betweennessCentrality :=
                numDiv (ofNat (countOf b (id v)))
                  (numOr (mathMax (snd <$> map_to_list b)) (ofNat 1));
              betweennessScore := countOf b (id v) |}.
Proof. unfold betweennessScores. rewrite list_elem_of_fmap. naive_solver. Qed.

Lemma betweennessScores_top (verses : list Verse) (b : gmap string nat) :
  verses ≠ [] → keysFrom verses b →
  (∀ v, v ∈ verses → is_Some (b !! id v)) →
  max_list (map betweennessScore (betweennessScores verses b))
  = max_list (snd <$> map_to_list b).
Proof.
  intros Hne Hk Hall.
  assert (b ≠ ∅) as Hb.
  { destruct verses as [|v l]; [done|]. intros ->.
    destruct (Hall v) as [c Hc]; [left|]. by rewrite lookup_empty in Hc. }
  apply Nat.le_antisymm.
  - apply max_list_le. intros x (s & -> & Hs)%list_elem_of_fmap.
    apply betweennessScores_elem in Hs as (v & _ & ->). apply countOf_le_max.
  - destruct (max_attained b Hb) as [k Hkey].
    assert (k ∈ map id verses) as (v & -> & Hv)%list_elem_of_fmap by (apply Hk; eauto).
    apply max_list_elem_of_le, list_elem_of_fmap.
    eexists. split; [|apply betweennessScores_elem; eauto]. simpl.
    unfold countOf. by rewrite Hkey.
Qed.

(** Claim C4.  With [Math.random] in [0,1), a call of
    [calculateBetweennessCentrality] that computes (empty slot) returns
    one record per verse.  [betweennessScore] is the accumulator the
    sampled paths leave for the verse; every [betweennessCentrality] lies
    in [0,1], so is non-negative, and is the accumulator divided by the
    largest accumulator (by 1 when that is 0).  When the largest
    accumulator is positive some verse attains it and every verse
    attaining it scores exactly 1; when it is 0 every score is 0.  The
    largest accumulator is 0 when no sampled path has more than 2 nodes
    and positive when one has; a path of at most 2 nodes leaves every
    accumulator as it was. *)
Theorem betweenness_scores_normalised (mathRandom : nat → Q) (verses : list Verse)
    (sampleSize : Z) (w : World) :
  unitDraws mathRandom → betweenness (statsCache w) = None →
  ∃ scores w',
    calculateBetweennessCentrality mathRandom verses sampleSize w = (Ok scores, w') ∧
    map bsVerse scores ≡ₚ verses ∧
    let top := max_list (map betweennessScore scores) in
    let paths := sampledPaths mathRandom (sampleCount verses sampleSize) verses
                   (verseMapOf verses) (rngPos w) in
    (∀ s, s ∈ scores →
       betweennessScore s = accumulatorOf verses paths (id (bsVerse s)) ∧
       inUnit (betweennessCentrality s) ∧
       betweennessCentrality s
       = numDiv (ofNat (betweennessScore s)) (ofNat (if decide (top = 0) then 1 else top))) ∧
    (0 < top → ∃ s, s ∈ scores ∧ betweennessScore s = top) ∧
    (0 < top → ∀ s, s ∈ scores → betweennessScore s = top →
       betweennessCentrality s = Fin 1) ∧
    (top = 0 → ∀ s, s ∈ scores → betweennessCentrality s = Fin 0) ∧
    ((∀ p, p ∈ paths → length p ≤ 2) → top = 0) ∧
    ((∃ p, p ∈ paths ∧ 2 < length p) → 0 < top) ∧
    (∀ path b, length path ≤ 2 → accumulatePath (Some path) b = b).
Proof.
  intros Hr Hc.
  destruct (sampleLoop_ok mathRandom verses (sampleCount verses sampleSize)
              (initialCounts verses) (rngPos w) Hr) as (b & Hrun & Hk & Hp & Htr).
  { unfold sampleCount, mathMin. lia. }
  { intros k. rewrite initialCounts_lookup. case_decide; [done|]. by intros [? ?]. }
  rewrite (calculateBetweennessCentrality_fresh _ _ _ _ _ _ Hc Hrun).
  eexists _, _. split; [done|].
  set (scores := arraySort byBetweenness (betweennessScores verses b)).
  assert (∀ s, s ∈ scores ↔ s ∈ betweennessScores verses b) as Hel
    by (intros s; apply elem_of_arraySort).
  split.
  { unfold scores. rewrite arraySort_perm. unfold betweennessScores.
    rewrite map_map. simpl. by rewrite map_id. }
  assert (verses ≠ [] →
          max_list (map betweennessScore scores) = max_list (snd <$> map_to_list b)
          ∧ b ≠ ∅) as Htop.
  { intros Hne.
    assert (∀ v, v ∈ verses → is_Some (b !! id v)) as Hall.
    { intros v Hv. apply Hp. rewrite initialCounts_lookup, decide_True; [done|].
      apply list_elem_of_fmap. eauto. }
    split.
    - unfold scores. rewrite arraySort_perm. by apply betweennessScores_top.
    - destruct verses as [|v l]; [done|]. intros ->.
      destruct (Hall v) as [c Hcv]; [left|]. by rewrite lookup_empty in Hcv. }
  assert (∀ s, s ∈ scores →
            betweennessScore s = countOf b (id (bsVerse s)) ∧
            betweennessCentrality s
            = numDiv (ofNat (betweennessScore s))
                (ofNat (if decide (max_list (map betweennessScore scores) = 0) then 1
                        else max_list (map betweennessScore scores))) ∧
            betweennessScore s ≤ max_list (map betweennessScore scores)) as Hs.
  { intros s Hin. pose proof Hin as Hin'.
    apply Hel, betweennessScores_elem in Hin as (v & Hv & ->). cbn.
    destruct Htop as [Htop Hb]; [by intros ->; apply elem_of_nil in Hv|].
    split; [done|]. split.
    - rewrite maxBetweenness_nonempty by done. unfold normaliser. by rewrite Htop.
    - rewrite Htop. apply countOf_le_max. }
  cbv zeta. split; [|split; [|split; [|split; [|split; [|split]]]]].
  - intros s Hin. destruct (Hs s Hin) as (Hacc & Hbc & Hle).
    split; [by rewrite Hacc, Htr|]. split; [|done].
    rewrite Hbc. apply numDiv_nat_unit; case_decide; lia.
  - intros Hpos. destruct (map betweennessScore scores) as [|x l] eqn:E; [simpl in Hpos; lia|].
    assert (max_list (x :: l) ∈ x :: l) as Hin by by apply max_list_elem_of.
    rewrite <- E in Hin at 2. apply list_elem_of_fmap in Hin as (s & Heq & Hin). eauto.
  - intros Hpos s Hin Heq. destruct (Hs s Hin) as (_ & -> & _).
    rewrite Heq, decide_False by lia. apply numDiv_nat_self. lia.
  - intros Hz s Hin. destruct (Hs s Hin) as (_ & -> & Hle).
    rewrite Hz in Hle |- *. assert (betweennessScore s = 0) as -> by lia.
    rewrite decide_True by done. apply numDiv_nat_0. lia.
  - intros Hshort.
    assert (b = initialCounts verses) as Hb.
    { rewrite Htr. clear Htr. revert Hshort.
      generalize (sampledPaths mathRandom (sampleCount verses sampleSize) verses
                    (verseMapOf verses) (rngPos w)) as paths.
      generalize (initialCounts verses) as b0.
      intros b0 paths. revert b0. induction paths as [|p paths IH]; intros b0 Hshort; [done|].
      cbn [foldl]. rewrite accumulatePath_short by (apply Hshort; left).
      apply IH. intros q Hq. apply Hshort. by right. }
    apply Nat.le_0_r, max_list_le. intros x (s & -> & Hin)%list_elem_of_fmap.
    destruct (Hs s Hin) as (-> & _). rewrite Hb. unfold countOf.
    rewrite initialCounts_lookup.
    destruct (decide (id (bsVerse s) ∈ map id verses)); simpl; lia.
  - intros Hex.
    destruct (accumulator_positive mathRandom _ verses (rngPos w) Hex) as (v & Hv & Hpos).
    unfold accumulatorOf in Hpos. rewrite <- Htr in Hpos.
    assert ({| bsVerse := v;
               betweennessCentrality :=
                 numDiv (ofNat (countOf b (id v)))
                   (numOr (mathMax (snd <$> map_to_list b)) (ofNat 1));
               betweennessScore := countOf b (id v) |} ∈ scores) as Hin.
    { apply Hel, betweennessScores_elem. eauto. }
    destruct (Hs _ Hin) as (_ & _ & Hle). simpl in Hle. lia.
  - intros. by apply accumulatePath_short.
Qed.

Lemma unitDraws_alternating : unitDraws alternatingDraws.
Proof. intros k. unfold alternatingDraws. by destruct (Nat.even k). Qed.

(** Claim C4 at the chain A-B-C-D with draws that alternate between A
    and D. *)
Lemma betweenness_scores_normalised_witness :
  unitDraws alternatingDraws ∧ betweenness (statsCache emptyWorld) = None ∧
  ∃ scores w',
    calculateBetweennessCentrality alternatingDraws chainGraph 3 emptyWorld = (Ok scores, w') ∧
    map bsVerse scores ≡ₚ chainGraph ∧
    let top := max_list (map betweennessScore scores) in
    let paths := sampledPaths alternatingDraws (sampleCount chainGraph 3) chainGraph
                   (verseMapOf chainGraph) (rngPos emptyWorld) in
    (∀ s, s ∈ scores →
       betweennessScore s = accumulatorOf chainGraph paths (id (bsVerse s)) ∧
       inUnit (betweennessCentrality s) ∧
       betweennessCentrality s
       = numDiv (ofNat (betweennessScore s)) (ofNat (if decide (top = 0) then 1 else top))) ∧
    (0 < top → ∃ s, s ∈ scores ∧ betweennessScore s = top) ∧
    (0 < top → ∀ s, s ∈ scores → betweennessScore s = top →
       betweennessCentrality s = Fin 1) ∧
    (top = 0 → ∀ s, s ∈ scores → betweennessCentrality s = Fin 0) ∧
    ((∀ p, p ∈ paths → length p ≤ 2) → top = 0) ∧
    ((∃ p, p ∈ paths ∧ 2 < length p) → 0 < top) ∧
    (∀ path b, length path ≤ 2 → accumulatePath (Some path) b = b).
Proof.
  split; [exact unitDraws_alternating|]. split; [reflexivity|].
  apply (betweenness_scores_normalised alternatingDraws chainGraph 3 emptyWorld);
    [exact unitDraws_alternating|reflexivity].
Defined.

(** With every sample drawn as the pair (A, D), B and C score 1 and A and D
    score 0. *)
Example betweenness_on_the_chain :
  (λ r, match r with
        | Ok scores => map (λ s, (id (bsVerse s), betweennessCentrality s)) scores
        | _ => []
        end)
    (calculateBetweennessCentrality alternatingDraws chainGraph 3 emptyWorld).1
  = [("B", Fin 1); ("C", Fin 1); ("A", Fin 0); ("D", Fin 0)].
Proof. reflexivity. Qed.

Lemma calculateBetweennessCentrality_Ok mathRandom vs n w :
  unitDraws mathRandom →
  ∃ r, (calculateBetweennessCentrality mathRandom vs n w).1 = Ok r.
Proof.
  intros Hr. destruct (betweenness (statsCache w)) as [r|] eqn:E.
  - rewrite (calculateBetweennessCentrality_cached mathRandom vs n w r E). eauto.
  - destruct (sampleLoop_ok mathRandom vs (sampleCount vs n) (initialCounts vs) (rngPos w) Hr)
      as (b & Hrun & _).
    + unfold sampleCount, mathMin. lia.
    + intros k. rewrite initialCounts_lookup. case_decide; [done|]. by intros [? ?].
    + rewrite (calculateBetweennessCentrality_fresh _ _ _ _ _ _ E Hrun). eauto.
Qed.

(* ===================================================================== *)
(** ** Community detection *)
(* ===================================================================== *)

(** A verse that has a label keeps having one. *)
Lemma mostCommon_Some (counts : list (string * nat)) (c : string) :
  is_Some (mostCommon counts (Some c)).
Proof.
  unfold mostCommon.
  generalize 0 as n. revert c.
  induction counts as [|[l k] counts IH]; intros c n; [by eexists|].
  cbn [foldl]. destruct (decide (n < k)); apply IH.
Qed.

Lemma visitVerse_keeps (st : gmap string string * nat) (v : Verse) (k : string) :
  is_Some (st.1 !! k) → is_Some ((visitVerse st v).1 !! k).
Proof.
  destruct st as [lab ch]. unfold visitVerse. simpl.
  intros Hk. destruct (decide (refCount v = 0)); [done|].
  destruct (decide (lab !! id v = _)) as [|Hne]; [done|]. simpl.
  destruct (mostCommon _ _) as [l|] eqn:E; simpl.
  - apply lookup_insert_is_Some. destruct (decide (id v = k)); auto.
  - destruct (lab !! id v) as [c|] eqn:Ec; [|done].
    destruct (mostCommon_Some (tallyLabels lab (refs v)) c) as [? ?]. congruence.
Qed.

Lemma visitAll_keeps (l : list Verse) (st : gmap string string * nat) (k : string) :
  is_Some (st.1 !! k) → is_Some ((foldl visitVerse st l).1 !! k).
Proof.
  revert st. induction l as [|v l IH]; intros st Hk; [done|].
  simpl. by apply IH, visitVerse_keeps.
Qed.

Lemma propagate_keeps (shuffleSort : nat → list Verse → list Verse * nat)
    (iters : nat) (verses : list Verse) (lab : gmap string string) (pos : nat) (k : string) :
  is_Some (lab !! k) → is_Some ((propagate shuffleSort iters verses lab pos).1 !! k).
Proof.
  revert lab pos. induction iters as [|n IH]; intros lab pos Hk; [done|].
  cbn [propagate]. destruct (shuffleSort pos verses) as [shuffled pos'].
  pose proof (visitAll_keeps shuffled (lab, 0) k Hk) as H.
  destruct (foldl visitVerse (lab, 0) shuffled) as [lab' changed].
  destruct (decide (changed = 0)); [done|]. by apply IH.
Qed.

(** [groupByLabel] collects under each label the verses that carry it, in
    input order. *)
Lemma groupOf_push (k key : option string) (v : Verse) (G : list (option string * list Verse)) :
  groupOf k (groupPush key v G)
  = if decide (k = key) then groupOf k G ++ [v] else groupOf k G.
Proof.
  unfold groupOf. induction G as [|[l ms] G IH]; cbn [groupPush List.find].
  { cbn [fst snd]. destruct (decide (k = key)) as [->|Hne].
    - by rewrite bool_decide_eq_true_2.
    - rewrite bool_decide_eq_false_2; [done|congruence]. }
  destruct (decide (l = key)) as [->|Hl]; cbn [List.find fst snd].
  - destruct (decide (k = key)) as [->|Hne].
    + by rewrite !bool_decide_eq_true_2.
    + rewrite !bool_decide_eq_false_2 by congruence. done.
  - destruct (decide (l = k)) as [->|Hlk].
    + rewrite bool_decide_eq_true_2 by done. by rewrite decide_False.
    + rewrite bool_decide_eq_false_2 by done. apply IH.
Qed.

Lemma groupPush_keys (key : option string) (v : Verse) (G : list (option string * list Verse)) :
  (groupPush key v G).*1 = if decide (key ∈ G.*1) then G.*1 else G.*1 ++ [key].
Proof.
  induction G as [|[l ms] G IH]; [done|].
  cbn [groupPush]. destruct (decide (l = key)) as [->|Hl].
  - rewrite decide_True; [done|]. rewrite fmap_cons. left.
  - rewrite !fmap_cons, IH. cbn [fst]. destruct (decide (key ∈ G.*1)) as [Hin|Hnin].
    + rewrite decide_True; [done|]. by right.
    + rewrite decide_False; [done|]. intros [->|?]%elem_of_cons; done.
Qed.

Lemma groupOf_entry (k : option string) (ms : list Verse) (G : list (option string * list Verse)) :
  NoDup G.*1 → (k, ms) ∈ G → groupOf k G = ms.
Proof.
  unfold groupOf. induction G as [|[l ms'] G IH]; intros Hnd Hin; [by apply elem_of_nil in Hin|].
  simpl in *. apply NoDup_cons in Hnd as [Hl Hnd].
  apply elem_of_cons in Hin as [[= -> ->]|Hin].
  - by rewrite bool_decide_eq_true_2.
  - rewrite bool_decide_eq_false_2; [by apply IH|].
    intros ->. apply Hl. apply list_elem_of_fmap. by exists (k, ms).
Qed.

Lemma groupByLabel_spec (lab : gmap string string) (verses : list Verse) :
  let G := groupByLabel lab verses in
  NoDup G.*1 ∧
  (∀ k, groupOf k G = filter (λ v, lab !! id v = k) verses) ∧
  (∀ k, k ∈ G.*1 ↔ ∃ v, v ∈ verses ∧ lab !! id v = k).
Proof.
  unfold groupByLabel. induction verses as [|v verses IH] using rev_ind.
  { simpl. split; [constructor|]. split; [done|]. intros k. rewrite elem_of_nil.
    split; [done|]. intros (v & Hv & _). by apply elem_of_nil in Hv. }
  rewrite foldl_snoc. destruct IH as (Hnd & Hg & Hk).
  set (G := foldl _ [] verses) in *. split; [|split].
  - rewrite groupPush_keys. destruct (decide _); [done|].
    apply NoDup_app. split; [done|]. split; [|apply NoDup_singleton].
    intros x Hx ->%list_elem_of_singleton. done.
  - intros k. rewrite groupOf_push, filter_app, Hg.
    rewrite filter_cons, filter_nil.
    destruct (decide (k = lab !! id v)) as [->|Hne].
    + by rewrite decide_True.
    + rewrite decide_False by done. by rewrite app_nil_r.
  - intros k. rewrite groupPush_keys.
    transitivity (k ∈ G.*1 ∨ k = lab !! id v).
    + destruct (decide _) as [Hin|Hnin].
      * split; [auto|]. by intros [?| ->].
      * rewrite elem_of_app, list_elem_of_singleton. done.
    + rewrite Hk. setoid_rewrite elem_of_app. setoid_rewrite list_elem_of_singleton.
      naive_solver.
Qed.

Lemma groupByLabel_entries (lab : gmap string string) (verses : list Verse)
    (k : option string) (ms : list Verse) :
  (k, ms) ∈ groupByLabel lab verses
  ↔ ms = filter (λ v, lab !! id v = k) verses ∧ ms ≠ [].
Proof.
  destruct (groupByLabel_spec lab verses) as (Hnd & Hg & Hk). split.
  - intros Hin. pose proof (groupOf_entry k ms _ Hnd Hin) as Heq.
    rewrite Hg in Heq. split; [done|].
    assert (k ∈ (groupByLabel lab verses).*1) as (v & Hv & Hl)%Hk.
    { apply list_elem_of_fmap. by exists (k, ms). }
    intros ->. assert (v ∈ filter (λ v, lab !! id v = k) verses) as H
      by by apply list_elem_of_filter.
    rewrite Heq in H. by apply elem_of_nil in H.
  - intros [-> Hne].
    assert (k ∈ (groupByLabel lab verses).*1) as ([k' ms'] & Hk' & Hin)%list_elem_of_fmap.
    { apply Hk. destruct (filter _ verses) as [|v l] eqn:E; [done|].
      assert (v ∈ filter (λ v, lab !! id v = k) verses) as H by (rewrite E; left).
      apply list_elem_of_filter in H as [? ?]. eauto. }
    simpl in Hk'. subst k'.
    pose proof (groupOf_entry k ms' _ Hnd Hin) as Heq. rewrite Hg in Heq. by rewrite Heq.
Qed.

Lemma elem_of_significantCommunities (lab : gmap string string) (verses : list Verse)
    (g : option string * list Verse) :
  g ∈ significantCommunities lab verses
  ↔ g.2 = filter (λ v, lab !! id v = g.1) verses ∧ 3 ≤ length g.2.
Proof.
  unfold significantCommunities. rewrite elem_of_arraySort, list_elem_of_filter.
  destruct g as [k ms]. rewrite groupByLabel_entries. simpl.
  split; [naive_solver|]. intros [-> H]. split; [done|]. split; [done|].
  intros E. rewrite E in H. simpl in H. lia.
Qed.

(** Claim C6.  A call of [detectCommunities] that computes (empty slot)
    returns, for any visiting orders: a label for every verse; as
    communities exactly the groups "all verses with label [l], in input
    order" that have at least 3 members, each under its label, no label
    twice; the communities in order of descending size; communities that
    share no verse id with one another and hold only verses of the input;
    and [communityCount] equal to the number of communities. *)
Theorem communities_are_label_groups (shuffleSort : nat → list Verse → list Verse * nat)
    (verses : list Verse) (iterations : Z) (w : World) :
  communities (statsCache w) = None →
  ∃ r w',
    detectCommunities shuffleSort verses iterations w = (Ok r, w') ∧
    (∀ v, v ∈ verses → ∃ l, labels r !! id v = Some l) ∧
    (∀ g, g ∈ communityGroups r ↔
          ∃ l, g = (Some l, filter (λ v, labels r !! id v = Some l) verses) ∧
               3 ≤ length g.2) ∧
    NoDup (communityGroups r).*1 ∧
    StronglySorted (λ a b, length b.2 ≤ length a.2) (communityGroups r) ∧
    (∀ g1 g2 u v, g1 ∈ communityGroups r → g2 ∈ communityGroups r →
       u ∈ g1.2 → v ∈ g2.2 → id u = id v → g1 = g2) ∧
    (∀ g v, g ∈ communityGroups r → v ∈ g.2 → v ∈ verses) ∧
    communityCount r = length (communityGroups r).
Proof.
  intros Hc. rewrite detectCommunities_fresh by done. cbv zeta.
  set (lab := (propagate _ _ _ _ _).1). eexists _, _. split; [done|]. cbn.
  assert (∀ v, v ∈ verses → ∃ l, lab !! id v = Some l) as Hlab.
  { intros v Hv. apply propagate_keeps. rewrite initialLabels_lookup; eauto. }
  assert (∀ g, g ∈ significantCommunities lab verses ↔
            ∃ l, g = (Some l, filter (λ v, lab !! id v = Some l) verses) ∧
                 3 ≤ length g.2) as Hg.
  { intros [k ms]. rewrite elem_of_significantCommunities. simpl. split.
    - intros [-> Hlen]. destruct (filter _ verses) as [|v l'] eqn:E; [simpl in Hlen; lia|].
      assert (v ∈ filter (λ v, lab !! id v = k) verses) as Hv by (rewrite E; left).
      apply list_elem_of_filter in Hv as [Hk Hv]. destruct (Hlab v Hv) as [l Hl].
      assert (k = Some l) as -> by congruence.
      exists l. by rewrite E.
    - intros (l & [= -> ->] & Hlen). done. }
  split; [done|]. split; [done|]. split; [|split; [|split; [|split]]].
  - unfold significantCommunities. rewrite arraySort_perm.
    destruct (groupByLabel_spec lab verses) as (Hnd & _).
    apply (sublist_NoDup _ (groupByLabel lab verses).*1); [done|].
    apply fmap_sublist, sublist_filter.
  - apply (arraySort_sorted bySize (λ g, length g.2)).
    intros x y. apply isPositive_byCount.
  - intros g1 g2 u v (l1 & -> & _)%Hg (l2 & -> & _)%Hg. simpl.
    intros [Hu _]%list_elem_of_filter [Hv _]%list_elem_of_filter Hid.
    rewrite Hid in Hu. by simplify_eq.
  - intros g v (l & -> & _)%Hg. simpl. by intros [_ ?]%list_elem_of_filter.
  - done.
Qed.

(** Claim C6 at the complete graph on four verses. *)
Lemma communities_are_label_groups_witness :
  communities (statsCache emptyWorld) = None ∧
  ∃ r w',
    detectCommunities driftingShuffle completeGraph4 5 emptyWorld = (Ok r, w') ∧
    (∀ v, v ∈ completeGraph4 → ∃ l, labels r !! id v = Some l) ∧
    (∀ g, g ∈ communityGroups r ↔
          ∃ l, g = (Some l, filter (λ v, labels r !! id v = Some l) completeGraph4) ∧
               3 ≤ length g.2) ∧
    NoDup (communityGroups r).*1 ∧
    StronglySorted (λ a b, length b.2 ≤ length a.2) (communityGroups r) ∧
    (∀ g1 g2 u v, g1 ∈ communityGroups r → g2 ∈ communityGroups r →
       u ∈ g1.2 → v ∈ g2.2 → id u = id v → g1 = g2) ∧
    (∀ g v, g ∈ communityGroups r → v ∈ g.2 → v ∈ completeGraph4) ∧
    communityCount r = length (communityGroups r).
Proof.
  split; [reflexivity|].
  apply (communities_are_label_groups driftingShuffle completeGraph4 5 emptyWorld).
  reflexivity.
Defined.

(* ===================================================================== *)
(** ** Sample sizes and iteration counts that are not positive *)
(* ===================================================================== *)

(** Without a sampled path every record is [zeroBetweenness], and sorting
    leaves the records in input order. *)
Lemma betweennessScores_initial (verses : list Verse) :
  betweennessScores verses (initialCounts verses) = map zeroBetweenness verses.
Proof.
  destruct (decide (verses = [])) as [->|Hne]; [done|].
  assert (∀ k, countOf (initialCounts verses) k = 0) as Hz.
  { intros k. unfold countOf. rewrite initialCounts_lookup. by destruct (decide _). }
  assert (initialCounts verses ≠ ∅) as Hb.
  { destruct verses as [|v l]; [done|]. intros E.
    pose proof (initialCounts_lookup (v :: l) (id v)) as H. rewrite E, lookup_empty in H.
    rewrite decide_True in H; [done|]. left. }
  unfold betweennessScores. rewrite maxBetweenness_nonempty by done.
  assert (normaliser (initialCounts verses) = 1) as ->.
  { unfold normaliser. rewrite decide_True; [done|].
    apply Nat.le_0_r, max_list_le. intros x ([k c] & -> & Hin)%list_elem_of_fmap.
    apply elem_of_map_to_list in Hin. pose proof (Hz k) as H. unfold countOf in H.
    rewrite Hin in H. simpl in *. lia. }
  apply map_ext. intros v. rewrite Hz. unfold zeroBetweenness. f_equal.
Qed.

Lemma arraySort_zeroBetweenness (verses : list Verse) :
  arraySort byBetweenness (map zeroBetweenness verses) = map zeroBetweenness verses.
Proof.
  apply arraySort_id. intros x y (u & -> & _)%list_elem_of_fmap (v & -> & _)%list_elem_of_fmap.
  reflexivity.
Qed.

(** Claim C7 as stated (a zero or negative sample size or iteration count
    is rejected with an error) fails: on the chain A-B-C-D the calls with
    0 and with -1 return normally. *)
Lemma nonpositive_parameters_are_not_rejected :
  fst (calculateBetweennessCentrality zeroDraws chainGraph 0 emptyWorld)
  = Ok (map zeroBetweenness chainGraph)
  ∧ fst (calculateBetweennessCentrality zeroDraws chainGraph (-1) emptyWorld)
  = Ok (map zeroBetweenness chainGraph)
  ∧ fst (detectCommunities identityShuffle chainGraph 0 emptyWorld)
  = Ok {| communityGroups := []; communityCount := 0;
          labels := initialLabels chainGraph |}
  ∧ fst (detectCommunities identityShuffle chainGraph (-1) emptyWorld)
  = Ok {| communityGroups := []; communityCount := 0;
          labels := initialLabels chainGraph |}.
Proof. repeat split; reflexivity. Qed.

(** Claim C7, amended to what the code does.  With a sample size of at most
    0 the sampling loop runs no round and every verse is returned, in
    input order, with betweenness 0; with an iteration count of at most 0
    the propagation loop runs no round and the communities are those of
    the initial labelling, every verse labelled with its own id; neither
    call reads the random stream.  A sample size of at least the number of
    verses behaves like the number of verses. *)
Theorem nonpositive_parameters_run_no_round
    (mathRandom : nat → Q) (shuffleSort : nat → list Verse → list Verse * nat)
    (verses : list Verse) (sampleSize iterations : Z) (w : World) :
  (sampleSize ≤ 0)%Z → (iterations ≤ 0)%Z →
  betweenness (statsCache w) = None → communities (statsCache w) = None →
  calculateBetweennessCentrality mathRandom verses sampleSize w
  = (Ok (map zeroBetweenness verses),
     withCache w (setBetweenness (map zeroBetweenness verses) (statsCache w)))
  ∧ (∃ r, detectCommunities shuffleSort verses iterations w
          = (Ok r, withCache w (setCommunities r (statsCache w)))
          ∧ labels r = initialLabels verses
          ∧ communityGroups r = significantCommunities (initialLabels verses) verses
          ∧ communityCount r = length (communityGroups r))
  ∧ (∀ n, (Z.of_nat (length verses) ≤ n)%Z →
       calculateBetweennessCentrality mathRandom verses n w
       = calculateBetweennessCentrality mathRandom verses (Z.of_nat (length verses)) w).
Proof.
  intros Hs Hi Hb Hc. split; [|split].
  - rewrite (calculateBetweennessCentrality_fresh mathRandom verses sampleSize w
               (initialCounts verses) (rngPos w) Hb).
    + rewrite betweennessScores_initial, arraySort_zeroBetweenness.
      reflexivity.
    + unfold sampleCount, mathMin. by replace (Z.to_nat _) with 0 by lia.
  - rewrite detectCommunities_fresh by done. cbv zeta.
    replace (Z.to_nat iterations) with 0 by lia. cbn [propagate fst snd].
    eexists. split; [reflexivity|done].
  - intros n Hn.
    unfold calculateBetweennessCentrality, mathMin.
    by rewrite Z.min_r, Z.min_id.
Qed.

(** Claim C7 (amended) at the chain A-B-C-D with sample size 0 and
    iteration count -3. *)
Lemma nonpositive_parameters_run_no_round_witness :
  (0 ≤ 0)%Z ∧ (-3 ≤ 0)%Z ∧
  betweenness (statsCache emptyWorld) = None ∧ communities (statsCache emptyWorld) = None ∧
  (calculateBetweennessCentrality zeroDraws chainGraph 0 emptyWorld
   = (Ok (map zeroBetweenness chainGraph),
      withCache emptyWorld
        (setBetweenness (map zeroBetweenness chainGraph) (statsCache emptyWorld)))
   ∧ (∃ r, detectCommunities identityShuffle chainGraph (-3) emptyWorld
           = (Ok r, withCache emptyWorld (setCommunities r (statsCache emptyWorld)))
           ∧ labels r = initialLabels chainGraph
           ∧ communityGroups r = significantCommunities (initialLabels chainGraph) chainGraph
           ∧ communityCount r = length (communityGroups r))
   ∧ (∀ n, (Z.of_nat (length chainGraph) ≤ n)%Z →
        calculateBetweennessCentrality zeroDraws chainGraph n emptyWorld
        = calculateBetweennessCentrality zeroDraws chainGraph
            (Z.of_nat (length chainGraph)) emptyWorld)).
Proof.
  split; [lia|]. split; [lia|]. split; [reflexivity|]. split; [reflexivity|].
  apply (nonpositive_parameters_run_no_round zeroDraws identityShuffle chainGraph 0 (-3)
           emptyWorld); [lia|lia|reflexivity|reflexivity].
Defined.

(* ===================================================================== *)
(** ** Dangling references *)
(* ===================================================================== *)

Lemma verseMapOf_pruned (verses : list Verse) :
  verseMapOf (pruned verses) = pruneRefs (verseMapOf verses) <$> verseMapOf verses.
Proof. by apply verseMapOf_fmap. Qed.

(** The search and the clustering computation on the index with the
    dangling references removed follow those on the index itself. *)
Section Pruning.

Variable verseMap : gmap string Verse.
Hypothesis Hkeyed : keyedById verseMap.

Let prune := pruneRefs verseMap.
Let verseMap' : gmap string Verse := prune <$> verseMap.

Lemma expandRefs_prune path rs queue visited visited' :
  agreeOn verseMap visited visited' →
  (expandRefs verseMap' (map prune path) (filter (λ r, is_Some (verseMap !! r)) rs)
     (map (map prune) queue) visited').1
  = map (map prune) (expandRefs verseMap path rs queue visited).1
  ∧ agreeOn verseMap (expandRefs verseMap path rs queue visited).2
      (expandRefs verseMap' (map prune path) (filter (λ r, is_Some (verseMap !! r)) rs)
         (map (map prune) queue) visited').2.
Proof.
  revert queue visited visited'. induction rs as [|r rs IH]; intros queue visited visited' Ha.
  { done. }
  rewrite filter_cons. cbn [expandRefs].
  destruct (verseMap !! r) as [w|] eqn:E.
  - rewrite decide_True by done. cbn [expandRefs].
    destruct (decide (r ∈ visited)) as [Hin|Hnin].
    + rewrite decide_True by (apply Ha; [by rewrite E|done]). by apply IH.
    + rewrite decide_False by (intros ?; apply Hnin, Ha; [by rewrite E|done]).
      unfold verseMap'. rewrite lookup_fmap, E. cbn [fmap option_fmap option_map].
      replace (map (map prune) queue ++ [map prune path ++ [prune w]])
        with (map (map prune) (queue ++ [path ++ [w]])).
      2:{ rewrite map_app. cbn [map]. by rewrite map_app. }
      apply IH. intros x Hx. rewrite !elem_of_union. by rewrite (Ha x Hx).
  - rewrite decide_False by (by intros [? ?]).
    destruct (decide (r ∈ visited)) as [Hin|Hnin]; [by apply IH|].
    apply IH. intros x Hx. rewrite elem_of_union, elem_of_singleton.
    rewrite <- (Ha x Hx). split; [|tauto]. intros [?| ->]; [done|].
    rewrite E in Hx. by destruct Hx.
Qed.

Lemma bfsLoop_prune fuel endVerse queue visited visited' :
  agreeOn verseMap visited visited' →
  bfsLoop fuel endVerse verseMap' (map (map prune) queue) visited'
  = resMap (fmap (map prune)) (bfsLoop fuel endVerse verseMap queue visited).
Proof.
  revert queue visited visited'. induction fuel as [|fuel IH]; intros queue visited visited' Ha;
    [done|].
  cbn [bfsLoop]. destruct queue as [|path queue]; [done|]. cbn [map].
  rewrite length_map. destruct (decide (maxDepth < length path)); [by apply IH|].
  rewrite fmap_last. destruct (last path) as [current|]; [|done]. cbn [fmap option_fmap option_map].
  change (id (prune current)) with (id current).
  destruct (decide (id current = id endVerse)); [done|].
  change (refs (prune current)) with (filter (λ r, is_Some (verseMap !! r)) (refs current)).
  destruct (expandRefs_prune path (refs current) queue visited visited' Ha) as [Hq Hv].
  destruct (expandRefs verseMap path (refs current) queue visited) as [q1 v1].
  destruct (expandRefs verseMap' _ _ _ _) as [q2 v2]. simpl in Hq, Hv. subst q2.
  by apply IH.
Qed.

Lemma findShortestPath_prune (start endVerse : Verse) :
  findShortestPath (prune start) endVerse verseMap'
  = resMap (fmap (map prune)) (findShortestPath start endVerse verseMap).
Proof.
  unfold findShortestPath, verseMap'. rewrite map_size_fmap.
  apply (bfsLoop_prune _ _ [[start]]). by intros r _.
Qed.

Lemma resolveNeighbors_prune (v : Verse) :
  resolveNeighbors verseMap' (prune v) = map prune (resolveNeighbors verseMap v).
Proof.
  unfold resolveNeighbors. cbn [refs prune pruneRefs].
  induction (refs v) as [|r rs IH]; [done|].
  rewrite filter_cons. cbn [omap list_omap].
  destruct (verseMap !! r) as [w|] eqn:E.
  - rewrite decide_True by done. cbn [omap list_omap].
    unfold verseMap' at 1. rewrite lookup_fmap, E. cbn. f_equal. apply IH.
  - rewrite decide_False by (by intros [? ?]). apply IH.
Qed.

Lemma resolveNeighbors_indexed (v u : Verse) :
  u ∈ resolveNeighbors verseMap v → verseMap !! id u = Some u.
Proof.
  unfold resolveNeighbors. intros (r & _ & Hr)%list_elem_of_omap.
  by rewrite (Hkeyed r u Hr).
Qed.

Lemma linked_prune (ns : list Verse) (i j : nat) :
  (∀ u, u ∈ ns → verseMap !! id u = Some u) →
  linked (map prune ns) i j = linked ns i j.
Proof.
  intros Hns. unfold linked. rewrite !list_lookup_fmap.
  destruct (ns !! i) as [ni|] eqn:Ei; [|done].
  destruct (ns !! j) as [nj|] eqn:Ej; [|done]. cbn.
  apply bool_decide_ext. rewrite list_elem_of_filter.
  split; [tauto|]. intros H. split; [|done].
  rewrite (Hns nj); [done|]. by eapply list_elem_of_lookup_2.
Qed.

Lemma linkedPairs_prune (ns : list Verse) :
  (∀ u, u ∈ ns → verseMap !! id u = Some u) →
  linkedPairs (map prune ns) = linkedPairs ns.
Proof.
  intros Hns. unfold linkedPairs. rewrite length_map. f_equal.
  induction (indexPairs (length ns)) as [|[i j] l IH]; [done|].
  rewrite !filter_cons, IH.
  change (pairLinked (map prune ns) (i, j)) with (linked (map prune ns) i j).
  change (pairLinked ns (i, j)) with (linked ns i j).
  by rewrite linked_prune.
Qed.

Lemma clusteringScore_prune (v : Verse) :
  clusteringCoefficient (clusteringScore verseMap' (prune v))
  = clusteringCoefficient (clusteringScore verseMap v)
  ∧ neighborConnections (clusteringScore verseMap' (prune v))
  = neighborConnections (clusteringScore verseMap v)
  ∧ possibleConnections (clusteringScore verseMap' (prune v))
  = possibleConnections (clusteringScore verseMap v).
Proof.
  unfold clusteringScore. change (refCount (prune v)) with (refCount v).
  destruct (decide (refCount v < 2)); [done|].
  rewrite resolveNeighbors_prune, length_map.
  destruct (decide (length (resolveNeighbors verseMap v) < 2)); [done|].
  cbn [clusteringCoefficient neighborConnections possibleConnections].
  rewrite !countConnections_linkedPairs, linkedPairs_prune; [done|].
  intros u. apply resolveNeighbors_indexed.
Qed.

End Pruning.

(** The tally of a verse's references does not see the references the
    index does not resolve. *)
Lemma tallyLabels_skips (verseMap : gmap string Verse) (lab : gmap string string)
    (rs : list string) :
  (∀ k, is_Some (lab !! k) → is_Some (verseMap !! k)) →
  tallyLabels lab (filter (λ r, is_Some (verseMap !! r)) rs) = tallyLabels lab rs.
Proof.
  intros Hdom. unfold tallyLabels. generalize (@nil (string * nat)) as counts.
  induction rs as [|r rs IH]; intros counts; [done|].
  rewrite filter_cons. destruct (decide (is_Some (verseMap !! r))) as [Hr|Hr].
  - cbn [foldl]. apply IH.
  - cbn [foldl]. rewrite IH.
    destruct (lab !! r) as [l|] eqn:E; [|done].
    exfalso. apply Hr, Hdom. by rewrite E.
Qed.

Lemma visitVerse_skips (verseMap : gmap string Verse) (st : gmap string string * nat)
    (v : Verse) :
  (∀ k, is_Some (st.1 !! k) → is_Some (verseMap !! k)) →
  visitVerse st (pruneRefs verseMap v) = visitVerse st v.
Proof.
  intros Hdom. destruct st as [lab changed]. unfold visitVerse.
  cbn [refCount id refs pruneRefs]. by rewrite tallyLabels_skips.
Qed.

(** Claim C8.  For every graph, whatever ids its references name: the
    path search returns a result, the same one (up to the removed
    references) as on the graph with the dangling references removed; the
    clustering computation returns, with the same coefficients as on that
    graph; community detection returns, and a visit of a verse gives the
    same labels and change count as a visit of the verse without its
    dangling references, as long as only ids of the index are labelled;
    with [Math.random] in [0,1) the betweenness computation returns.  On
    the chain in which B and C also reference unknown ids the search from A
    to D returns the chain. *)
Theorem dangling_references_are_skipped
    (mathRandom : nat → Q) (shuffleSort : nat → list Verse → list Verse * nat)
    (verses : list Verse) :
  let verseMap := verseMapOf verses in
  let prune := pruneRefs verseMap in
  (∀ start endVerse,
     ∃ r, findShortestPath start endVerse verseMap = Ok r ∧
          findShortestPath (prune start) endVerse (verseMapOf (pruned verses))
          = Ok (map prune <$> r)) ∧
  (∀ w, ∃ scores, (calculateClusteringCoefficient verses w).1 = Ok scores) ∧
  map clusteringCoefficient (clusteringScores (pruned verses))
  = map clusteringCoefficient (clusteringScores verses) ∧
  (∀ w iterations, ∃ r, (detectCommunities shuffleSort verses iterations w).1 = Ok r) ∧
  (∀ lab changed v,
     (∀ k, is_Some (lab !! k) → is_Some (verseMap !! k)) →
     visitVerse (lab, changed) (prune v) = visitVerse (lab, changed) v) ∧
  (unitDraws mathRandom →
   ∀ w sampleSize,
     ∃ r, (calculateBetweennessCentrality mathRandom verses sampleSize w).1 = Ok r) ∧
  (verses = danglingChain →
   findShortestPath (plainVerse "A" ["B"]) (plainVerse "D" ["C"]) verseMap
   = Ok (Some danglingChain)).
Proof.
  intros verseMap prune. subst verseMap prune.
  split; [|split; [|split; [|split; [|split; [|split]]]]].
  - intros start endVerse.
    destruct (findShortestPath_terminates start endVerse (verseMapOf verses)) as [r Hr].
    exists r. split; [done|].
    rewrite verseMapOf_pruned, findShortestPath_prune. by rewrite Hr.
  - intros w. apply calculateClusteringCoefficient_Ok.
  - unfold clusteringScores. rewrite verseMapOf_pruned. unfold pruned. rewrite !map_map.
    apply map_ext. intros v.
    apply (clusteringScore_prune (verseMapOf verses) (verseMapOf_keyed verses) v).
  - intros w n. apply detectCommunities_Ok.
  - intros lab changed v Hdom. by apply visitVerse_skips.
  - intros Hr w n. by apply calculateBetweennessCentrality_Ok.
  - intros ->. reflexivity.
Qed.

(* ===================================================================== *)
(** ** The result cache *)
(* ===================================================================== *)

(** Every call other than [clearCache] only fills empty slots. *)
Lemma cacheGrows_refl (c : StatsCache) : cacheGrows c c.
Proof. by repeat split. Qed.

Lemma cacheGrows_trans (c1 c2 c3 : StatsCache) :
  cacheGrows c1 c2 → cacheGrows c2 c3 → cacheGrows c1 c3.
Proof. unfold cacheGrows. naive_solver. Qed.

Lemma grows_ret {A} (a : A) : grows (mret a).
Proof. intros w. apply cacheGrows_refl. Qed.

Lemma grows_bind {A B} (m : M A) (k : A → M B) :
  grows m → (∀ a, grows (k a)) → grows (m ≫= k).
Proof.
  intros Hm Hk w. unfold mbind, M_bind. specialize (Hm w).
  destruct (m w) as [[a|e|] w1]; simpl in *; [|done|done].
  eapply cacheGrows_trans; [exact Hm|apply Hk].
Qed.

Lemma grows_getCache : grows getCache.
Proof. intros w. apply cacheGrows_refl. Qed.

Lemma grows_liftRes {A} (r : Res A) : grows (liftRes r).
Proof. intros w. apply cacheGrows_refl. Qed.

Lemma grows_calculateDegreeCentrality vs : grows (calculateDegreeCentrality vs).
Proof.
  intros w. destruct (centrality (statsCache w)) as [r|] eqn:E.
  - rewrite (calculateDegreeCentrality_cached vs w r E). apply cacheGrows_refl.
  - rewrite (calculateDegreeCentrality_fresh vs w E). simpl.
    unfold cacheGrows. simpl. rewrite E. naive_solver.
Qed.

Lemma grows_calculateClusteringCoefficient vs : grows (calculateClusteringCoefficient vs).
Proof.
  intros w. destruct (clustering (statsCache w)) as [r|] eqn:E.
  - rewrite (calculateClusteringCoefficient_cached vs w r E). apply cacheGrows_refl.
  - rewrite (calculateClusteringCoefficient_fresh vs w E). simpl.
    unfold cacheGrows. simpl. rewrite E. naive_solver.
Qed.

Lemma grows_detectCommunities shuffleSort vs n : grows (detectCommunities shuffleSort vs n).
Proof.
  intros w. destruct (communities (statsCache w)) as [r|] eqn:E.
  - rewrite (detectCommunities_cached shuffleSort vs n w r E). apply cacheGrows_refl.
  - rewrite (detectCommunities_fresh shuffleSort vs n w E). simpl.
    unfold cacheGrows. simpl. rewrite E. naive_solver.
Qed.

Lemma grows_calculateBetweennessCentrality mathRandom vs n :
  grows (calculateBetweennessCentrality mathRandom vs n).
Proof.
  intros w. destruct (betweenness (statsCache w)) as [r|] eqn:E.
  - rewrite (calculateBetweennessCentrality_cached mathRandom vs n w r E).
    apply cacheGrows_refl.
  - unfold calculateBetweennessCentrality, mbind, M_bind, getCache, sampleM. rewrite E.
    destruct (sampleLoop _ _ _ _ _ _) as [[b|e|] k]; simpl; try apply cacheGrows_refl.
    unfold cacheGrows. simpl. rewrite E. naive_solver.
Qed.

(** The two calls [identifyHubs] makes leave the [hubs] slot alone. *)
Lemma hubs_after_degree vs w :
  hubs (statsCache (calculateDegreeCentrality vs w).2) = hubs (statsCache w).
Proof.
  destruct (centrality (statsCache w)) as [r|] eqn:E.
  - by rewrite (calculateDegreeCentrality_cached vs w r E).
  - by rewrite (calculateDegreeCentrality_fresh vs w E).
Qed.

Lemma hubs_after_clustering vs w :
  hubs (statsCache (calculateClusteringCoefficient vs w).2) = hubs (statsCache w).
Proof.
  destruct (clustering (statsCache w)) as [r|] eqn:E.
  - by rewrite (calculateClusteringCoefficient_cached vs w r E).
  - by rewrite (calculateClusteringCoefficient_fresh vs w E).
Qed.

(** What a run of [identifyHubs] on an empty slot does. *)
Lemma identifyHubs_fresh (vs : list Verse) (n : Z) (w : World) :
  hubs (statsCache w) = None →
  ∃ cen clu w2,
    calculateDegreeCentrality vs w = (Ok cen, (calculateDegreeCentrality vs w).2) ∧
    calculateClusteringCoefficient vs (calculateDegreeCentrality vs w).2 = (Ok clu, w2) ∧
    hubs (statsCache w2) = None ∧
    cacheGrows (statsCache w) (statsCache w2) ∧
    identifyHubs vs n w
    = match mapRes (hubScoreOf cen clu) vs with
      | Ok hubScores =>
          (Ok (markHubs n (arraySort byHubScore hubScores)),
           withCache w2 (setHubs (markHubs n (arraySort byHubScore hubScores))
                           (statsCache w2)))
      | Throw e => (Throw e, w2)
      | OutOfFuel => (OutOfFuel, w2)
      end.
Proof.
  intros Hh.
  destruct (calculateDegreeCentrality_Ok vs w) as [cen Hcen].
  destruct (calculateClusteringCoefficient_Ok vs (calculateDegreeCentrality vs w).2)
    as [clu Hclu].
  exists cen, clu, (calculateClusteringCoefficient vs (calculateDegreeCentrality vs w).2).2.
  pose proof (hubs_after_degree vs w) as H1.
  pose proof (hubs_after_clustering vs (calculateDegreeCentrality vs w).2) as H2.
  pose proof (grows_calculateDegreeCentrality vs w) as G1.
  pose proof (grows_calculateClusteringCoefficient vs (calculateDegreeCentrality vs w).2) as G2.
  unfold identifyHubs, mbind, M_bind, getCache. rewrite Hh.
  destruct (calculateDegreeCentrality vs w) as [r1 w1]. simpl in *. subst r1.
  destruct (calculateClusteringCoefficient vs w1) as [r2 w2]. simpl in *. subst r2.
  split; [done|]. split; [done|]. split; [congruence|].
  split; [by eapply cacheGrows_trans|].
  unfold liftRes. by destruct (mapRes _ vs).
Qed.

Lemma grows_identifyHubs vs n : grows (identifyHubs vs n).
Proof.
  intros w. destruct (hubs (statsCache w)) as [r|] eqn:E.
  - rewrite (identifyHubs_cached vs n w r E). apply cacheGrows_refl.
  - destruct (identifyHubs_fresh vs n w E) as (cen & clu & w2 & _ & _ & Hh & Hg & ->).
    destruct (mapRes _ vs); simpl; [|done|done].
    eapply cacheGrows_trans; [exact Hg|].
    unfold cacheGrows. simpl. rewrite Hh. naive_solver.
Qed.

Lemma grows_getNetworkStatistics vs : grows (getNetworkStatistics vs).
Proof.
  unfold getNetworkStatistics. apply grows_bind; [apply grows_calculateDegreeCentrality|].
  intros cen. apply grows_ret.
Qed.

Lemma grows_stampLastComputed : grows stampLastComputed.
Proof. intros w. by repeat split. Qed.

Lemma grows_computeAllStats mathRandom shuffleSort vs :
  grows (computeAllStats mathRandom shuffleSort vs).
Proof.
  unfold computeAllStats.
  apply grows_bind; [apply grows_getNetworkStatistics|intros ?].
  apply grows_bind; [apply grows_calculateDegreeCentrality|intros ?].
  apply grows_bind; [apply grows_calculateBetweennessCentrality|intros ?].
  apply grows_bind; [apply grows_calculateClusteringCoefficient|intros ?].
  apply grows_bind; [apply grows_identifyHubs|intros ?].
  apply grows_bind; [apply grows_detectCommunities|intros ?].
  apply grows_bind; [apply grows_stampLastComputed|intros ?].
  apply grows_ret.
Qed.

Lemma runCall_grows mathRandom shuffleSort (c : Call) (w : World) :
  c ≠ CallClearCache →
  cacheGrows (statsCache w) (statsCache (runCall mathRandom shuffleSort c w)).
Proof.
  intros Hc. destruct c; simpl; [..|done].
  - apply grows_calculateDegreeCentrality.
  - apply grows_calculateBetweennessCentrality.
  - apply grows_calculateClusteringCoefficient.
  - apply grows_identifyHubs.
  - apply grows_detectCommunities.
  - apply grows_getNetworkStatistics.
  - apply grows_computeAllStats.
Qed.

Lemma runCalls_grows mathRandom shuffleSort (cs : list Call) (w : World) :
  clearFree cs →
  cacheGrows (statsCache w) (statsCache (runCalls mathRandom shuffleSort cs w)).
Proof.
  unfold runCalls. revert w. induction cs as [|c cs IH]; intros w Hcs; [apply cacheGrows_refl|].
  apply Forall_cons in Hcs as [Hc Hcs]. simpl.
  eapply cacheGrows_trans; [by apply runCall_grows|by apply IH].
Qed.

(** A result that was returned is in its slot. *)
Lemma produced_degree vs w0 r w :
  calculateDegreeCentrality vs w0 = (Ok r, w) → centrality (statsCache w) = Some r.
Proof.
  destruct (centrality (statsCache w0)) as [r0|] eqn:E.
  - rewrite (calculateDegreeCentrality_cached vs w0 r0 E). by intros [= <- <-].
  - rewrite (calculateDegreeCentrality_fresh vs w0 E). by intros [= <- <-].
Qed.

Lemma produced_clustering vs w0 r w :
  calculateClusteringCoefficient vs w0 = (Ok r, w) → clustering (statsCache w) = Some r.
Proof.
  destruct (clustering (statsCache w0)) as [r0|] eqn:E.
  - rewrite (calculateClusteringCoefficient_cached vs w0 r0 E). by intros [= <- <-].
  - rewrite (calculateClusteringCoefficient_fresh vs w0 E). by intros [= <- <-].
Qed.

Lemma produced_communities shuffleSort vs n w0 r w :
  detectCommunities shuffleSort vs n w0 = (Ok r, w) → communities (statsCache w) = Some r.
Proof.
  destruct (communities (statsCache w0)) as [r0|] eqn:E.
  - rewrite (detectCommunities_cached shuffleSort vs n w0 r0 E). by intros [= <- <-].
  - rewrite (detectCommunities_fresh shuffleSort vs n w0 E). by intros [= <- <-].
Qed.

Lemma produced_betweenness mathRandom vs n w0 r w :
  calculateBetweennessCentrality mathRandom vs n w0 = (Ok r, w) →
  betweenness (statsCache w) = Some r.
Proof.
  destruct (betweenness (statsCache w0)) as [r0|] eqn:E.
  - rewrite (calculateBetweennessCentrality_cached mathRandom vs n w0 r0 E).
    by intros [= <- <-].
  - unfold calculateBetweennessCentrality, mbind, M_bind, getCache, sampleM. rewrite E.
    destruct (sampleLoop _ _ _ _ _ _) as [[b|e|] k]; simpl; [|done|done].
    by intros [= <- <-].
Qed.

Lemma produced_hubs vs n w0 r w :
  identifyHubs vs n w0 = (Ok r, w) → hubs (statsCache w) = Some r.
Proof.
  destruct (hubs (statsCache w0)) as [r0|] eqn:E.
  - rewrite (identifyHubs_cached vs n w0 r0 E). by intros [= <- <-].
  - destruct (identifyHubs_fresh vs n w0 E) as (cen & clu & w2 & _ & _ & _ & _ & ->).
    destruct (mapRes _ vs); [|done|done]. by intros [= <- <-].
Qed.

(** Claim C10.  Let [w] be the world a call of one of the five cached
    functions returned a result in, and [w'] the world after any further
    calls of the module other than [clearCache].  Then every call of the
    same function in [w'], whatever its arguments, returns that result
    and leaves [w'] as it is.  [clearCache] empties the five slots
    together. *)
Theorem cached_results_until_cleared
    (mathRandom : nat → Q) (shuffleSort : nat → list Verse → list Verse * nat)
    (w : World) (cs : list Call) :
  clearFree cs →
  let w' := runCalls mathRandom shuffleSort cs w in
  (∀ vs0 w0 r, calculateDegreeCentrality vs0 w0 = (Ok r, w) →
     ∀ vs, calculateDegreeCentrality vs w' = (Ok r, w')) ∧
  (∀ vs0 n0 w0 r, calculateBetweennessCentrality mathRandom vs0 n0 w0 = (Ok r, w) →
     ∀ vs n, calculateBetweennessCentrality mathRandom vs n w' = (Ok r, w')) ∧
  (∀ vs0 w0 r, calculateClusteringCoefficient vs0 w0 = (Ok r, w) →
     ∀ vs, calculateClusteringCoefficient vs w' = (Ok r, w')) ∧
  (∀ vs0 n0 w0 r, identifyHubs vs0 n0 w0 = (Ok r, w) →
     ∀ vs n, identifyHubs vs n w' = (Ok r, w')) ∧
  (∀ vs0 n0 w0 r, detectCommunities shuffleSort vs0 n0 w0 = (Ok r, w) →
     ∀ vs n, detectCommunities shuffleSort vs n w' = (Ok r, w')) ∧
  (∀ w1, statsCache (clearCache w1).2 = emptyCache ∧
         centrality emptyCache = None ∧ betweenness emptyCache = None ∧
         clustering emptyCache = None ∧ hubs emptyCache = None ∧
         communities emptyCache = None).
Proof.
  intros Hcs w'.
  destruct (runCalls_grows mathRandom shuffleSort cs w Hcs) as (G1 & G2 & G3 & G4 & G5).
  fold w' in G1, G2, G3, G4, G5. repeat split.
  - intros vs0 w0 r H vs. apply calculateDegreeCentrality_cached, G1.
    by eapply produced_degree.
  - intros vs0 n0 w0 r H vs n. apply calculateBetweennessCentrality_cached, G2.
    by eapply produced_betweenness.
  - intros vs0 w0 r H vs. apply calculateClusteringCoefficient_cached, G3.
    by eapply produced_clustering.
  - intros vs0 n0 w0 r H vs n. apply identifyHubs_cached, G4.
    by eapply produced_hubs.
  - intros vs0 n0 w0 r H vs n. apply detectCommunities_cached, G5.
    by eapply produced_communities.
Qed.

(** Claim C10 at the world after a degree-centrality call, followed by a
    full report on the chain and a hub query on the complete graph. *)
Lemma cached_results_until_cleared_witness :
  clearFree [CallComputeAllStats chainGraph; CallIdentifyHubs completeGraph4 1] ∧
  let w := (calculateDegreeCentrality [isolatedVerse] emptyWorld).2 in
  let w' := runCalls zeroDraws identityShuffle
              [CallComputeAllStats chainGraph; CallIdentifyHubs completeGraph4 1] w in
  (∀ vs0 w0 r, calculateDegreeCentrality vs0 w0 = (Ok r, w) →
     ∀ vs, calculateDegreeCentrality vs w' = (Ok r, w')) ∧
  (∀ vs0 n0 w0 r, calculateBetweennessCentrality zeroDraws vs0 n0 w0 = (Ok r, w) →
     ∀ vs n, calculateBetweennessCentrality zeroDraws vs n w' = (Ok r, w')) ∧
  (∀ vs0 w0 r, calculateClusteringCoefficient vs0 w0 = (Ok r, w) →
     ∀ vs, calculateClusteringCoefficient vs w' = (Ok r, w')) ∧
  (∀ vs0 n0 w0 r, identifyHubs vs0 n0 w0 = (Ok r, w) →
     ∀ vs n, identifyHubs vs n w' = (Ok r, w')) ∧
  (∀ vs0 n0 w0 r, detectCommunities identityShuffle vs0 n0 w0 = (Ok r, w) →
     ∀ vs n, detectCommunities identityShuffle vs n w' = (Ok r, w')) ∧
  (∀ w1, statsCache (clearCache w1).2 = emptyCache ∧
         centrality emptyCache = None ∧ betweenness emptyCache = None ∧
         clustering emptyCache = None ∧ hubs emptyCache = None ∧
         communities emptyCache = None).
Proof.
  split; [repeat constructor; discriminate|].
  apply (cached_results_until_cleared zeroDraws identityShuffle
           (calculateDegreeCentrality [isolatedVerse] emptyWorld).2
           [CallComputeAllStats chainGraph; CallIdentifyHubs completeGraph4 1]).
  repeat constructor; discriminate.
Defined.

(** A hit returns the cached result for another graph. *)
Example cache_ignores_arguments :
  let w := (calculateDegreeCentrality chainGraph emptyWorld).2 in
  calculateDegreeCentrality completeGraph4 w
  = (fst (calculateDegreeCentrality chainGraph emptyWorld), w).
Proof. reflexivity. Qed.

(* ===================================================================== *)
(** ** Rankings *)
(* ===================================================================== *)

(** The comparator [(a, b) => b.score - a.score] on finite scores asks
    for a swap exactly when the first score is the smaller one. *)
Lemma isPositive_numSub_Fin (x y : Q) :
  isPositive (numSub (Fin x) (Fin y)) = true ↔ (y < x)%Q.
Proof.
  cbn [numSub isPositive]. rewrite negb_true_iff.
  assert ((Qred (x - y) <= 0)%Q ↔ (x <= y)%Q) as Hle.
  { rewrite Qred_correct. destruct x as [a b], y as [c d].
    unfold Qle, Qminus, Qplus, Qopp. cbn [Qnum Qden]. lia. }
  destruct (Qle_bool (Qred (x - y)) 0) eqn:E.
  - apply Qle_bool_iff, Hle in E. split; [done|]. intros H.
    by apply Qlt_not_le in H.
  - split; [intros _|done]. apply Qnot_le_lt. intros H.
    apply Hle, Qle_bool_iff in H. congruence.
Qed.

(** Quotients by one positive count compare like their numerators. *)
Lemma isPositive_quotients (a b m : nat) :
  0 < m →
  isPositive (numSub (numDiv (ofNat b) (ofNat m)) (numDiv (ofNat a) (ofNat m)))
  = bool_decide (a < b).
Proof.
  intros Hm. rewrite !numDiv_nat by done.
  apply eq_true_iff_eq. rewrite isPositive_numSub_Fin, bool_decide_eq_true.
  rewrite !Qred_correct. unfold Qlt. cbn [Qnum Qden].
  split; intros H; nia.
Qed.

(** A stable insertion sort orders by any transitive relation that the
    comparator decides on the entries of the list. *)
Lemma sortInsert_sorted_by {A} (cmp : A → A → Number) (ge : A → A → Prop) (x : A)
    (l : list A) :
  Transitive ge →
  (∀ y, y ∈ l → if isPositive (cmp x y) then ge y x else ge x y) →
  StronglySorted ge l → StronglySorted ge (sortInsert cmp x l).
Proof.
  intros Ht Hx Hs. induction Hs as [|y l Hs IH Hy]; cbn [sortInsert].
  - repeat constructor.
  - assert (y ∈ y :: l) as Hyin by left. pose proof (Hx y Hyin) as Hxy.
    destruct (isPositive (cmp x y)).
    + constructor.
      * apply IH. intros z Hz. apply Hx. by right.
      * apply Forall_forall. intros z Hz.
        apply (elem_of_Permutation_proper _ _ _ (sortInsert_perm cmp x l)) in Hz.
        apply elem_of_cons in Hz as [->|Hz]; [done|].
        by apply (proj1 (Forall_forall _ _) Hy).
    + constructor; [by constructor|].
      constructor; [done|]. apply Forall_forall. intros z Hz.
      etrans; [exact Hxy|]. by apply (proj1 (Forall_forall _ _) Hy).
Qed.

Lemma arraySort_sorted_by {A} (cmp : A → A → Number) (ge : A → A → Prop) (l : list A) :
  Transitive ge →
  (∀ x y, x ∈ l → y ∈ l → if isPositive (cmp x y) then ge y x else ge x y) →
  StronglySorted ge (arraySort cmp l).
Proof.
  intros Ht H. induction l as [|x l IH]; [constructor|].
  change (arraySort cmp (x :: l)) with (sortInsert cmp x (arraySort cmp l)).
  apply sortInsert_sorted_by; [done| |].
  - intros y Hy. apply elem_of_arraySort in Hy. apply H; [left|by right].
  - apply IH. intros a b Ha Hb. apply H; by right.
Qed.

(** The sort is stable: entries that the comparator never asks to swap
    keep their order. *)
Lemma sortInsert_stable {A K} `{EqDecision K} (cmp : A → A → Number) (key : A → K)
    (x : A) (l : list A) (k : K) :
  (∀ y, y ∈ l → key x = key y → isPositive (cmp x y) = false) →
  filter (λ a, key a = k) (sortInsert cmp x l) = filter (λ a, key a = k) (x :: l).
Proof.
  intros H. induction l as [|y l IH]; [done|]. cbn [sortInsert].
  destruct (isPositive (cmp x y)) eqn:E; [|done].
  rewrite filter_cons, IH by (intros z Hz; apply H; by right).
  rewrite !(filter_cons _ x), (filter_cons _ y).
  destruct (decide (key x = k)) as [Hx|Hx]; [|done].
  destruct (decide (key y = k)) as [Hy|Hy]; [|done].
  rewrite H in E; [done|left|congruence].
Qed.

Lemma arraySort_stable {A K} `{EqDecision K} (cmp : A → A → Number) (key : A → K)
    (l : list A) (k : K) :
  (∀ x y, x ∈ l → y ∈ l → key x = key y → isPositive (cmp x y) = false) →
  filter (λ a, key a = k) (arraySort cmp l) = filter (λ a, key a = k) l.
Proof.
  intros H. induction l as [|x l IH]; [done|].
  change (arraySort cmp (x :: l)) with (sortInsert cmp x (arraySort cmp l)).
  rewrite sortInsert_stable.
  - rewrite !(filter_cons _ x), IH; [done|]. intros a b Ha Hb. apply H; by right.
  - intros y Hy. apply elem_of_arraySort in Hy. apply H; [left|by right].
Qed.

(** Sorting commutes with a map that the two comparators agree on. *)
Lemma sortInsert_fmap {A B} (f : A → B) (cmpA : A → A → Number) (cmpB : B → B → Number)
    (x : A) (l : list A) :
  (∀ y, y ∈ l → isPositive (cmpA x y) = isPositive (cmpB (f x) (f y))) →
  f <$> sortInsert cmpA x l = sortInsert cmpB (f x) (f <$> l).
Proof.
  intros H. induction l as [|y l IH]; [done|]. cbn [sortInsert fmap list_fmap].
  rewrite <- H by left. destruct (isPositive (cmpA x y)); [|done].
  cbn [fmap list_fmap]. f_equal. apply IH. intros z Hz. apply H. by right.
Qed.

Lemma arraySort_fmap {A B} (f : A → B) (cmpA : A → A → Number) (cmpB : B → B → Number)
    (l : list A) :
  (∀ x y, x ∈ l → y ∈ l → isPositive (cmpA x y) = isPositive (cmpB (f x) (f y))) →
  f <$> arraySort cmpA l = arraySort cmpB (f <$> l).
Proof.
  intros H. induction l as [|x l IH]; [done|].
  change (arraySort cmpA (x :: l)) with (sortInsert cmpA x (arraySort cmpA l)).
  rewrite (sortInsert_fmap f cmpA cmpB).
  - rewrite IH; [done|]. intros a b Ha Hb. apply H; by right.
  - intros y Hy. apply elem_of_arraySort in Hy. apply H; [left|by right].
Qed.

(** The comparator of the degree ranking, for a positive highest degree. *)
Lemma byDegreeCentrality_positive (verses : list Verse) (a b : DegreeScore) :
  0 < max_list (map refCount verses) →
  a ∈ degreeScores verses → b ∈ degreeScores verses →
  isPositive (byDegreeCentrality a b)
  = bool_decide (refCount (dsVerse a) < refCount (dsVerse b)).
Proof.
  intros Hm Ha Hb. unfold degreeScores in Ha, Hb.
  apply list_elem_of_fmap in Ha as (va & -> & Hva).
  apply list_elem_of_fmap in Hb as (vb & -> & Hvb).
  unfold byDegreeCentrality. cbn [degreeCentrality dsVerse].
  destruct verses as [|v0 vs]; [by apply elem_of_nil in Hva|].
  unfold mathMax. cbn [map]. by apply isPositive_quotients.
Qed.

Lemma degreeScores_verses (verses : list Verse) : dsVerse <$> degreeScores verses = verses.
Proof.
  unfold degreeScores. rewrite <- list_fmap_compose. apply list_fmap_id.
Qed.

Lemma filter_fmap_comm {A B} (f : A → B) (P : B → Prop) `{∀ x, Decision (P x)}
    (l : list A) :
  filter P (f <$> l) = f <$> filter (λ a, P (f a)) l.
Proof.
  induction l as [|x l IH]; [done|]. cbn [fmap list_fmap]. rewrite !filter_cons.
  fold (fmap f l). rewrite IH. by destruct (decide (P (f x))).
Qed.

(** Property X1 ([calculateDegreeCentrality], ranking).  On a cache miss,
    for a graph in which some verse has a reference, the result holds one
    record per verse, ordered by degree from the highest to the lowest,
    with verses of equal degree in the order of the input; it is stored
    in the cache. *)
Theorem degree_ranking_sorted_and_stable (verses : list Verse) (w : World) :
  centrality (statsCache w) = None →
  0 < max_list (map refCount verses) →
  ∃ r, calculateDegreeCentrality verses w
       = (Ok r, withCache w (setCentrality r (statsCache w))) ∧
       dsVerse <$> r ≡ₚ verses ∧
       StronglySorted (λ a b, refCount (dsVerse b) ≤ refCount (dsVerse a)) r ∧
       (∀ k, filter (λ v, refCount v = k) (dsVerse <$> r)
             = filter (λ v, refCount v = k) verses) ∧
       (∀ d, d ∈ r → normalizedDegree d = refCount (dsVerse d)).
Proof.
  intros Hc Hm. eexists. split; [by apply calculateDegreeCentrality_fresh|].
  split; [|split; [|split]].
  - rewrite arraySort_perm. by rewrite degreeScores_verses.
  - apply (arraySort_sorted_by _ (λ a b, refCount (dsVerse b) ≤ refCount (dsVerse a))).
    + intros a b c ??. lia.
    + intros a b Ha Hb. rewrite (byDegreeCentrality_positive verses) by done.
      case_bool_decide; lia.
  - intros k. rewrite (filter_fmap_comm dsVerse (λ v, refCount v = k)).
    rewrite <- (degreeScores_verses verses) at 2.
    rewrite (filter_fmap_comm dsVerse (λ v, refCount v = k)). f_equal.
    apply (arraySort_stable _ (λ d, refCount (dsVerse d))).
    intros a b Ha Hb Hab. rewrite (byDegreeCentrality_positive verses) by done.
    apply bool_decide_eq_false. lia.
  - intros d Hd. apply elem_of_arraySort in Hd. unfold degreeScores in Hd.
    by apply list_elem_of_fmap in Hd as (v & -> & _).
Qed.

Lemma degree_ranking_sorted_and_stable_witness :
  ∃ r, calculateDegreeCentrality chainGraph emptyWorld
       = (Ok r, withCache emptyWorld (setCentrality r (statsCache emptyWorld))) ∧
       dsVerse <$> r ≡ₚ chainGraph ∧
       StronglySorted (λ a b, refCount (dsVerse b) ≤ refCount (dsVerse a)) r ∧
       (∀ k, filter (λ v, refCount v = k) (dsVerse <$> r)
             = filter (λ v, refCount v = k) chainGraph) ∧
       (∀ d, d ∈ r → normalizedDegree d = refCount (dsVerse d)).
Proof.
  apply (degree_ranking_sorted_and_stable chainGraph emptyWorld);
    [reflexivity|vm_compute; lia].
Defined.

(* ===================================================================== *)
(** ** Graph-wide statistics of a graph that is not empty *)
(* ===================================================================== *)

Lemma totalRefs_sum (verses : list Verse) (c : nat) :
  foldl (λ sum v, sum + refCount v) c verses = c + sum_list (map refCount verses).
Proof.
  revert c. induction verses as [|v vs IH]; intros c; simpl; [lia|].
  rewrite IH. lia.
Qed.

Lemma refCounts_sorted (verses : list Verse) :
  StronglySorted (λ a b, b ≤ a) (arraySort byCountDesc (map refCount verses)).
Proof.
  apply (arraySort_sorted byCountDesc (λ c, c)). intros x y. apply isPositive_byCount.
Qed.

(** The first entry of a descending list is its maximum. *)
Lemma sorted_head_max (l : list nat) (m : nat) :
  StronglySorted (λ a b, b ≤ a) l → l !! 0 = Some m → max_list l = m.
Proof.
  intros Hs H0. destruct l as [|x l]; [done|]. injection H0 as ->.
  apply StronglySorted_inv in Hs as [_ Hall].
  assert (max_list l ≤ m); [|simpl; lia].
  apply max_list_le. intros y Hy. by apply (proj1 (Forall_forall _ _) Hall).
Qed.





Lemma degreeScores_counts (verses : list Verse) :
  (λ d, refCount (dsVerse d)) <$> degreeScores verses = map refCount verses.
Proof.
  unfold degreeScores. rewrite <- list_fmap_compose. done.
Qed.

(** The degree ranking lists the degrees in the order of the sorted
    counts. *)
Lemma degree_ranking_counts (verses : list Verse) :
  0 < max_list (map refCount verses) →
  (λ d, refCount (dsVerse d)) <$> arraySort byDegreeCentrality (degreeScores verses)
  = arraySort byCountDesc (map refCount verses).
Proof.
  intros Hm. rewrite <- degreeScores_counts.
  apply arraySort_fmap. intros a b Ha Hb.
  rewrite (byDegreeCentrality_positive verses) by done.
  unfold byCountDesc. by rewrite isPositive_byCount.
Qed.

(** Property X3 ([getNetworkStatistics], [topVerses]).  On a cache miss,
    for a graph in which some verse has a reference, [topVerses] lists
    the ten highest degrees (all of them when there are fewer verses),
    highest first: its [refs] are the first ten of the counts sorted in
    descending order, every entry describes a verse of the list with its
    degree divided by the highest degree, and the first entry has the
    degree reported as [maxDegree] and the centrality 1. *)
Theorem top_verses_are_the_highest_degrees (verses : list Verse) (w : World) :
  centrality (statsCache w) = None →
  0 < max_list (map refCount verses) →
  ∃ s w',
    getNetworkStatistics verses w = (Ok s, w') ∧
    tvRefs <$> topVerses s = take 10 (arraySort byCountDesc (map refCount verses)) ∧
    length (topVerses s) = min 10 (length verses) ∧
    (∀ t, t ∈ topVerses s →
       ∃ v, v ∈ verses ∧ tvVerse t = verse v ∧ tvRefs t = refCount v ∧
            tvCentrality t
            = toFixed (numDiv (ofNat (refCount v))
                         (ofNat (max_list (map refCount verses)))) 3) ∧
    (∃ t, head (topVerses s) = Some t ∧ maxDegree s = Some (tvRefs t) ∧
          tvCentrality t = toFixed (Fin 1) 3).
Proof.
  intros Hc Hm. pose proof (calculateDegreeCentrality_fresh verses w Hc) as Ec.
  set (cen := arraySort byDegreeCentrality (degreeScores verses)) in *.
  eexists _, _. split.
  { unfold getNetworkStatistics, mbind, M_bind. rewrite Ec. reflexivity. }
  cbn [topVerses maxDegree]. unfold slice0. rewrite take_take, Nat.min_id.
  assert (∀ d, d ∈ cen →
            ∃ v, v ∈ verses ∧
                 d = {| dsVerse := v;
                        degreeCentrality :=
                          numDiv (ofNat (refCount v))
                            (ofNat (max_list (map refCount verses)));
                        normalizedDegree := refCount v |}) as Hcen.
  { intros d Hd. apply elem_of_arraySort in Hd. unfold degreeScores in Hd.
    apply list_elem_of_fmap in Hd as (v & -> & Hv). exists v. split; [done|].
    destruct verses as [|v0 vs]; [by apply elem_of_nil in Hv|]. done. }
  assert (tvRefs <$>
            map (λ d, {| tvVerse := verse (dsVerse d); tvRefs := refCount (dsVerse d);
                         tvCentrality := toFixed (degreeCentrality d) 3 |}) (take 10 cen)
          = take 10 (arraySort byCountDesc (map refCount verses))) as Hrefs.
  { rewrite <- degree_ranking_counts by done. fold cen.
    rewrite <- fmap_take. rewrite <- list_fmap_compose. done. }
  split; [exact Hrefs|]. split; [|split].
  - rewrite length_map, length_take. unfold cen, degreeScores.
    by rewrite length_arraySort, length_map.
  - intros t Ht. apply list_elem_of_fmap in Ht as (d & -> & Hd).
    apply elem_of_take in Hd as (i & Hd & _). apply list_elem_of_lookup_2 in Hd.
    destruct (Hcen d Hd) as (v & Hv & ->). by exists v.
  - destruct cen as [|d cen'] eqn:Ecen.
    { exfalso. assert (length cen = length verses) as Hl.
      { unfold cen, degreeScores. by rewrite length_arraySort, length_map. }
      rewrite Ecen in Hl. destruct verses; [cbn in Hm; lia|done]. }
    cbn [take map head]. eexists. split; [reflexivity|]. cbn [tvRefs tvCentrality].
    assert (arraySort byCountDesc (map refCount verses) !! 0
            = Some (refCount (dsVerse d))) as H0.
    { rewrite <- degree_ranking_counts by done. fold cen. by rewrite Ecen. }
    split; [exact H0|].
    apply sorted_head_max in H0; [|apply refCounts_sorted].
    rewrite (arraySort_perm byCountDesc) in H0.
    destruct (Hcen d) as (v & Hv & ->); [rewrite <- Ecen; subst cen; rewrite Ecen; left|].
    cbn [dsVerse] in H0. cbn [degreeCentrality]. rewrite <- H0.
    rewrite numDiv_nat_self; [done|lia].
Qed.

Lemma top_verses_are_the_highest_degrees_witness :
  ∃ s w',
    getNetworkStatistics chainGraph emptyWorld = (Ok s, w') ∧
    tvRefs <$> topVerses s = take 10 (arraySort byCountDesc (map refCount chainGraph)) ∧
    length (topVerses s) = min 10 (length chainGraph) ∧
    (∀ t, t ∈ topVerses s →
       ∃ v, v ∈ chainGraph ∧ tvVerse t = verse v ∧ tvRefs t = refCount v ∧
            tvCentrality t
            = toFixed (numDiv (ofNat (refCount v))
                         (ofNat (max_list (map refCount chainGraph)))) 3) ∧
    (∃ t, head (topVerses s) = Some t ∧ maxDegree s = Some (tvRefs t) ∧
          tvCentrality t = toFixed (Fin 1) 3).
Proof.
  apply (top_verses_are_the_highest_degrees chainGraph emptyWorld);
    [reflexivity|vm_compute; lia].
Defined.

(* ===================================================================== *)
(** ** Hubs *)
(* ===================================================================== *)

Lemma arrayFind_Some {A} (p : A → bool) (l : list A) (x : A) :
  arrayFind p l = Some x → x ∈ l ∧ p x = true.
Proof.
  unfold arrayFind. intros H. apply find_some in H as [H1 H2].
  by apply list_elem_of_In in H1.
Qed.

Lemma arrayFind_None {A} (p : A → bool) (l : list A) :
  arrayFind p l = None ↔ ∀ x, x ∈ l → p x = false.
Proof.
  unfold arrayFind. split.
  - intros H x Hx. apply (find_none _ _ H). by apply list_elem_of_In.
  - intros H. destruct (find p l) as [x|] eqn:E; [|done].
    apply find_some in E as [H1 H2]. apply list_elem_of_In in H1.
    rewrite (H x H1) in H2. done.
Qed.

Lemma arrayFind_is_Some {A} (p : A → bool) (l : list A) (x : A) :
  x ∈ l → p x = true → is_Some (arrayFind p l).
Proof.
  intros Hx Hp. destruct (arrayFind p l) eqn:E; [eauto|].
  rewrite (proj1 (arrayFind_None p l) E x Hx) in Hp. done.
Qed.

(** [map] with a callback that throws, when no round throws. *)
Lemma mapRes_Ok {A B} (f : A → Res B) (l : list A) :
  (∀ x, x ∈ l → ∃ y, f x = Ok y) →
  ∃ ys, mapRes f l = Ok ys ∧ Forall2 (λ x y, f x = Ok y) l ys.
Proof.
  induction l as [|x l IH]; intros H.
  - exists []. by split; [|constructor].
  - destruct (H x) as [y Hy]; [left|].
    destruct IH as (ys & Hys & HF); [intros z Hz; apply H; by right|].
    exists (y :: ys). cbn [mapRes]. rewrite Hy, Hys. split; [done|]. by constructor.
Qed.

(** [map] with a callback whose only exception is [e], when some round
    throws. *)
Lemma mapRes_Throw {A B} (f : A → Res B) (l : list A) (e : string) (x : A) :
  (∀ z, z ∈ l → f z = Throw e ∨ ∃ y, f z = Ok y) →
  x ∈ l → f x = Throw e → mapRes f l = Throw e.
Proof.
  induction l as [|z l IH]; intros H Hx Hfx; [by apply elem_of_nil in Hx|].
  cbn [mapRes]. destruct (H z) as [Hz|[y Hy]]; [left|by rewrite Hz|].
  rewrite Hy. apply elem_of_cons in Hx as [->|Hx]; [congruence|].
  rewrite IH; [done| |done|done]. intros u Hu. apply H. by right.
Qed.

Lemma degreeRanking_elem (verses : list Verse) (d : DegreeScore) :
  d ∈ degreeRanking verses ↔
  ∃ v, v ∈ verses ∧
       d = {| dsVerse := v;
              degreeCentrality :=
                numDiv (ofNat (refCount v)) (mathMax (map refCount verses));
              normalizedDegree := refCount v |}.
Proof.
  unfold degreeRanking. rewrite elem_of_arraySort. unfold degreeScores.
  rewrite list_elem_of_fmap. naive_solver.
Qed.

Lemma clusteringRanking_elem (verses : list Verse) (c : ClusteringScore) :
  c ∈ clusteringRanking verses ↔
  ∃ v, v ∈ verses ∧ c = clusteringScore (verseMapOf verses) v.
Proof.
  unfold clusteringRanking. rewrite elem_of_arraySort. unfold clusteringScores.
  rewrite list_elem_of_fmap. naive_solver.
Qed.

(** What one round of the hub map returns for a verse of the list. *)
Lemma hubScoreOf_ranked (verses : list Verse) (v : Verse) :
  v ∈ verses →
  ∃ d c, d ∈ degreeRanking verses ∧ id (dsVerse d) = id v ∧
         c ∈ clusteringRanking verses ∧ id (csVerse c) = id v ∧
         hubScoreOf (degreeRanking verses) (clusteringRanking verses) v
         = Ok {| hsVerse := v;
                 hubScore := hubProduct (degreeCentrality d) (clusteringCoefficient c);
                 isHub := false |}.
Proof.
  intros Hv. unfold hubScoreOf.
  destruct (arrayFind_is_Some (λ d, bool_decide (id (dsVerse d) = id v))
              (degreeRanking verses)
              {| dsVerse := v;
                 degreeCentrality :=
                   numDiv (ofNat (refCount v)) (mathMax (map refCount verses));
                 normalizedDegree := refCount v |}) as [d Hd].
  { apply degreeRanking_elem. eauto. }
  { by apply bool_decide_eq_true. }
  destruct (arrayFind_is_Some (λ c, bool_decide (id (csVerse c) = id v))
              (clusteringRanking verses) (clusteringScore (verseMapOf verses) v))
    as [c Hc].
  { apply clusteringRanking_elem. eauto. }
  { apply bool_decide_eq_true. by rewrite (proj1 (clusteringScore_spec _ v)). }
  rewrite Hd, Hc. apply arrayFind_Some in Hd as [Hd1 Hd2], Hc as [Hc1 Hc2].
  apply bool_decide_eq_true in Hd2, Hc2. by exists d, c.
Qed.

Lemma withCache_same (w : World) : withCache w (statsCache w) = w.
Proof. by destruct w. Qed.

Lemma setCentrality_same (c : StatsCache) r : centrality c = Some r → setCentrality r c = c.
Proof. destruct c. cbn. by intros ->. Qed.

Lemma setClustering_same (c : StatsCache) r : clustering c = Some r → setClustering r c = c.
Proof. destruct c. cbn. by intros ->. Qed.

(** A run of [identifyHubs] from a cache that holds no hubs and no
    ranking of another graph. *)
Lemma identifyHubs_ready (verses : list Verse) (topN : Z) (w : World) :
  hubReady verses (statsCache w) →
  ∃ hs,
    mapRes (hubScoreOf (degreeRanking verses) (clusteringRanking verses)) verses = Ok hs ∧
    identifyHubs verses topN w
    = (Ok (markHubs topN (arraySort byHubScore hs)),
       withCache w
         (setHubs (markHubs topN (arraySort byHubScore hs))
            (setClustering (clusteringRanking verses)
               (setCentrality (degreeRanking verses) (statsCache w))))).
Proof.
  intros (Hh & Hcen & Hclu).
  destruct (mapRes_Ok (hubScoreOf (degreeRanking verses) (clusteringRanking verses)) verses)
    as (hs & Hhs & _).
  { intros v Hv. destruct (hubScoreOf_ranked verses v Hv) as (d & c & _ & _ & _ & _ & ->).
    eauto. }
  exists hs. split; [done|]. rewrite identifyHubs_miss by done.
  assert (calculateDegreeCentrality verses w
          = (Ok (degreeRanking verses),
             withCache w (setCentrality (degreeRanking verses) (statsCache w)))) as E1.
  { destruct Hcen as [Hn|Hs].
    - by apply calculateDegreeCentrality_fresh.
    - rewrite (calculateDegreeCentrality_cached _ _ _ Hs).
      by rewrite (setCentrality_same _ _ Hs), withCache_same. }
  set (w1 := withCache w (setCentrality (degreeRanking verses) (statsCache w))) in *.
  assert (calculateClusteringCoefficient verses w1
          = (Ok (clusteringRanking verses),
             withCache w1 (setClustering (clusteringRanking verses) (statsCache w1)))) as E2.
  { destruct Hclu as [Hn|Hs].
    - by apply calculateClusteringCoefficient_fresh.
    - assert (clustering (statsCache w1) = Some (clusteringRanking verses)) as Hs1 by done.
      rewrite (calculateClusteringCoefficient_cached _ _ _ Hs1).
      by rewrite (setClustering_same _ _ Hs1), withCache_same. }
  unfold mbind, M_bind. rewrite E1, E2. unfold liftRes. rewrite Hhs.
  unfold modifyCache, mret, M_ret. reflexivity.
Qed.

(** The marks of [markHubs]: the first [hubCount] entries, and no other. *)
Lemma markHubs_flags (topN : Z) (sorted : list HubScore) :
  (∀ h, h ∈ sorted → isHub h = false) →
  isHub <$> markHubs topN sorted
  = replicate (hubCount topN (length sorted)) true
    ++ replicate (length sorted - hubCount topN (length sorted)) false.
Proof.
  intros Hf. unfold markHubs, mathMin. fold (hubCount topN (length sorted)).
  assert (hubCount topN (length sorted) ≤ length sorted) as Hk.
  { unfold hubCount. lia. }
  set (k := hubCount topN (length sorted)) in *.
  apply list_eq. intros i. rewrite list_lookup_fmap, list_lookup_imap.
  destruct (sorted !! i) as [h|] eqn:E; cbn [fmap option_fmap option_map].
  - pose proof (lookup_lt_Some _ _ _ E) as Hi.
    destruct (decide (i < k)) as [Hik|Hik].
    + rewrite lookup_app_l by (rewrite length_replicate; lia).
      by rewrite lookup_replicate_2.
    + rewrite lookup_app_r by (rewrite length_replicate; lia).
      rewrite length_replicate, lookup_replicate_2 by lia.
      f_equal. apply Hf. by apply list_elem_of_lookup_2 in E.
  - apply lookup_ge_None in E. symmetry. apply lookup_ge_None.
    rewrite length_app, !length_replicate. lia.
Qed.

Lemma markHubs_verses (topN : Z) (sorted : list HubScore) :
  hsVerse <$> markHubs topN sorted = hsVerse <$> sorted.
Proof.
  unfold markHubs. rewrite fmap_imap. rewrite <- (imap_const hsVerse).
  apply imap_ext. intros i h _. cbn. by destruct (decide _).
Qed.

Lemma markHubs_scores (topN : Z) (sorted : list HubScore) :
  hubScore <$> markHubs topN sorted = hubScore <$> sorted.
Proof.
  unfold markHubs. rewrite fmap_imap. rewrite <- (imap_const hubScore).
  apply imap_ext. intros i h _. cbn. by destruct (decide _).
Qed.

Lemma mapped_hubs (verses : list Verse) (hs : list HubScore) :
  Forall2 (λ v h, hubScoreOf (degreeRanking verses) (clusteringRanking verses) v = Ok h)
    verses hs →
  hsVerse <$> hs = verses ∧ ∀ h, h ∈ hs → isHub h = false.
Proof.
  intros HF. assert (∀ l, Forall2 (λ v h,
      hubScoreOf (degreeRanking verses) (clusteringRanking verses) v = Ok h) l hs →
      hsVerse <$> hs = l ∧ ∀ h, h ∈ hs → isHub h = false) as Hgen; [|by apply Hgen].
  clear HF. intros l HF. induction HF as [|v h l hs Hvh HF [IH1 IH2]].
  - split; [done|]. intros h Hh. by apply elem_of_nil in Hh.
  - unfold hubScoreOf in Hvh.
    destruct (arrayFind _ (degreeRanking verses)); [|done].
    destruct (arrayFind _ (clusteringRanking verses)); [|done].
    injection Hvh as <-. split; [cbn; by rewrite IH1|].
    intros h Hh. apply elem_of_cons in Hh as [->|Hh]; [done|by apply IH2].
Qed.

(** Property X4 ([identifyHubs], marks).  From a cache without hubs and
    without rankings the call returns one record per verse; exactly the
    first [min(topN, n)] records of the result are marked as hubs (none
    when [topN] is zero or negative), and the call leaves the degree
    ranking, the clustering ranking and its own result in the cache,
    without reading the random source. *)
Theorem identifyHubs_marks_the_first_topN (verses : list Verse) (topN : Z) (w : World) :
  hubs (statsCache w) = None →
  centrality (statsCache w) = None →
  clustering (statsCache w) = None →
  let k := hubCount topN (length verses) in
  ∃ r w',
    identifyHubs verses topN w = (Ok r, w') ∧
    hsVerse <$> r ≡ₚ verses ∧
    isHub <$> r = replicate k true ++ replicate (length verses - k) false ∧
    ((topN ≤ 0)%Z → ∀ h, h ∈ r → isHub h = false) ∧
    hubs (statsCache w') = Some r ∧
    centrality (statsCache w') = Some (degreeRanking verses) ∧
    clustering (statsCache w') = Some (clusteringRanking verses) ∧
    rngPos w' = rngPos w.
Proof.
  intros Hh Hc Hl k.
  destruct (identifyHubs_ready verses topN w) as (hs & Hhs & Hrun).
  { split; [done|]. split; by left. }
  destruct (mapRes_Ok (hubScoreOf (degreeRanking verses) (clusteringRanking verses)) verses)
    as (hs' & Hhs' & HF).
  { intros v Hv. destruct (hubScoreOf_ranked verses v Hv) as (d & c & _ & _ & _ & _ & ->).
    eauto. }
  assert (hs' = hs) as -> by congruence.
  destruct (mapped_hubs verses hs HF) as [Hvs Hfalse].
  assert (length (arraySort byHubScore hs) = length verses) as Hlen.
  { by rewrite length_arraySort, <- Hvs, length_fmap. }
  assert (isHub <$> markHubs topN (arraySort byHubScore hs)
          = replicate k true ++ replicate (length verses - k) false) as Hflags.
  { rewrite markHubs_flags, Hlen; [done|].
    intros h Hh'. apply elem_of_arraySort in Hh'. by apply Hfalse. }
  eexists _, _. split; [exact Hrun|]. split; [|split; [|split]].
  - by rewrite markHubs_verses, arraySort_perm, Hvs.
  - exact Hflags.
  - intros Hn h Hh'.
    assert (k = 0) as Hk0 by (unfold k, hubCount; lia).
    rewrite Hk0 in Hflags. cbn [replicate app] in Hflags.
    apply (list_elem_of_fmap_2 isHub) in Hh'. rewrite Hflags in Hh'.
    by apply elem_of_replicate_inv in Hh'.
  - done.
Qed.

Lemma identifyHubs_marks_the_first_topN_witness :
  let k := hubCount 2 (length chainGraph) in
  ∃ r w',
    identifyHubs chainGraph 2 emptyWorld = (Ok r, w') ∧
    hsVerse <$> r ≡ₚ chainGraph ∧
    isHub <$> r = replicate k true ++ replicate (length chainGraph - k) false ∧
    ((2 ≤ 0)%Z → ∀ h, h ∈ r → isHub h = false) ∧
    hubs (statsCache w') = Some r ∧
    centrality (statsCache w') = Some (degreeRanking chainGraph) ∧
    clustering (statsCache w') = Some (clusteringRanking chainGraph) ∧
    rngPos w' = rngPos emptyWorld.
Proof.
  apply (identifyHubs_marks_the_first_topN chainGraph 2 emptyWorld); reflexivity.
Defined.

(** With distinct ids, a verse is determined by its id. *)
Lemma NoDup_id_inj (verses : list Verse) (u v : Verse) :
  NoDup (id <$> verses) → u ∈ verses → v ∈ verses → id u = id v → u = v.
Proof.
  intros Hnd Hu Hv Huv.
  apply list_elem_of_lookup in Hu as [i Hi], Hv as [j Hj].
  assert (i = j) as ->; [|congruence].
  apply (NoDup_lookup _ i j (id u) Hnd); rewrite list_lookup_fmap.
  - by rewrite Hi.
  - rewrite Hj. cbn. by rewrite Huv.
Qed.

(** Binary64 rounding. *)

(** Known binary64 values: 1/3, 2/3 and 1/10; the tie [2^53 + 1], which
    goes to the even neighbour, and [2^53 + 3]; a tie and a value below
    it at the lower end of the subnormal range; the overflow threshold. *)
Example round64_values :
  round64 (1 # 3) = Fin (6004799503160661 # 18014398509481984) ∧
  round64 (2 # 3) = Fin (6004799503160661 # 9007199254740992) ∧
  round64 (1 # 10) = Fin (3602879701896397 # 36028797018963968) ∧
  round64 (- 1 # 3) = Fin (- 6004799503160661 # 18014398509481984) ∧
  round64 (9007199254740993 # 1) = Fin (9007199254740992 # 1) ∧
  round64 (9007199254740995 # 1) = Fin (9007199254740996 # 1) ∧
  round64 (3 # 2 ^ 1075) = Fin (1 # 2 ^ 1073) ∧
  round64 (1 # 2 ^ 1075) = Fin 0 ∧
  round64 (inject_Z (2 ^ 1024 - 2 ^ 970 - 1)) = Fin (inject_Z (2 ^ 1024 - 2 ^ 971)) ∧
  round64 (inject_Z (2 ^ 1024 - 2 ^ 970)) = Infinity.
Proof. vm_compute. repeat split. Qed.

Lemma Qred_integer (z : Z) : Qred (inject_Z z) = inject_Z z.
Proof.
  unfold Qred, inject_Z.
  pose proof (Z.ggcd_gcd z (Z.pos 1)) as Hg.
  pose proof (Z.ggcd_correct_divisors z (Z.pos 1)) as Hd.
  destruct (Z.ggcd z (Z.pos 1)) as (g & aa & bb). cbn [fst snd] in *.
  rewrite Z.gcd_1_r in Hg. subst g. destruct Hd as [Ha Hb].
  assert (aa = z) as -> by lia. assert (bb = 1%Z) as -> by lia. done.
Qed.

(** An integer of at most 53 bits is its own binary64 value. *)
Lemma round64_integer (p : positive) :
  (Z.pos p < 2 ^ 53)%Z → round64 (inject_Z (Z.pos p)) = Fin (inject_Z (Z.pos p)).
Proof.
  intros Hp. unfold round64, inject_Z. cbn [Qnum Qden]. unfold round64pos.
  change (Z.log2 (Z.pos 1)) with 0%Z. rewrite Z.sub_0_r.
  pose proof (Z.log2_spec (Z.pos p) ltac:(lia)) as [Hlo Hhi].
  pose proof (Z.log2_nonneg (Z.pos p)) as He0.
  set (e := Z.log2 (Z.pos p)) in *.
  assert (e < 53)%Z as He.
  { apply (Z.pow_lt_mono_r_iff 2); lia. }
  assert (Qle_bool (pow2 e) (Z.pos p # 1) = true) as ->.
  { apply Qle_bool_iff. unfold pow2. rewrite (proj2 (Z.leb_le 0 e)) by lia.
    unfold Qle, inject_Z. cbn [Qnum Qden]. lia. }
  rewrite Z.max_l by lia.
  assert (0 < 2 ^ (- (e - 52)))%Z as Hpow by (apply Z.pow_pos_nonneg; lia).
  assert (∀ n, nearestEven n 1 = n) as Hone.
  { intros n. unfold nearestEven. rewrite Z.mod_1_r, Z.div_1_r. done. }
  assert (Qred (inject_Z (Z.pos p * 2 ^ (- (e - 52))) * pow2 (e - 52))
          = inject_Z (Z.pos p)) as Hx.
  { rewrite <- (Qred_integer (Z.pos p)).
    apply Qred_complete. unfold pow2.
    destruct (0 <=? e - 52)%Z eqn:Ek.
    - apply Z.leb_le in Ek. assert (e - 52 = 0)%Z as -> by lia.
      unfold Qeq, Qmult, inject_Z. cbn. lia.
    - unfold Qeq, Qmult, inject_Z. cbn [Qnum Qden].
      rewrite Pos.mul_1_l, Z2Pos.id by done. lia. }
  destruct (0 <=? e - 52)%Z eqn:Ek.
  - apply Z.leb_le in Ek. assert (e - 52 = 0)%Z as Hk by lia. rewrite Hk in Hx |- *.
    change (2 ^ 0)%Z with 1%Z. change (2 ^ (- 0))%Z with 1%Z in Hx.
    rewrite Z.mul_1_r in Hx. change (Z.pos 1 * 1)%Z with 1%Z. rewrite Hone, Hx.
    destruct (Qle_bool (pow2 1024) (inject_Z (Z.pos p))) eqn:Eo; [|done].
    apply Qle_bool_iff in Eo. unfold pow2, Qle, inject_Z in Eo. cbn [Qnum Qden] in Eo.
    change (0 <=? 1024)%Z with true in Eo. cbn [Qnum Qden] in Eo.
    assert (2 ^ 53 < 2 ^ 1024)%Z by (apply Z.pow_lt_mono_r; lia). lia.
  - rewrite Hone, Hx.
    destruct (Qle_bool (pow2 1024) (inject_Z (Z.pos p))) eqn:Eo; [|done].
    apply Qle_bool_iff in Eo. unfold pow2, Qle, inject_Z in Eo.
    change (0 <=? 1024)%Z with true in Eo. cbn [Qnum Qden] in Eo.
    assert (2 ^ 53 < 2 ^ 1024)%Z by (apply Z.pow_lt_mono_r; lia). lia.
Qed.

(** The nearest integer of a quotient stays below an integer bound of the
    quotient. *)
Lemma nearestEven_bounds (n d N : Z) :
  (0 < d)%Z → (0 ≤ n)%Z → (n ≤ N * d)%Z → (0 ≤ nearestEven n d ≤ N)%Z.
Proof.
  intros Hd Hn HN. unfold nearestEven.
  pose proof (Z.div_mod n d ltac:(lia)) as Hdm.
  pose proof (Z.mod_pos_bound n d Hd) as Hr.
  assert (0 ≤ n / d)%Z as Hq by (apply Z.div_pos; lia).
  assert (n / d ≤ N)%Z as HqN by nia.
  assert (n / d = N → n mod d = 0)%Z as Htop by nia.
  destruct (2 * (n mod d) ?= d)%Z eqn:E.
  - apply Z.compare_eq in E. destruct (Z.even (n / d)); lia.
  - lia.
  - apply Z.compare_gt_iff in E. lia.
Qed.

(** Rounding to binary64 keeps a value between 0 and 1 there. *)
Lemma round64_unit (q : Q) : (0 <= q)%Q → (q <= 1)%Q → inUnit (round64 q).
Proof.
  destruct q as [[|n|n] d]; intros H0 H1; unfold round64; cbn [Qnum Qden].
  - exists 0%Q. done.
  - unfold Qle in H1. cbn [Qnum Qden] in H1.
    assert (Z.pos n ≤ Z.pos d)%Z as Hnd by lia.
    unfold round64pos.
    set (e0 := (Z.log2 (Z.pos n) - Z.log2 (Z.pos d))%Z).
    assert (e0 ≤ 0)%Z as He0.
    { pose proof (Z.log2_le_mono _ _ Hnd). lia. }
    set (e := if Qle_bool (pow2 e0) (Z.pos n # d) then e0 else (e0 - 1)%Z).
    assert (e ≤ 0)%Z as He by (subst e; destruct (Qle_bool _ _); lia).
    set (k := Z.max (e - 52) (-1074)).
    assert (k < 0)%Z as Hk by lia.
    destruct (0 <=? k)%Z eqn:Ek; [apply Z.leb_le in Ek; lia|].
    assert (0 < 2 ^ (- k))%Z as Hp by (apply Z.pow_pos_nonneg; lia).
    pose proof (nearestEven_bounds (Z.pos n * 2 ^ (- k)) (Z.pos d) (2 ^ (- k))
                  ltac:(lia) ltac:(lia) ltac:(nia)) as Hm.
    set (m := nearestEven (Z.pos n * 2 ^ (- k)) (Z.pos d)) in *.
    assert (0 <= inject_Z m * pow2 k)%Q as Hx0.
    { unfold pow2. rewrite Ek. unfold Qle, Qmult, inject_Z. cbn [Qnum Qden]. lia. }
    assert (inject_Z m * pow2 k <= 1)%Q as Hx1.
    { unfold pow2. rewrite Ek. unfold Qle, Qmult, inject_Z. cbn [Qnum Qden].
      rewrite Pos.mul_1_l, Z2Pos.id by done. lia. }
    destruct (Qle_bool (pow2 1024) (Qred (inject_Z m * pow2 k))) eqn:Eo.
    + apply Qle_bool_iff in Eo. rewrite Qred_correct in Eo.
      assert (1 < pow2 1024)%Q as Hbig by reflexivity.
      exfalso. apply (Qlt_not_le _ _ Hbig).
      by apply Qle_trans with (inject_Z m * pow2 k)%Q.
    + eexists. split; [reflexivity|]. by rewrite Qred_correct.
  - unfold Qle in H0. cbn [Qnum Qden] in H0. lia.
Qed.

(** The hub score of two factors between 0 and 1 lies between 0 and 1. *)
Lemma inUnit_hubProduct (x y : Number) :
  inUnit x → inUnit y → inUnit (hubProduct x y).
Proof.
  intros (a & -> & Ha0 & Ha1) (b & -> & Hb0 & Hb1). unfold hubProduct.
  cbn [toBinary64].
  destruct (round64_unit a Ha0 Ha1) as (a' & -> & Ha0' & Ha1').
  destruct (round64_unit b Hb0 Hb1) as (b' & -> & Hb0' & Hb1').
  cbn [numSub ofNat ofZ toBinary64].
  assert (0 <= Qred (inject_Z (Z.of_nat 1) - b'))%Q as Hc0.
  { rewrite Qred_correct. destruct b' as [bn bd].
    unfold Qle, Qminus, Qplus, Qopp, inject_Z in *. cbn [Qnum Qden] in *. lia. }
  assert (Qred (inject_Z (Z.of_nat 1) - b') <= 1)%Q as Hc1.
  { rewrite Qred_correct. destruct b' as [bn bd].
    unfold Qle, Qminus, Qplus, Qopp, inject_Z in *. cbn [Qnum Qden] in *. lia. }
  destruct (round64_unit _ Hc0 Hc1) as (c & -> & Hc0' & Hc1').
  cbn [numMul toBinary64]. apply round64_unit; rewrite Qred_correct.
  - by apply Qmult_le_0_compat.
  - apply Qle_trans with (1 * c)%Q.
    + by apply Qmult_le_compat_r.
    + by rewrite Qmult_1_l.
Qed.

Lemma numLe_trans : Transitive numLe.
Proof.
  intros [a| | |] [b| | |] [c| | |]; cbn; try done. apply Qle_trans.
Qed.

(** The comparator of the hub ranking on scores between 0 and 1. *)
Lemma byHubScore_finite (a b : HubScore) :
  inUnit (hubScore a) → inUnit (hubScore b) →
  if isPositive (byHubScore a b) then numLe (hubScore a) (hubScore b)
  else numLe (hubScore b) (hubScore a).
Proof.
  intros (x & Hx & _) (y & Hy & _). unfold byHubScore. rewrite Hx, Hy.
  destruct (isPositive (numSub (Fin y) (Fin x))) eqn:E; cbn [numLe].
  - apply isPositive_numSub_Fin in E. by apply Qlt_le_weak.
  - apply Qnot_lt_le. intros H. apply isPositive_numSub_Fin in H. congruence.
Qed.

(** Property X5 ([identifyHubs], scores).  For verses with distinct ids,
    some of which has a reference, and a cache without hubs and rankings:
    the hub score of every verse is the binary64 product of its degree
    divided by the highest degree and of one minus its clustering
    coefficient, every quotient, the difference and the product rounded
    to binary64; it lies between 0 and 1, and the result is ordered by
    these rounded scores, highest first. *)
Theorem hub_scores_combine_degree_and_clustering (verses : list Verse) (topN : Z)
    (w : World) :
  hubs (statsCache w) = None →
  centrality (statsCache w) = None →
  clustering (statsCache w) = None →
  NoDup (id <$> verses) →
  0 < max_list (map refCount verses) →
  ∃ r w',
    identifyHubs verses topN w = (Ok r, w') ∧
    (∀ h, h ∈ r →
       hubScore h
       = toBinary64
           (numMul
              (toBinary64 (numDiv (ofNat (refCount (hsVerse h)))
                             (ofNat (max_list (map refCount verses)))))
              (toBinary64
                 (numSub (ofNat 1)
                    (toBinary64
                       (clusteringCoefficient
                          (clusteringScore (verseMapOf verses) (hsVerse h)))))))
       ∧ inUnit (hubScore h)) ∧
    StronglySorted (λ a b, numLe (hubScore b) (hubScore a)) r.
Proof.
  intros Hh Hc Hl Hnd Hm.
  destruct (identifyHubs_ready verses topN w) as (hs & Hhs & Hrun).
  { split; [done|]. split; by left. }
  destruct (mapRes_Ok (hubScoreOf (degreeRanking verses) (clusteringRanking verses)) verses)
    as (hs' & Hhs' & HF).
  { intros v Hv. destruct (hubScoreOf_ranked verses v Hv) as (d & c & _ & _ & _ & _ & ->).
    eauto. }
  assert (hs' = hs) as -> by congruence.
  assert (∀ h, h ∈ hs →
            hubScore h
            = hubProduct (numDiv (ofNat (refCount (hsVerse h)))
                            (ofNat (max_list (map refCount verses))))
                (clusteringCoefficient
                   (clusteringScore (verseMapOf verses) (hsVerse h)))
            ∧ inUnit (hubScore h)) as Hscore.
  { intros h Hh'. apply list_elem_of_lookup in Hh' as [i Hi].
    destruct (Forall2_lookup_r _ _ _ _ _ HF Hi) as (v & Hv & Hvh).
    apply list_elem_of_lookup_2 in Hv.
    destruct (hubScoreOf_ranked verses v Hv) as (d & c & Hd & Hdv & Hc' & Hcv & E).
    rewrite E in Hvh. injection Hvh as <-. cbn [hubScore hsVerse].
    apply degreeRanking_elem in Hd as (u & Hu & ->).
    apply clusteringRanking_elem in Hc' as (u' & Hu' & ->).
    cbn [dsVerse degreeCentrality] in *.
    rewrite (proj1 (clusteringScore_spec _ u')) in Hcv.
    assert (u = v) as -> by by apply (NoDup_id_inj verses).
    assert (u' = v) as -> by by apply (NoDup_id_inj verses).
    assert (mathMax (map refCount verses) = ofNat (max_list (map refCount verses))) as ->.
    { destruct verses; [by apply elem_of_nil in Hv|done]. }
    split; [done|]. apply inUnit_hubProduct.
    - apply numDiv_nat_unit; [done|].
      apply max_list_elem_of_le. by apply (list_elem_of_fmap_2 refCount).
    - apply clusteringScore_spec. }
  eexists _, _. split; [exact Hrun|]. split.
  - intros h Hh'.
    assert (∃ h0, h0 ∈ hs ∧ hsVerse h0 = hsVerse h ∧ hubScore h0 = hubScore h)
      as (h0 & Hh0 & E1 & E2).
    { unfold markHubs in Hh'. apply elem_of_lookup_imap in Hh' as (i & h0 & -> & Hi).
      apply list_elem_of_lookup_2, elem_of_arraySort in Hi.
      exists h0. split; [done|]. by destruct (decide _). }
    rewrite <- E1, <- E2. by apply Hscore.
  - assert (StronglySorted (λ a b, numLe (hubScore b) (hubScore a))
              (arraySort byHubScore hs)) as Hs.
    { apply arraySort_sorted_by.
      - intros a b c H1 H2. by apply (numLe_trans _ (hubScore b)).
      - intros a b Ha Hb. apply byHubScore_finite; by apply Hscore. }
    assert (StronglySorted (λ x y, numLe y x)
              (hubScore <$> markHubs topN (arraySort byHubScore hs))) as Hq.
    { rewrite markHubs_scores.
      by apply (StronglySorted_fmap hubScore (λ a b, numLe (hubScore b) (hubScore a))). }
    clear -Hq. induction (markHubs topN (arraySort byHubScore hs)) as [|h l IH];
      [constructor|].
    cbn [fmap list_fmap] in Hq. apply StronglySorted_inv in Hq as [Hq1 Hq2].
    constructor; [by apply IH|]. by rewrite Forall_fmap in Hq2.
Qed.

Lemma hub_scores_combine_degree_and_clustering_witness :
  ∃ r w',
    identifyHubs hubTieGraph 2 emptyWorld = (Ok r, w') ∧
    (∀ h, h ∈ r →
       hubScore h
       = toBinary64
           (numMul
              (toBinary64 (numDiv (ofNat (refCount (hsVerse h)))
                             (ofNat (max_list (map refCount hubTieGraph)))))
              (toBinary64
                 (numSub (ofNat 1)
                    (toBinary64
                       (clusteringCoefficient
                          (clusteringScore (verseMapOf hubTieGraph) (hsVerse h)))))))
       ∧ inUnit (hubScore h)) ∧
    StronglySorted (λ a b, numLe (hubScore b) (hubScore a)) r.
Proof.
  apply (hub_scores_combine_degree_and_clustering hubTieGraph 2 emptyWorld);
    [reflexivity|reflexivity|reflexivity| |vm_compute; lia].
  vm_compute. repeat constructor; set_solver.
Defined.

(** The rounding decides the ranking.  In [hubTieGraph] the exact
    products of A, [1 * (1 - 2/3)], and of B, [1/3 * (1 - 0)], are equal,
    and B precedes A in the input; the binary64 score of A,
    [1 - 0.6666666666666666 = 0.33333333333333337], exceeds that of B,
    [0.3333333333333333], so A is ranked second and is marked as a hub. *)
Example hub_ranking_follows_rounded_scores :
  numMul (ofNat 1) (numSub (ofNat 1) (Fin (2 # 3)))
  = numMul (Fin (1 # 3)) (numSub (ofNat 1) (ofNat 0)) ∧
  ∃ r w',
    identifyHubs hubTieGraph 2 emptyWorld = (Ok r, w') ∧
    (λ h, (id (hsVerse h), hubScore h, isHub h)) <$> r
    = [ ("N", Fin 1, true);
        ("A", Fin (3002399751580331 # 9007199254740992), true);
        ("B", Fin (6004799503160661 # 18014398509481984), false);
        ("P", Fin (6004799503160661 # 18014398509481984), false);
        ("Q", Fin (6004799503160661 # 18014398509481984), false);
        ("R", Fin 0, false) ].
Proof.
  split; [reflexivity|]. eexists _, _. split; [vm_compute; reflexivity|reflexivity].
Qed.

(** Property X6 ([identifyHubs], stale ranking).  When the cache holds no
    hubs but a degree ranking that lacks the id of one of the verses (a
    ranking computed for other data), the call throws a [TypeError] at
    [centralityData.degreeCentrality] and stores no hubs. *)
Theorem identifyHubs_throws_on_stale_ranking (verses : list Verse) (topN : Z) (w : World)
    (cen : list DegreeScore) (v : Verse) :
  hubs (statsCache w) = None →
  centrality (statsCache w) = Some cen →
  v ∈ verses →
  (∀ d, d ∈ cen → id (dsVerse d) ≠ id v) →
  ∃ w', identifyHubs verses topN w = (Throw TypeError, w') ∧
        hubs (statsCache w') = None.
Proof.
  intros Hh Hc Hv Hmiss.
  destruct (identifyHubs_fresh verses topN w Hh)
    as (cen' & clu & w2 & E1 & E2 & Hh2 & _ & Hrun).
  rewrite (calculateDegreeCentrality_cached verses w cen Hc) in E1.
  injection E1 as <-.
  exists w2. split; [|done]. rewrite Hrun.
  rewrite (mapRes_Throw _ verses TypeError v); [done| |done|].
  - intros z _. unfold hubScoreOf. destruct (arrayFind _ cen); [|by left].
    destruct (arrayFind _ clu); [right; eauto|by left].
  - unfold hubScoreOf.
    rewrite (proj2 (arrayFind_None (λ d, bool_decide (id (dsVerse d) = id v)) cen)); [done|].
    intros d Hd. apply bool_decide_eq_false. by apply Hmiss.
Qed.

Lemma identifyHubs_throws_on_stale_ranking_witness :
  ∃ w', identifyHubs chainGraph 30 staleWorld = (Throw TypeError, w') ∧
        hubs (statsCache w') = None.
Proof.
  apply (identifyHubs_throws_on_stale_ranking chainGraph 30 staleWorld
           (degreeRanking [isolatedVerse]) (plainVerse "A" ["B"]));
    [reflexivity|reflexivity|by left|].
  intros d Hd. vm_compute in Hd. apply list_elem_of_singleton in Hd as ->. done.
Defined.

(* ===================================================================== *)
(** ** The composite report *)
(* ===================================================================== *)

Lemma getNetworkStatistics_world (verses : list Verse) (w : World) :
  ∃ s, getNetworkStatistics verses w = (Ok s, (calculateDegreeCentrality verses w).2) ∧
       nodeCount s = length verses.
Proof.
  destruct (calculateDegreeCentrality_Ok verses w) as [cen Hcen].
  unfold getNetworkStatistics, mbind, M_bind.
  destruct (calculateDegreeCentrality verses w) as [r w1]. cbn [fst] in Hcen. subst r.
  eexists. split; [reflexivity|done].
Qed.

(** The marked records of a list whose marks form a prefix. *)
Lemma filter_marked_prefix (l : list HubScore) (k : nat) :
  isHub <$> l = replicate k true ++ replicate (length l - k) false →
  filter (λ h, isHub h = true) l = take k l.
Proof.
  revert k. induction l as [|h l IH]; intros k Hf; [by destruct k|].
  rewrite filter_cons. destruct k as [|k].
  - cbn [replicate app take length fmap list_fmap] in *.
    injection Hf as Hh Hf. rewrite Hh. rewrite decide_False by done.
    rewrite (IH 0); [done|]. by rewrite Nat.sub_0_r.
  - cbn [replicate app take length fmap list_fmap] in *.
    injection Hf as Hh Hf. rewrite Hh. rewrite decide_True by done.
    by rewrite (IH k).
Qed.

(** Property X7 ([computeAllStats]).  With a random source in [0,1) and
    a cache that holds no result, the call returns for every list of
    verses; the report carries the first 20 entries of the degree,
    betweenness and clustering rankings and the hubs marked among the
    first 30 of the hub ranking; afterwards all five results are cached
    in full and [lastComputed] is set to the time of the call. *)
Theorem computeAllStats_fills_report_and_cache
    (mathRandom : nat → Q) (shuffleSort : nat → list Verse → list Verse * nat)
    (verses : list Verse) (w : World) :
  unitDraws mathRandom →
  noResults (statsCache w) →
  ∃ s w' bet hub,
    computeAllStats mathRandom shuffleSort verses w = (Ok s, w') ∧
    nodeCount (statsNetwork s) = length verses ∧
    statsCentrality s = take 20 (degreeRanking verses) ∧
    statsBetweenness s = take 20 bet ∧ length bet = length verses ∧
    statsClustering s = take 20 (clusteringRanking verses) ∧
    statsHubs s = take (hubCount 30 (length verses)) hub ∧
    length hub = length verses ∧
    (∀ h, h ∈ hub → isHub h = true ↔ h ∈ statsHubs s) ∧
    centrality (statsCache w') = Some (degreeRanking verses) ∧
    betweenness (statsCache w') = Some bet ∧
    clustering (statsCache w') = Some (clusteringRanking verses) ∧
    hubs (statsCache w') = Some hub ∧
    communities (statsCache w') = Some (statsCommunities s) ∧
    lastComputed (statsCache w') = Some (clock w) ∧
    (calculateBetweennessCentrality mathRandom verses 200 w).1 = Ok bet ∧
    (detectCommunities shuffleSort verses 5
       (withRng w (rngPos w + 2 * sampleCount verses 200))).1
    = Ok (statsCommunities s).
Proof.
  intros Hr (Hc & Hb & Hl & Hm & Hh).
  (* graph-wide statistics, which fill the degree ranking *)
  destruct (getNetworkStatistics_world verses w) as (net & E0 & Hn).
  rewrite (calculateDegreeCentrality_fresh verses w Hc) in E0. cbn [snd] in E0.
  fold (degreeRanking verses) in E0.
  set (w1 := withCache w (setCentrality (degreeRanking verses) (statsCache w))) in *.
  assert (calculateDegreeCentrality verses w1 = (Ok (degreeRanking verses), w1)) as E1.
  { by apply calculateDegreeCentrality_cached. }
  (* betweenness *)
  destruct (sampleLoop_ok mathRandom verses (sampleCount verses 200) (initialCounts verses)
              (rngPos w1) Hr) as (b & Hrun & _).
  { unfold sampleCount, mathMin. lia. }
  { intros k. rewrite initialCounts_lookup. case_decide; [done|]. by intros [? ?]. }
  pose proof (calculateBetweennessCentrality_fresh mathRandom verses 200 w1 b _ Hb Hrun)
    as E2.
  set (bet := arraySort byBetweenness (betweennessScores verses b)) in *.
  set (w2 := withCache (withRng w1 (rngPos w1 + 2 * sampleCount verses 200))
               (setBetweenness bet (statsCache w1))) in *.
  (* clustering *)
  pose proof (calculateClusteringCoefficient_fresh verses w2 Hl) as E3.
  fold (clusteringRanking verses) in E3.
  set (w3 := withCache w2 (setClustering (clusteringRanking verses) (statsCache w2))) in *.
  (* hubs *)
  destruct (identifyHubs_ready verses 30 w3) as (hs & Hhs & E4).
  { split; [done|]. split; by right. }
  destruct (mapRes_Ok (hubScoreOf (degreeRanking verses) (clusteringRanking verses)) verses)
    as (hs' & Hhs' & HF).
  { intros v Hv. destruct (hubScoreOf_ranked verses v Hv) as (d & c & _ & _ & _ & _ & ->).
    eauto. }
  assert (hs' = hs) as -> by congruence.
  destruct (mapped_hubs verses hs HF) as [Hvs Hfalse].
  set (hub := markHubs 30 (arraySort byHubScore hs)) in *.
  set (w4 := withCache w3 (setHubs hub (setClustering (clusteringRanking verses)
                 (setCentrality (degreeRanking verses) (statsCache w3))))) in *.
  assert (length hub = length verses) as Hlen.
  { unfold hub, markHubs. by rewrite length_imap, length_arraySort, <- Hvs, length_fmap. }
  assert (isHub <$> hub = replicate (hubCount 30 (length verses)) true
                          ++ replicate (length verses - hubCount 30 (length verses)) false)
    as Hflags.
  { unfold hub. rewrite markHubs_flags; rewrite ?length_arraySort.
    - by rewrite <- Hvs, length_fmap.
    - intros h Hh'. apply elem_of_arraySort in Hh'. by apply Hfalse. }
  assert (filter (λ h, isHub h = true) hub = take (hubCount 30 (length verses)) hub)
    as Hfilter.
  { apply filter_marked_prefix. by rewrite Hlen. }
  (* communities *)
  pose proof (detectCommunities_fresh shuffleSort verses 5 w4 Hm) as E5.
  cbv zeta in E5.
  eexists _, _, bet, hub. split.
  { unfold computeAllStats, mbind, M_bind.
    rewrite E0, E1, E2, E3, E4, E5. reflexivity. }
  cbn [statsNetwork statsCentrality statsBetweenness statsClustering statsHubs
       statsCommunities].
  split; [done|]. split; [done|]. split; [done|]. split.
  { unfold bet, betweennessScores. by rewrite length_arraySort, length_map. }
  split; [done|]. split; [exact Hfilter|]. split; [done|]. split.
  { intros h Hh'. rewrite list_elem_of_filter. naive_solver. }
  repeat (split; [done|]). split.
  - by rewrite (calculateBetweennessCentrality_fresh mathRandom verses 200 w b _ Hb Hrun).
  - by rewrite detectCommunities_fresh.
Qed.

Lemma computeAllStats_fills_report_and_cache_witness :
  ∃ s w' bet hub,
    computeAllStats alternatingDraws identityShuffle chainGraph emptyWorld = (Ok s, w') ∧
    nodeCount (statsNetwork s) = length chainGraph ∧
    statsCentrality s = take 20 (degreeRanking chainGraph) ∧
    statsBetweenness s = take 20 bet ∧ length bet = length chainGraph ∧
    statsClustering s = take 20 (clusteringRanking chainGraph) ∧
    statsHubs s = take (hubCount 30 (length chainGraph)) hub ∧
    length hub = length chainGraph ∧
    (∀ h, h ∈ hub → isHub h = true ↔ h ∈ statsHubs s) ∧
    centrality (statsCache w') = Some (degreeRanking chainGraph) ∧
    betweenness (statsCache w') = Some bet ∧
    clustering (statsCache w') = Some (clusteringRanking chainGraph) ∧
    hubs (statsCache w') = Some hub ∧
    communities (statsCache w') = Some (statsCommunities s) ∧
    lastComputed (statsCache w') = Some (clock emptyWorld) ∧
    (calculateBetweennessCentrality alternatingDraws chainGraph 200 emptyWorld).1 = Ok bet ∧
    (detectCommunities identityShuffle chainGraph 5
       (withRng emptyWorld (rngPos emptyWorld + 2 * sampleCount chainGraph 200))).1
    = Ok (statsCommunities s).
Proof.
  apply (computeAllStats_fills_report_and_cache alternatingDraws identityShuffle
           chainGraph emptyWorld); [exact unitDraws_alternating|by repeat split].
Defined.

(* ===================================================================== *)
(** ** The betweenness and clustering rankings *)
(* ===================================================================== *)

(** The comparator of the betweenness ranking compares the accumulators. *)
Lemma byBetweenness_counts (verses : list Verse) (b : gmap string nat)
    (x y : BetweennessScore) :
  x ∈ betweennessScores verses b → y ∈ betweennessScores verses b →
  isPositive (byBetweenness x y) = bool_decide (betweennessScore x < betweennessScore y).
Proof.
  intros Hx Hy.
  apply betweennessScores_elem in Hx as (u & _ & ->), Hy as (v & _ & ->).
  unfold byBetweenness. cbn [betweennessCentrality betweennessScore].
  destruct (decide (b = ∅)) as [->|Hne].
  - rewrite map_to_list_empty. unfold countOf. rewrite !lookup_empty.
    by vm_compute.
  - rewrite (maxBetweenness_nonempty b Hne). apply isPositive_quotients.
    unfold normaliser. case_decide; lia.
Qed.

Lemma betweennessScores_verses (verses : list Verse) (b : gmap string nat) :
  bsVerse <$> betweennessScores verses b = verses.
Proof.
  unfold betweennessScores. rewrite <- list_fmap_compose. apply list_fmap_id.
Qed.

(** Property X8 ([calculateBetweennessCentrality], draws and ranking).
    With a random source in [0,1), a cache miss reads exactly two random
    values per round, [2 * min(sampleSize, n)] in all (none for a
    negative [sampleSize]); the result is ordered by [betweennessScore],
    highest first, verses of equal score in the order of the input, and
    it is stored in the cache. *)
Theorem betweenness_ranking_and_draws (mathRandom : nat → Q) (verses : list Verse)
    (sampleSize : Z) (w : World) :
  unitDraws mathRandom → betweenness (statsCache w) = None →
  ∃ r w',
    calculateBetweennessCentrality mathRandom verses sampleSize w = (Ok r, w') ∧
    rngPos w' = rngPos w + 2 * sampleCount verses sampleSize ∧
    betweenness (statsCache w') = Some r ∧
    StronglySorted (λ a b, betweennessScore b ≤ betweennessScore a) r ∧
    (∀ k, bsVerse <$> filter (λ s, betweennessScore s = k) r `sublist_of` verses).
Proof.
  intros Hr Hb.
  destruct (sampleLoop_ok mathRandom verses (sampleCount verses sampleSize)
              (initialCounts verses) (rngPos w) Hr) as (b & Hrun & _).
  { unfold sampleCount, mathMin. lia. }
  { intros k. rewrite initialCounts_lookup. case_decide; [done|]. by intros [? ?]. }
  eexists _, _. split.
  { by apply (calculateBetweennessCentrality_fresh mathRandom verses sampleSize w b). }
  split; [done|]. split; [done|]. split.
  - apply (arraySort_sorted_by _ (λ a b, betweennessScore b ≤ betweennessScore a)).
    + intros x y z ??. lia.
    + intros x y Hx Hy. rewrite (byBetweenness_counts verses b) by done.
      case_bool_decide; lia.
  - intros k. rewrite (arraySort_stable byBetweenness betweennessScore).
    + rewrite <- (betweennessScores_verses verses b) at 2.
      apply fmap_sublist, sublist_filter.
    + intros x y Hx Hy Hxy. rewrite (byBetweenness_counts verses b) by done.
      apply bool_decide_eq_false. lia.
Qed.

Lemma betweenness_ranking_and_draws_witness :
  ∃ r w',
    calculateBetweennessCentrality alternatingDraws chainGraph 3 emptyWorld = (Ok r, w') ∧
    rngPos w' = rngPos emptyWorld + 2 * sampleCount chainGraph 3 ∧
    betweenness (statsCache w') = Some r ∧
    StronglySorted (λ a b, betweennessScore b ≤ betweennessScore a) r ∧
    (∀ k, bsVerse <$> filter (λ s, betweennessScore s = k) r `sublist_of` chainGraph).
Proof.
  apply (betweenness_ranking_and_draws alternatingDraws chainGraph 3 emptyWorld);
    [exact unitDraws_alternating|reflexivity].
Defined.

(** The comparator of the clustering ranking. *)
Lemma byClustering_finite (verses : list Verse) (x y : ClusteringScore) :
  x ∈ clusteringScores verses → y ∈ clusteringScores verses →
  if isPositive (byClustering x y)
  then numLe (clusteringCoefficient x) (clusteringCoefficient y)
  else numLe (clusteringCoefficient y) (clusteringCoefficient x).
Proof.
  unfold clusteringScores. intros Hx Hy.
  apply list_elem_of_fmap in Hx as (u & -> & _), Hy as (v & -> & _).
  destruct (clusteringScore_spec (verseMapOf verses) u) as (_ & (a & Ha & _) & _).
  destruct (clusteringScore_spec (verseMapOf verses) v) as (_ & (c & Hc & _) & _).
  unfold byClustering. rewrite Ha, Hc.
  destruct (isPositive (numSub (Fin c) (Fin a))) eqn:E; cbn [numLe].
  - apply isPositive_numSub_Fin in E. by apply Qlt_le_weak.
  - apply Qnot_lt_le. intros H. apply isPositive_numSub_Fin in H. congruence.
Qed.

(** Property X9 ([calculateClusteringCoefficient], ranking).  On a cache
    miss the result is ordered by clustering coefficient, highest first,
    verses of equal coefficient in the order of the input; it is stored
    in the cache and the random source is not read. *)
Theorem clustering_ranking_sorted_and_stable (verses : list Verse) (w : World) :
  clustering (statsCache w) = None →
  ∃ r, calculateClusteringCoefficient verses w
       = (Ok r, withCache w (setClustering r (statsCache w))) ∧
       StronglySorted
         (λ a b, numLe (clusteringCoefficient b) (clusteringCoefficient a)) r ∧
       (∀ q, csVerse <$> filter (λ s, clusteringCoefficient s = q) r
             `sublist_of` verses).
Proof.
  intros Hl. eexists. split; [by apply calculateClusteringCoefficient_fresh|]. split.
  - apply (arraySort_sorted_by _
             (λ a b, numLe (clusteringCoefficient b) (clusteringCoefficient a))).
    + intros x y z H1 H2. by apply (numLe_trans _ (clusteringCoefficient y)).
    + intros x y Hx Hy. by apply (byClustering_finite verses).
  - intros q. rewrite (arraySort_stable byClustering clusteringCoefficient).
    + assert (csVerse <$> clusteringScores verses = verses) as Hvs.
      { unfold clusteringScores. rewrite <- list_fmap_compose.
        induction verses as [|v vs IH] in |- * at 2 3; [done|].
        cbn [fmap list_fmap compose]. f_equal; [apply clusteringScore_spec|done]. }
      rewrite <- Hvs at 2. apply fmap_sublist, sublist_filter.
    + intros x y Hx Hy Hxy. pose proof (byClustering_finite verses x y Hx Hy) as H.
      destruct (isPositive (byClustering x y)) eqn:E; [|done].
      unfold byClustering in E. rewrite Hxy in E.
      destruct (clusteringCoefficient y) as [c| | |]; try done.
      apply isPositive_numSub_Fin in E. by apply Qlt_irrefl in E.
Qed.

Lemma clustering_ranking_sorted_and_stable_witness :
  ∃ r, calculateClusteringCoefficient completeGraph4 emptyWorld
       = (Ok r, withCache emptyWorld (setClustering r (statsCache emptyWorld))) ∧
       StronglySorted
         (λ a b, numLe (clusteringCoefficient b) (clusteringCoefficient a)) r ∧
       (∀ q, csVerse <$> filter (λ s, clusteringCoefficient s = q) r
             `sublist_of` completeGraph4).
Proof.
  apply (clustering_ranking_sorted_and_stable completeGraph4 emptyWorld). reflexivity.
Defined.

(* ===================================================================== *)
(** ** The path search on an arbitrary index *)
(* ===================================================================== *)

Lemma walkTo_last vm start p c : walkTo vm start p c → last p = Some c.
Proof. destruct 1; [done|]. by rewrite last_snoc. Qed.

Lemma walkTo_head vm start p c : walkTo vm start p c → head p = Some start.
Proof.
  induction 1 as [|p u v r Hp IH _ _]; [done|].
  destruct p; [done|]. done.
Qed.

Lemma walkTo_end vm start p c :
  walkTo vm start p c → c = start ∨ ∃ k, vm !! k = Some c.
Proof. destruct 1; eauto. Qed.

Lemma walksInv_mono vm start queue visited visited' :
  visited ⊆ visited' → walksInv vm start queue visited → walksInv vm start queue visited'.
Proof.
  intros Hsub H p Hp. destruct (H p Hp) as (c & Hw & Hk). exists c. split; [done|].
  intros Hkey. destruct (Hk Hkey) as [Hnd Hv]. split; [done|].
  intros u Hu. apply Hsub. by apply Hv.
Qed.

Lemma expandRefs_walks vm start path c rs queue visited :
  walkTo vm start path c →
  (∀ r, r ∈ rs → r ∈ refs c) →
  (keyedById vm → NoDup (id <$> path) ∧ ∀ u, u ∈ path → id u ∈ visited) →
  walksInv vm start queue visited →
  walksInv vm start (expandRefs vm path rs queue visited).1
    (expandRefs vm path rs queue visited).2.
Proof.
  intros Hw. revert queue visited.
  induction rs as [|r rs IH]; intros queue visited Hrs Hpath Hq; [done|].
  cbn [expandRefs].
  assert (∀ r', r' ∈ rs → r' ∈ refs c) as Hrs' by (intros r' Hr'; apply Hrs; by right).
  destruct (decide (r ∈ visited)) as [Hin|Hnin]; [by apply IH|].
  assert (keyedById vm →
          NoDup (id <$> path) ∧ ∀ u, u ∈ path → id u ∈ visited ∪ {[r]}) as Hpath'.
  { intros Hk. destruct (Hpath Hk) as [Hnd Hv]. split; [done|].
    intros u Hu. apply elem_of_union_l. by apply Hv. }
  assert (walksInv vm start queue (visited ∪ {[r]})) as Hq'.
  { apply (walksInv_mono vm start queue visited); [set_solver|done]. }
  destruct (vm !! r) as [next|] eqn:E; [|by apply IH].
  apply IH; [done|done|].
  intros p Hp. apply elem_of_app in Hp as [Hp|Hp]; [by apply Hq'|].
  apply list_elem_of_singleton in Hp as ->. exists next. split.
  - apply (walkTo_step vm start path c next r); [done| |done]. apply Hrs. by left.
  - intros Hk. destruct (Hpath Hk) as [Hnd Hv]. pose proof (Hk r next E) as Hid.
    split.
    + rewrite fmap_app. cbn [fmap list_fmap]. apply NoDup_app. split; [done|].
      split; [|apply NoDup_singleton].
      intros i Hi Hi'. apply list_elem_of_singleton in Hi' as ->.
      apply list_elem_of_fmap in Hi as (u & Hu & Hin'). apply Hnin.
      rewrite <- Hid, Hu. by apply Hv.
    + intros u Hu. apply elem_of_app in Hu as [Hu|Hu].
      * apply elem_of_union_l. by apply Hv.
      * apply list_elem_of_singleton in Hu as ->. rewrite Hid. set_solver.
Qed.

Lemma bfsLoop_walks fuel endVerse vm start queue visited p :
  walksInv vm start queue visited →
  bfsLoop fuel endVerse vm queue visited = Ok (Some p) →
  ∃ c, walkTo vm start p c ∧ id c = id endVerse ∧ length p ≤ maxDepth ∧
       (keyedById vm → NoDup (id <$> p)).
Proof.
  revert queue visited. induction fuel as [|fuel IH]; intros queue visited Hq; [done|].
  cbn [bfsLoop]. destruct queue as [|path queue]; [done|].
  assert (walksInv vm start queue visited) as Hq'.
  { intros q Hq0. apply Hq. by right. }
  destruct (decide (maxDepth < length path)) as [Hlong|Hshort]; [by apply IH|].
  destruct (Hq path) as (c & Hw & Hk); [left|].
  rewrite (walkTo_last _ _ _ _ Hw).
  destruct (decide (id c = id endVerse)) as [Hid|Hid].
  - intros [= <-]. exists c. split; [done|]. split; [done|]. split; [lia|].
    intros Hkey. by apply Hk.
  - pose proof (expandRefs_walks vm start path c (refs c) queue visited Hw
                  (λ r H, H) Hk Hq') as Hinv.
    destruct (expandRefs vm path (refs c) queue visited) as [q' v']. by apply IH.
Qed.

(** Property X10 ([findShortestPath], any index).  For every index and
    every pair of verses, in the index or not, the search returns; a path
    it returns leads from [start] along resolved references to a verse
    with the id of the target and has at most 6 entries, with distinct
    ids when the index is keyed by id; the one-entry path [[start]] is
    returned exactly when start and target have the same id. *)
Theorem findShortestPath_returns_short_walks (start endVerse : Verse)
    (verseMap : gmap string Verse) :
  ∃ r, findShortestPath start endVerse verseMap = Ok r ∧
       (∀ p, r = Some p →
          ∃ c, walkTo verseMap start p c ∧ id c = id endVerse ∧
               length p ≤ maxDepth ∧
               (keyedById verseMap → NoDup (id <$> p))) ∧
       (id start = id endVerse ↔ r = Some [start]).
Proof.
  destruct (findShortestPath_terminates start endVerse verseMap) as [r Hr].
  exists r. split; [done|].
  assert (walksInv verseMap start [[start]] {[id start]}) as Hinit.
  { intros p Hp. apply list_elem_of_singleton in Hp as ->. exists start.
    split; [constructor|]. intros _. split.
    - cbn. apply NoDup_singleton.
    - intros u Hu. apply list_elem_of_singleton in Hu as ->. set_solver. }
  split.
  - intros p ->. by apply (bfsLoop_walks _ _ _ start _ _ p Hinit) in Hr.
  - unfold findShortestPath in Hr.
    replace (size verseMap + 2) with (S (size verseMap + 1)) in Hr by lia.
    cbn [bfsLoop] in Hr. rewrite decide_False in Hr by (cbn; unfold maxDepth; lia).
    cbn [last] in Hr. destruct (decide (id start = id endVerse)) as [Hid|Hid].
    + injection Hr as <-. done.
    + split; [done|]. intros ->.
      destruct (expandRefs verseMap [start] (refs start) [] {[id start]}) as [q' v'] eqn:E.
      pose proof (expandRefs_walks verseMap start [start] start (refs start) []
                    {[id start]} (walkTo_start _ _) (λ r H, H)) as Hinv.
      rewrite E in Hinv. cbn [fst snd] in Hinv.
      apply (bfsLoop_walks _ _ _ start _ _ [start]) in Hr as (c & Hw & Hc & _).
      * apply walkTo_last in Hw. cbn in Hw. congruence.
      * apply Hinv.
        -- intros _. split; [apply NoDup_singleton|].
           intros u Hu. apply list_elem_of_singleton in Hu as ->. set_solver.
        -- intros p Hp. by apply elem_of_nil in Hp.
Qed.

(** Property X11 ([findShortestPath], direction).  References are
    followed from the verse that lists them only: a target with another
    id than the start, whose id neither the start nor any verse of an
    index keyed by id lists, is not reached, whatever it references
    itself. *)
Theorem findShortestPath_needs_a_reference_to_the_target (start endVerse : Verse)
    (verseMap : gmap string Verse) :
  keyedById verseMap →
  id start ≠ id endVerse →
  (∀ u, u = start ∨ (∃ k, verseMap !! k = Some u) → id endVerse ∉ refs u) →
  findShortestPath start endVerse verseMap = Ok None.
Proof.
  intros Hk Hne Hno.
  destruct (findShortestPath_terminates start endVerse verseMap) as [r Hr].
  rewrite Hr. f_equal. destruct r as [p|]; [exfalso|done].
  assert (walksInv verseMap start [[start]] {[id start]}) as Hinit.
  { intros q Hq. apply list_elem_of_singleton in Hq as ->. exists start.
    split; [constructor|]. intros _. split.
    - cbn. apply NoDup_singleton.
    - intros u Hu. apply list_elem_of_singleton in Hu as ->. set_solver. }
  apply (bfsLoop_walks _ _ _ start _ _ p Hinit) in Hr as (c & Hw & Hc & _).
  destruct Hw as [|q u v r Hq Hr' Hv]; [done|].
  apply (Hno u); [by eapply walkTo_end|]. by rewrite <- Hc, (Hk r v Hv).
Qed.

Lemma findShortestPath_needs_a_reference_to_the_target_witness :
  findShortestPath (plainVerse "A" ["B"]) (plainVerse "Z" ["A"])
    (verseMapOf (plainVerse "Z" ["A"] :: chainGraph)) = Ok None.
Proof.
  apply findShortestPath_needs_a_reference_to_the_target.
  - apply verseMapOf_keyed.
  - done.
  - intros u [->|[k Hu]].
    + cbn. set_solver.
    + apply verseMapOf_lookup in Hu as [Hu _].
      repeat (apply elem_of_cons in Hu as [->|Hu]; [cbn; set_solver|]).
      by apply elem_of_nil in Hu.
Defined.

(* ===================================================================== *)
(** ** Label propagation *)
(* ===================================================================== *)

(** A property of the labelling that every visit keeps is kept by the
    whole propagation. *)
Lemma propagate_invariant (I : gmap string string → Prop)
    (shuffleSort : nat → list Verse → list Verse * nat)
    (iters : nat) (verses : list Verse) (lab : gmap string string) (pos : nat) :
  (∀ pos' lab' c u, u ∈ (shuffleSort pos' verses).1 → I lab' →
                    I (visitVerse (lab', c) u).1) →
  I lab → I (propagate shuffleSort iters verses lab pos).1.
Proof.
  intros Hstep. revert lab pos. induction iters as [|n IH]; intros lab pos HI; [done|].
  cbn [propagate]. pose proof (Hstep pos) as Hs.
  destruct (shuffleSort pos verses) as [shuffled pos']. cbn [fst] in Hs.
  assert (∀ l st, (∀ u, u ∈ l → u ∈ shuffled) → I st.1 → I (foldl visitVerse st l).1)
    as Hall.
  { induction l as [|u l IHl]; intros st Hsub Hst; [done|].
    cbn [foldl]. apply IHl; [intros z Hz; apply Hsub; by right|].
    destruct st as [lab0 c0]. apply Hs; [apply Hsub; by left|done]. }
  pose proof (Hall shuffled (lab, 0) (λ u H, H) HI) as H.
  destruct (foldl visitVerse (lab, 0) shuffled) as [lab' changed].
  destruct (decide (changed = 0)); [done|]. by apply IH.
Qed.

Lemma countsSet_keys (label : string) (n : nat) (counts : list (string * nat)) (l : string) :
  l ∈ (countsSet label n counts).*1 → l = label ∨ l ∈ counts.*1.
Proof.
  induction counts as [|[l0 c0] counts IH]; cbn [countsSet].
  - intros H. apply list_elem_of_singleton in H. by left.
  - destruct (decide (l0 = label)) as [->|Hne]; cbn [fmap list_fmap fst].
    + intros H. by right.
    + intros H. apply elem_of_cons in H as [->|H]; [right; by left|].
      destruct (IH H) as [?|?]; [by left|right; by right].
Qed.

(** The labels tallied are labels carried by the references. *)
Lemma tallyLabels_keys (lab : gmap string string) (rs : list string) (l : string) :
  l ∈ (tallyLabels lab rs).*1 → ∃ r, r ∈ rs ∧ lab !! r = Some l.
Proof.
  unfold tallyLabels.
  assert (∀ counts,
            l ∈ (foldl (λ counts refId,
                   match truthyLabel (lab !! refId) with
                   | Some label =>
                       countsSet label (default 0 (countsGet label counts) + 1) counts
                   | None => counts
                   end) counts rs).*1 →
            l ∈ counts.*1 ∨ ∃ r, r ∈ rs ∧ lab !! r = Some l) as Hgen.
  { induction rs as [|r rs IH]; intros counts; cbn [foldl]; [by left|].
    intros H. destruct (IH _ H) as [Hk|(r' & Hr' & Hl)].
    - destruct (truthyLabel (lab !! r)) as [label|] eqn:E; [|by left].
      apply countsSet_keys in Hk as [->|Hk]; [|by left].
      right. exists r. split; [left|]. unfold truthyLabel in E.
      destruct (lab !! r) as [s|]; [|done]. by destruct (decide (s = EmptyString)); simplify_eq.
    - right. exists r'. split; [by right|done]. }
  intros H. destruct (Hgen [] H) as [Hk|?]; [by apply elem_of_nil in Hk|done].
Qed.

(** The label chosen is the current one or one of those tallied. *)
Lemma mostCommon_from (counts : list (string * nat)) (cur : option string) (l : string) :
  mostCommon counts cur = Some l → cur = Some l ∨ l ∈ counts.*1.
Proof.
  unfold mostCommon. generalize 0 as n. revert cur.
  induction counts as [|[l0 k] counts IH]; intros cur n; cbn [foldl snd]; [by left|].
  destruct (decide (n < k)); intros H; apply IH in H as [H|H].
  - injection H as ->. right. by left.
  - right. by right.
  - by left.
  - right. by right.
Qed.

Lemma initialLabels_values (verses : list Verse) (k l : string) :
  initialLabels verses !! k = Some l → l = k ∧ k ∈ map id verses.
Proof.
  unfold initialLabels. rewrite (foldl_insert_lookup id verses ∅ k).
  destruct (last (filter (λ v, id v = k) verses)) as [v|] eqn:E; [|by rewrite lookup_empty].
  apply last_Some_elem_of, list_elem_of_filter in E as [Hk Hv].
  intros [= <-]. split; [done|]. rewrite <- Hk. by apply (list_elem_of_fmap_2 id).
Qed.

(** A visit writes no label that was not a label before. *)
Lemma visitVerse_values (P : string → Prop) (lab : gmap string string) (c : nat) (v : Verse) :
  (∀ k l, lab !! k = Some l → P l) →
  ∀ k l, (visitVerse (lab, c) v).1 !! k = Some l → P l.
Proof.
  intros HP k l. unfold visitVerse.
  destruct (decide (refCount v = 0)); [apply HP|].
  destruct (decide (lab !! id v = _)) as [|Hne]; [apply HP|]. cbn [fst].
  destruct (mostCommon (tallyLabels lab (refs v)) (lab !! id v)) as [l'|] eqn:E;
    cbn [labelsSet].
  - destruct (decide (k = id v)) as [->|Hk].
    + rewrite lookup_insert_eq. intros [= <-].
      apply mostCommon_from in E as [E|E]; [by apply (HP (id v))|].
      apply tallyLabels_keys in E as (r & _ & Hr). by apply (HP r).
    + rewrite lookup_insert_ne by done. apply HP.
  - intros H. apply lookup_delete_Some in H as [_ H]. by apply (HP k).
Qed.

(** Property X12 ([detectCommunities], labels).  Every label of the
    final labelling is the id of a verse of the list: propagation only
    ever copies labels, whatever order the shuffle produces. *)
Theorem community_labels_are_verse_ids
    (shuffleSort : nat → list Verse → list Verse * nat)
    (verses : list Verse) (iterations : Z) (w : World) :
  communities (statsCache w) = None →
  ∃ r w',
    detectCommunities shuffleSort verses iterations w = (Ok r, w') ∧
    (∀ k l, labels r !! k = Some l → l ∈ map id verses) ∧
    (∀ g l, g ∈ communityGroups r → g.1 = Some l → l ∈ map id verses).
Proof.
  intros Hm. eexists _, _. split; [by apply detectCommunities_fresh|].
  cbn [labels communityGroups].
  assert (∀ k l, (propagate shuffleSort (Z.to_nat iterations) verses
                    (initialLabels verses) (rngPos w)).1 !! k = Some l →
                 l ∈ map id verses) as Hvalues.
  { apply (propagate_invariant (λ lab, ∀ k l, lab !! k = Some l → l ∈ map id verses)).
    - intros pos' lab' c u _ H. by apply visitVerse_values.
    - intros k l H. by apply initialLabels_values in H as [-> ?]. }
  split; [exact Hvalues|].
  intros g l Hg Hl. unfold significantCommunities in Hg.
  apply elem_of_arraySort, list_elem_of_filter in Hg as [_ Hg].
  pose proof (groupByLabel_spec
                (propagate shuffleSort (Z.to_nat iterations) verses
                   (initialLabels verses) (rngPos w)).1 verses) as (_ & _ & Hkeys).
  destruct (proj1 (Hkeys g.1)) as (v & _ & Hv).
  { by apply list_elem_of_fmap_2. }
  rewrite Hl in Hv. by apply (Hvalues (id v)).
Qed.

Lemma community_labels_are_verse_ids_witness :
  ∃ r w',
    detectCommunities driftingShuffle chainGraph 5 emptyWorld = (Ok r, w') ∧
    (∀ k l, labels r !! k = Some l → l ∈ map id chainGraph) ∧
    (∀ g l, g ∈ communityGroups r → g.1 = Some l → l ∈ map id chainGraph).
Proof.
  apply (community_labels_are_verse_ids driftingShuffle chainGraph 5 emptyWorld).
  reflexivity.
Defined.

(** Property X13 ([detectCommunities], isolated verses).  When the
    shuffle reorders the verses, a verse whose [refCount] is 0 (as that
    of every verse sharing its id) keeps its own id as label through all
    rounds: it is skipped by the propagation and never relabelled. *)
Theorem isolated_verses_keep_their_label
    (shuffleSort : nat → list Verse → list Verse * nat)
    (verses : list Verse) (iterations : Z) (w : World) (v : Verse) :
  shuffles shuffleSort →
  communities (statsCache w) = None →
  v ∈ verses →
  (∀ u, u ∈ verses → id u = id v → refCount u = 0) →
  ∃ r w',
    detectCommunities shuffleSort verses iterations w = (Ok r, w') ∧
    labels r !! id v = Some (id v).
Proof.
  intros Hsh Hm Hv Hiso. eexists _, _. split; [by apply detectCommunities_fresh|].
  cbn [labels].
  apply (propagate_invariant (λ lab, lab !! id v = Some (id v))).
  - intros pos' lab' c u Hu H. rewrite (Hsh pos' verses) in Hu.
    unfold visitVerse. destruct (decide (refCount u = 0)) as [|Hrc]; [done|].
    destruct (decide (lab' !! id u = _)); [done|]. cbn [fst].
    assert (id u ≠ id v) as Hne by (intros E; by apply Hrc, Hiso).
    destruct (mostCommon _ _); cbn [labelsSet].
    + by rewrite lookup_insert_ne.
    + by rewrite lookup_delete_ne.
  - by apply initialLabels_lookup.
Qed.

Lemma identityShuffle_shuffles : shuffles identityShuffle.
Proof. intros k l. done. Qed.

Lemma isolated_verses_keep_their_label_witness :
  ∃ r w',
    detectCommunities identityShuffle (plainVerse "Z" [] :: chainGraph) 5 emptyWorld
    = (Ok r, w') ∧
    labels r !! id (plainVerse "Z" []) = Some (id (plainVerse "Z" [])).
Proof.
  apply (isolated_verses_keep_their_label identityShuffle (plainVerse "Z" [] :: chainGraph)
           5 emptyWorld (plainVerse "Z" []));
    [exact identityShuffle_shuffles|reflexivity|by left|].
  intros u Hu Hid.
  repeat (apply elem_of_cons in Hu as [->|Hu]; [by vm_compute in Hid|| done|]).
  by apply elem_of_nil in Hu.
Defined.

(** A list without repetition whose entries are all equal has at most
    one entry. *)
Lemma NoDup_all_equal {A} (l : list A) :
  NoDup l → (∀ x y, x ∈ l → y ∈ l → x = y) → length l ≤ 1.
Proof.
  intros Hnd Heq. destruct l as [|x [|y l]]; cbn; [lia|lia|]. exfalso.
  apply NoDup_cons in Hnd as [Hx _]. apply Hx.
  rewrite (Heq x y); [left|left|right; left].
Qed.

(** Property X14 ([detectCommunities], no references).  When every
    verse has [refCount] 0, the ids are distinct and the shuffle
    reorders the verses, the first round changes nothing and ends the
    loop: the labelling is the initial one, no community is reported, and
    the shuffle has run once (not at all when [iterations] is not
    positive). *)
Theorem graph_without_references_has_no_communities
    (shuffleSort : nat → list Verse → list Verse * nat)
    (verses : list Verse) (iterations : Z) (w : World) :
  shuffles shuffleSort →
  communities (statsCache w) = None →
  (∀ v, v ∈ verses → refCount v = 0) →
  NoDup (id <$> verses) →
  ∃ r w',
    detectCommunities shuffleSort verses iterations w = (Ok r, w') ∧
    labels r = initialLabels verses ∧
    communityGroups r = [] ∧
    communityCount r = 0 ∧
    rngPos w' = (if decide (0 < iterations)%Z
                 then (shuffleSort (rngPos w) verses).2 else rngPos w).
Proof.
  intros Hsh Hm Hzero Hnd.
  assert (propagate shuffleSort (Z.to_nat iterations) verses (initialLabels verses)
            (rngPos w)
          = (initialLabels verses,
             if decide (0 < iterations)%Z
             then (shuffleSort (rngPos w) verses).2 else rngPos w)) as Hrun.
  { destruct (Z.to_nat iterations) as [|n] eqn:En.
    - cbn [propagate]. by rewrite decide_False by lia.
    - cbn [propagate]. rewrite decide_True by lia.
      pose proof (Hsh (rngPos w) verses) as Hp.
      destruct (shuffleSort (rngPos w) verses) as [shuffled pos']. cbn [fst snd] in *.
      assert (∀ l st, (∀ u, u ∈ l → refCount u = 0) → foldl visitVerse st l = st) as Hnop.
      { induction l as [|u l IH]; intros st Hl; [done|]. cbn [foldl].
        assert (visitVerse st u = st) as ->.
        { destruct st as [lab c]. unfold visitVerse.
          rewrite decide_True; [done|]. apply Hl. by left. }
        apply IH. intros z Hz. apply Hl. by right. }
      rewrite Hnop; [done|]. intros u Hu. apply Hzero. by rewrite <- Hp. }
  assert (significantCommunities (initialLabels verses) verses = []) as Hnone.
  { destruct (significantCommunities (initialLabels verses) verses) as [|g gs] eqn:E;
      [done|]. exfalso.
    assert (g ∈ significantCommunities (initialLabels verses) verses) as Hg
      by (rewrite E; left).
    apply elem_of_significantCommunities in Hg as [Hg Hlen].
    assert (length g.2 ≤ 1); [|lia]. rewrite Hg. apply NoDup_all_equal.
    - apply NoDup_filter. by apply NoDup_fmap_1 in Hnd.
    - intros x y Hx Hy. apply list_elem_of_filter in Hx as [Hx Hxv], Hy as [Hy Hyv].
      rewrite (initialLabels_lookup verses x Hxv) in Hx.
      rewrite (initialLabels_lookup verses y Hyv) in Hy.
      apply (NoDup_id_inj verses); [done|done|done|]. congruence. }
  eexists _, _. split; [by apply detectCommunities_fresh|].
  cbn [labels communityGroups communityCount withCache withRng rngPos].
  rewrite Hrun. cbn [fst snd]. rewrite Hnone. done.
Qed.

Lemma graph_without_references_has_no_communities_witness :
  ∃ r w',
    detectCommunities identityShuffle [isolatedVerse; plainVerse "2" []] 5 emptyWorld
    = (Ok r, w') ∧
    labels r = initialLabels [isolatedVerse; plainVerse "2" []] ∧
    communityGroups r = [] ∧
    communityCount r = 0 ∧
    rngPos w' = (if decide (0 < 5)%Z
                 then (identityShuffle (rngPos emptyWorld)
                         [isolatedVerse; plainVerse "2" []]).2
                 else rngPos emptyWorld).
Proof.
  apply (graph_without_references_has_no_communities identityShuffle
           [isolatedVerse; plainVerse "2" []] 5 emptyWorld);
    [exact identityShuffle_shuffles|reflexivity| |].
  - intros v Hv. repeat (apply elem_of_cons in Hv as [->|Hv]; [done|]).
    by apply elem_of_nil in Hv.
  - vm_compute. repeat constructor; set_solver.
Defined.

(** *** The label a visit assigns *)

Lemma countsGet_fmap (f : string → nat) (K : list string) (l : string) :
  countsGet l ((λ k, (k, f k)) <$> K) = if decide (l ∈ K) then Some (f l) else None.
Proof.
  unfold countsGet. induction K as [|k K IH]; [done|].
  cbn [fmap list_fmap List.find fst]. destruct (decide (k = l)) as [->|Hne].
  - rewrite bool_decide_eq_true_2 by done. cbn. rewrite decide_True; [done|left].
  - rewrite bool_decide_eq_false_2 by done. fold (fmap (λ k, (k, f k)) K). rewrite IH.
    destruct (decide (l ∈ K)) as [Hin|Hnin].
    + rewrite decide_True; [done|by right].
    + rewrite decide_False; [done|]. intros H. apply elem_of_cons in H as [->|H]; done.
Qed.

Lemma countsSet_fmap_new (f : string → nat) (K : list string) (l : string) (n : nat) :
  l ∉ K → countsSet l n ((λ k, (k, f k)) <$> K) = ((λ k, (k, f k)) <$> K) ++ [(l, n)].
Proof.
  induction K as [|k K IH]; intros Hl; [done|].
  cbn [fmap list_fmap countsSet]. rewrite decide_False.
  - fold (fmap (λ k, (k, f k)) K). rewrite IH; [done|]. intros H. apply Hl. by right.
  - intros ->. apply Hl. left.
Qed.

Lemma countsSet_fmap_old (f : string → nat) (K : list string) (l : string) (n : nat) :
  NoDup K → l ∈ K →
  countsSet l n ((λ k, (k, f k)) <$> K)
  = (λ k, (k, if decide (k = l) then n else f k)) <$> K.
Proof.
  induction K as [|k K IH]; intros Hnd Hl; [by apply elem_of_nil in Hl|].
  apply NoDup_cons in Hnd as [Hk Hnd]. cbn [fmap list_fmap countsSet].
  destruct (decide (k = l)) as [->|Hne].
  - f_equal. apply list_fmap_ext. intros i k Hik.
    rewrite decide_False; [done|]. intros ->. apply Hk.
    by apply list_elem_of_lookup_2 in Hik.
  - f_equal. fold (fmap (λ k, (k, f k)) K). apply IH; [done|].
    apply elem_of_cons in Hl as [->|Hl]; done.
Qed.

Lemma labelCount_snoc (lab : gmap string string) (rs : list string) (r l : string) :
  labelCount lab (rs ++ [r]) l
  = labelCount lab rs l + (if decide (truthyLabel (lab !! r) = Some l) then 1 else 0).
Proof.
  unfold labelCount. rewrite filter_app, length_app. f_equal.
  rewrite filter_cons, filter_nil. by destruct (decide _).
Qed.

Lemma labelCount_pos (lab : gmap string string) (rs : list string) (l : string) :
  0 < labelCount lab rs l ↔ ∃ r, r ∈ rs ∧ truthyLabel (lab !! r) = Some l.
Proof.
  unfold labelCount. split.
  - intros H. destruct (filter _ rs) as [|r rs'] eqn:E; [cbn in H; lia|].
    exists r. assert (r ∈ filter (λ r, truthyLabel (lab !! r) = Some l) rs) as Hr
      by (rewrite E; left).
    apply list_elem_of_filter in Hr as [? ?]. done.
  - intros (r & Hr & Hl).
    assert (r ∈ filter (λ r, truthyLabel (lab !! r) = Some l) rs) as Hin
      by by apply list_elem_of_filter.
    destruct (filter _ rs); [by apply elem_of_nil in Hin|cbn; lia].
Qed.

(** The tally of a reference list: one entry per label met, in the order
    in which the labels are first met, each with the number of
    references that carry it. *)
Lemma tallyLabels_spec (lab : gmap string string) (rs : list string) :
  ∃ K, tallyLabels lab rs = (λ l, (l, labelCount lab rs l)) <$> K ∧
       NoDup K ∧
       (∀ l, l ∈ K ↔ 0 < labelCount lab rs l) ∧
       (∀ K1 l K2, K = K1 ++ l :: K2 →
          ∃ rs1 r rs2, rs = rs1 ++ r :: rs2 ∧ truthyLabel (lab !! r) = Some l ∧
                       ∀ r' l', r' ∈ rs1 → truthyLabel (lab !! r') = Some l' → l' ∈ K1).
Proof.
  induction rs as [|r rs IH] using rev_ind.
  - exists []. split; [done|]. split; [constructor|]. split.
    + intros l. split; [intros H; by apply elem_of_nil in H|cbn; lia].
    + intros K1 l K2 H. by destruct K1.
  - destruct IH as (K & Ht & Hnd & Hkeys & Hord).
    unfold tallyLabels in *. rewrite foldl_snoc, Ht.
    destruct (truthyLabel (lab !! r)) as [l0|] eqn:E.
    + rewrite countsGet_fmap. destruct (decide (l0 ∈ K)) as [Hin|Hnin].
      * (* a label met before *)
        exists K. split; [|split; [done|split]].
        -- rewrite countsSet_fmap_old by done. apply list_fmap_ext. intros i l _.
           rewrite labelCount_snoc, E. cbn [default].
           destruct (decide (l = l0)) as [->|Hne].
           ++ by rewrite decide_True.
           ++ rewrite decide_False by congruence. f_equal. lia.
        -- intros l. rewrite labelCount_snoc, Hkeys, E.
           destruct (decide (Some l0 = Some l)) as [[= ->]|]; [|lia].
           apply Hkeys in Hin. lia.
        -- intros K1 l K2 HK. destruct (Hord K1 l K2 HK) as (rs1 & r1 & rs2 & -> & Hl & Hb).
           exists rs1, r1, (rs2 ++ [r]). split; [by rewrite <- app_assoc|done].
      * (* a label met for the first time *)
        assert (labelCount lab rs l0 = 0) as H0.
        { destruct (labelCount lab rs l0) eqn:E0; [done|].
          exfalso. apply Hnin, Hkeys. lia. }
        exists (K ++ [l0]). split; [|split; [|split]].
        -- rewrite countsSet_fmap_new by done. rewrite fmap_app. cbn [fmap list_fmap].
           f_equal.
           ++ apply list_fmap_ext. intros i l Hi. f_equal.
              rewrite labelCount_snoc, E. rewrite decide_False; [lia|].
              intros [= ->]. by apply list_elem_of_lookup_2 in Hi.
           ++ rewrite labelCount_snoc, E, H0, decide_True by done. done.
        -- apply NoDup_app. split; [done|]. split; [|apply NoDup_singleton].
           intros l Hl Hl'. by apply list_elem_of_singleton in Hl' as ->.
        -- intros l. rewrite elem_of_app, list_elem_of_singleton, labelCount_snoc, Hkeys, E.
           destruct (decide (Some l0 = Some l)) as [[= ->]|Hne];
             [split; [lia|intros _; by right]|].
           split; [intros [?|Heq]; [lia|congruence]|intros ?; left; lia].
        -- intros K1 l K2 HK. destruct K2 as [|k K2 _] using rev_ind.
           ++ apply app_inj_tail in HK as [-> ->].
              exists rs, r, []. split; [done|]. split; [done|].
              intros r' l' Hr' Hl'. apply Hkeys, labelCount_pos. eauto.
           ++ rewrite app_comm_cons, app_assoc in HK.
              apply app_inj_tail in HK as [HK _].
              destruct (Hord K1 l K2 HK) as (rs1 & r1 & rs2 & -> & Hl & Hb).
              exists rs1, r1, (rs2 ++ [r]). split; [by rewrite <- app_assoc|done].
    + exists K. split; [|split; [done|split]].
      * apply list_fmap_ext. intros i l _.
        rewrite labelCount_snoc, E, decide_False by done. f_equal. lia.
      * intros l. rewrite labelCount_snoc, Hkeys, E, decide_False by done. lia.
      * intros K1 l K2 HK. destruct (Hord K1 l K2 HK) as (rs1 & r1 & rs2 & -> & Hl & Hb).
        exists rs1, r1, (rs2 ++ [r]). split; [by rewrite <- app_assoc|done].
Qed.

(** The scan for the most common label returns the first entry with the
    highest count, when some count is positive. *)
Lemma mostCommon_first_max (counts : list (string * nat)) (cur : option string) :
  counts ≠ [] → (∀ e, e ∈ counts → 0 < e.2) →
  ∃ c1 l n c2, counts = c1 ++ (l, n) :: c2 ∧ mostCommon counts cur = Some l ∧
               (∀ e, e ∈ c1 → e.2 < n) ∧ (∀ e, e ∈ c2 → e.2 ≤ n).
Proof.
  intros Hne Hpos. unfold mostCommon.
  assert (∀ m ml,
            (foldl (λ '(maxCount, maxLabel) '(label, count),
                      if decide (maxCount < count) then (count, Some label)
                      else (maxCount, maxLabel)) (m, ml) counts = (m, ml)
             ∧ ∀ e, e ∈ counts → e.2 ≤ m)
            ∨ ∃ c1 l n c2,
                counts = c1 ++ (l, n) :: c2 ∧
                foldl (λ '(maxCount, maxLabel) '(label, count),
                         if decide (maxCount < count) then (count, Some label)
                         else (maxCount, maxLabel)) (m, ml) counts = (n, Some l) ∧
                m < n ∧ (∀ e, e ∈ c1 → e.2 < n) ∧ (∀ e, e ∈ c2 → e.2 ≤ n)) as Hgen.
  { clear. induction counts as [|[l0 n0] counts IH]; intros m ml.
    - left. split; [done|]. intros e He. by apply elem_of_nil in He.
    - cbn [foldl]. destruct (decide (m < n0)) as [Hlt|Hge].
      + right. destruct (IH n0 (Some l0)) as [[Hsame Hall]|(c1 & l & n & c2 & -> & Hf & Hn & H1 & H2)].
        * exists [], l0, n0, counts. split; [done|]. split; [done|]. split; [done|].
          split; [intros e He; by apply elem_of_nil in He|done].
        * exists ((l0, n0) :: c1), l, n, c2. split; [done|]. split; [done|].
          split; [lia|]. split; [|done].
          intros e He. apply elem_of_cons in He as [->|He]; [done|by apply H1].
      + destruct (IH m ml) as [[Hsame Hall]|(c1 & l & n & c2 & -> & Hf & Hn & H1 & H2)].
        * left. split; [done|]. intros e He.
          apply elem_of_cons in He as [->|He]; [cbn; lia|by apply Hall].
        * right. exists ((l0, n0) :: c1), l, n, c2. split; [done|]. split; [done|].
          split; [done|]. split; [|done].
          intros e He. apply elem_of_cons in He as [->|He]; [cbn; lia|by apply H1]. }
  destruct (Hgen 0 cur) as [[_ Hall]|(c1 & l & n & c2 & E & Hf & _ & H1 & H2)].
  - exfalso. destruct counts as [|e counts]; [done|].
    assert (e ∈ e :: counts) as He by left.
    pose proof (Hpos e He). pose proof (Hall e He). lia.
  - exists c1, l, n, c2. rewrite Hf. done.
Qed.

(** Property X15 (one visit of [detectCommunities]).  A verse with
    references, one of which carries a label, takes the label of its
    first reference whose label is carried by the largest number of its
    references: labels are counted among the references only, the
    verse's own label is not, and a tie goes to the label met first. *)
Theorem visit_adopts_the_most_common_label (lab : gmap string string) (changed : nat)
    (v : Verse) :
  refCount v ≠ 0 →
  (∃ r, r ∈ refs v ∧ is_Some (truthyLabel (lab !! r))) →
  ∃ l rs1 r rs2,
    refs v = rs1 ++ r :: rs2 ∧
    truthyLabel (lab !! r) = Some l ∧
    (∀ l', labelCount lab (refs v) l' ≤ labelCount lab (refs v) l) ∧
    (∀ r' l', r' ∈ rs1 → truthyLabel (lab !! r') = Some l' →
              labelCount lab (refs v) l' < labelCount lab (refs v) l) ∧
    visitVerse (lab, changed) v
    = (if decide (lab !! id v = Some l) then (lab, changed)
       else (<[id v := l]> lab, S changed)).
Proof.
  intros Hrc (r0 & Hr0 & [l0 Hl0]).
  destruct (tallyLabels_spec lab (refs v)) as (K & Ht & Hnd & Hkeys & Hord).
  destruct (mostCommon_first_max (tallyLabels lab (refs v)) (lab !! id v))
    as (c1 & l & n & c2 & Hsplit & Hmc & H1 & H2).
  { rewrite Ht. assert (l0 ∈ K) as Hin by (apply Hkeys, labelCount_pos; eauto).
    destruct K; [by apply elem_of_nil in Hin|done]. }
  { intros e He. rewrite Ht in He. apply list_elem_of_fmap in He as (k & -> & Hk).
    by apply Hkeys. }
  rewrite Ht in Hsplit. apply fmap_app_inv in Hsplit as (K1 & K2' & -> & HK & ->).
  destruct K2' as [|k K2]; [done|]. cbn [fmap list_fmap] in HK.
  injection HK as Hlk Hn Hc2. subst k n c2.
  destruct (Hord K1 l K2 eq_refl) as (rs1 & r & rs2 & Hrs & Hl & Hbefore).
  exists l, rs1, r, rs2. split; [done|]. split; [done|]. split; [|split].
  - intros l'. destruct (decide (0 < labelCount lab (refs v) l')) as [Hp|]; [|lia].
    apply Hkeys in Hp. apply elem_of_app in Hp as [Hp|Hp].
    + apply Nat.lt_le_incl.
      apply (H1 (l', labelCount lab (refs v) l')).
      by apply (list_elem_of_fmap_2 (λ l, (l, labelCount lab (refs v) l))).
    + apply elem_of_cons in Hp as [->|Hp]; [done|].
      apply (H2 (l', labelCount lab (refs v) l')).
      by apply (list_elem_of_fmap_2 (λ l, (l, labelCount lab (refs v) l))).
  - intros r' l' Hr' Hl'.
    apply (H1 (l', labelCount lab (refs v) l')).
    apply (list_elem_of_fmap_2 (λ l, (l, labelCount lab (refs v) l))).
    by apply (Hbefore r').
  - unfold visitVerse. rewrite decide_False by done. rewrite Hmc.
    by destruct (decide (lab !! id v = Some l)).
Qed.

Lemma visit_adopts_the_most_common_label_witness :
  ∃ l rs1 r rs2,
    refs (plainVerse "B" ["A"; "C"]) = rs1 ++ r :: rs2 ∧
    truthyLabel (initialLabels chainGraph !! r) = Some l ∧
    (∀ l', labelCount (initialLabels chainGraph) (refs (plainVerse "B" ["A"; "C"])) l'
           ≤ labelCount (initialLabels chainGraph) (refs (plainVerse "B" ["A"; "C"])) l) ∧
    (∀ r' l', r' ∈ rs1 → truthyLabel (initialLabels chainGraph !! r') = Some l' →
              labelCount (initialLabels chainGraph) (refs (plainVerse "B" ["A"; "C"])) l'
              < labelCount (initialLabels chainGraph) (refs (plainVerse "B" ["A"; "C"])) l) ∧
    visitVerse (initialLabels chainGraph, 0) (plainVerse "B" ["A"; "C"])
    = (if decide (initialLabels chainGraph !! id (plainVerse "B" ["A"; "C"]) = Some l)
       then (initialLabels chainGraph, 0)
       else (<[id (plainVerse "B" ["A"; "C"]) := l]> (initialLabels chainGraph), 1)).
Proof.
  apply (visit_adopts_the_most_common_label (initialLabels chainGraph) 0
           (plainVerse "B" ["A"; "C"])); [done|].
  exists "A". split; [left|]. vm_compute. eauto.
Defined.

(* ===================================================================== *)
(** ** The data loader *)
(* ===================================================================== *)

Lemma builtFrom_fields (e : string * DataLoader.Entry) (x : Verse) :
  builtFrom e x →
  id x = e.1 ∧ refs x = DataLoader.r e.2 ∧ refCount x = length (refs x) ∧
  book x = firstField (verse x) ∧ DataLoader.v e.2 = Some (verse x).
Proof. by intros (text & Hv & ->). Qed.

(** The map over the entries when every entry has a text. *)
Lemma mapEntries_Ok (entries : list (string * DataLoader.Entry)) (bs : gset string) :
  allTexts entries →
  ∃ vs, DataLoader.mapEntries entries bs = (Ok vs, bs ∪ list_to_set (book <$> vs)) ∧
        Forall2 builtFrom entries vs.
Proof.
  revert bs. induction entries as [|[i data] entries IH]; intros bs Hall.
  - exists []. split; [|constructor]. cbn. f_equal. set_solver.
  - destruct (Hall (i, data)) as [text Ht]; [left|]. cbn [snd] in Ht.
    destruct (IH (bs ∪ {[firstField text]})) as (vs & Hvs & HF).
    { intros e He. apply Hall. by right. }
    eexists (_ :: vs). cbn [DataLoader.mapEntries]. rewrite Ht, Hvs. split.
    + f_equal. cbn [fmap list_fmap book list_to_set]. set_solver.
    + constructor; [|done]. by exists text.
Qed.

(** The map over the entries up to the first entry without a text. *)
Lemma mapEntries_Throw (good : list (string * DataLoader.Entry)) (i : string)
    (bad : DataLoader.Entry) (rest : list (string * DataLoader.Entry)) (bs : gset string) :
  allTexts good → DataLoader.v bad = None →
  ∃ vs, Forall2 builtFrom good vs ∧
        DataLoader.mapEntries (good ++ (i, bad) :: rest) bs
        = (Throw TypeError, bs ∪ list_to_set (book <$> vs)).
Proof.
  revert bs. induction good as [|[j data] good IH]; intros bs Hall Hbad.
  - exists []. split; [constructor|]. cbn [app DataLoader.mapEntries]. rewrite Hbad.
    f_equal. set_solver.
  - destruct (Hall (j, data)) as [text Ht]; [left|]. cbn [snd] in Ht.
    destruct (IH (bs ∪ {[firstField text]})) as (vs & HF & Hvs); [|done|].
    { intros e He. apply Hall. by right. }
    eexists (_ :: vs). split.
    + constructor; [|done]. by exists text.
    + cbn [app DataLoader.mapEntries]. rewrite Ht, Hvs. f_equal.
      cbn [fmap list_fmap book list_to_set entryVerse]. set_solver.
Qed.

(** A document has a first entry without a text, or none. *)
Lemma allTexts_dec (entries : list (string * DataLoader.Entry)) :
  allTexts entries ∨
  ∃ good i bad rest, entries = good ++ (i, bad) :: rest ∧ allTexts good ∧
                     DataLoader.v bad = None.
Proof.
  induction entries as [|[i data] entries IH].
  - left. intros e He. by apply elem_of_nil in He.
  - destruct (DataLoader.v data) as [text|] eqn:E.
    + destruct IH as [Hall|(good & j & bad & rest & -> & Hg & Hb)].
      * left. intros e He. apply elem_of_cons in He as [->|He]; [by eexists|by apply Hall].
      * right. exists ((i, data) :: good), j, bad, rest. split; [done|]. split; [|done].
        intros e He. apply elem_of_cons in He as [->|He]; [by eexists|by apply Hg].
    + right. exists [], i, data, entries. split; [done|]. split; [|done].
      intros e He. by apply elem_of_nil in He.
Qed.

Lemma Forall2_builtFrom_ids (entries : list (string * DataLoader.Entry)) (vs : list Verse) :
  Forall2 builtFrom entries vs → id <$> vs = entries.*1.
Proof.
  induction 1 as [|e x entries vs He _ IH]; [done|].
  cbn [fmap list_fmap]. f_equal; [|done]. by apply builtFrom_fields in He as [? _].
Qed.

(** A run of [processData] on a document all of whose entries have a
    text, and on one with a first entry without text. *)
Lemma processData_Ok (parseInt : string → Number) (s : DataLoader.State)
    (entries : list (string * DataLoader.Entry)) :
  DataLoader.bibleData s = Some entries → allTexts entries →
  ∃ vs, Forall2 builtFrom entries vs ∧
        DataLoader.processData parseInt s
        = (Ok tt, {| DataLoader.bibleData := Some entries;
                     DataLoader.verses := arraySort (DataLoader.byParsedId parseInt) vs;
                     DataLoader.books :=
                       DataLoader.books s ∪ list_to_set (book <$> vs) |}).
Proof.
  intros Hb Hall.
  destruct (mapEntries_Ok entries (DataLoader.books s) Hall) as (vs & Hvs & HF).
  exists vs. split; [done|]. unfold DataLoader.processData. by rewrite Hb, Hvs.
Qed.

Lemma processData_Throw (parseInt : string → Number) (s : DataLoader.State)
    (good : list (string * DataLoader.Entry)) (i : string) (bad : DataLoader.Entry)
    (rest : list (string * DataLoader.Entry)) :
  DataLoader.bibleData s = Some (good ++ (i, bad) :: rest) →
  allTexts good → DataLoader.v bad = None →
  ∃ vs, Forall2 builtFrom good vs ∧
        DataLoader.processData parseInt s
        = (Throw TypeError,
           {| DataLoader.bibleData := Some (good ++ (i, bad) :: rest);
              DataLoader.verses := DataLoader.verses s;
              DataLoader.books := DataLoader.books s ∪ list_to_set (book <$> vs) |}).
Proof.
  intros Hb Hall Hbad.
  destruct (mapEntries_Throw good i bad rest (DataLoader.books s) Hall Hbad)
    as (vs & HF & Hvs).
  exists vs. split; [done|]. unfold DataLoader.processData. by rewrite Hb, Hvs.
Qed.

(** Property X16 ([processData], success).  When every entry of the
    loaded object has a text, [processData] replaces the verse list by
    one verse per entry (in some order): its id is the key, its text
    [data.v], its book the text before the first space, its references
    the keys of [data.r] and its [refCount] their number; distinct keys
    give distinct ids.  The books are added to the set of books and the
    loaded object is left as it is. *)
Theorem processData_builds_one_verse_per_entry (parseInt : string → Number)
    (s : DataLoader.State) (entries : list (string * DataLoader.Entry)) :
  DataLoader.bibleData s = Some entries →
  allTexts entries →
  ∃ s' vs,
    DataLoader.processData parseInt s = (Ok tt, s') ∧
    Forall2 builtFrom entries vs ∧
    DataLoader.verses s' ≡ₚ vs ∧
    DataLoader.bibleData s' = Some entries ∧
    DataLoader.books s' = DataLoader.books s ∪ list_to_set (book <$> vs) ∧
    (∀ x, x ∈ DataLoader.verses s' →
       refCount x = length (refs x) ∧ book x = firstField (verse x) ∧
       id x ∈ entries.*1) ∧
    (NoDup entries.*1 → NoDup (id <$> DataLoader.verses s')).
Proof.
  intros Hb Hall.
  destruct (processData_Ok parseInt s entries Hb Hall) as (vs & HF & Hrun).
  eexists _, vs. split; [exact Hrun|].
  cbn [DataLoader.verses DataLoader.bibleData DataLoader.books].
  split; [done|]. split; [apply arraySort_perm|]. split; [done|]. split; [done|]. split.
  - intros x Hx. apply elem_of_arraySort in Hx.
    apply list_elem_of_lookup in Hx as [k Hk].
    destruct (Forall2_lookup_r _ _ _ _ _ HF Hk) as (e & He & Hex).
    apply builtFrom_fields in Hex as (Hid & _ & Hrc & Hbook & _).
    split; [done|]. split; [done|]. rewrite Hid.
    apply list_elem_of_lookup_2 in He. by apply (list_elem_of_fmap_2 fst).
  - intros Hnd. rewrite (arraySort_perm (DataLoader.byParsedId parseInt) vs).
    by rewrite (Forall2_builtFrom_ids entries vs HF).
Qed.

Lemma allTexts_sampleDocument : allTexts sampleDocument.
Proof.
  intros e He. repeat (apply elem_of_cons in He as [->|He]; [by eexists|]).
  by apply elem_of_nil in He.
Qed.

Lemma processData_builds_one_verse_per_entry_witness :
  ∃ s' vs,
    DataLoader.processData parseDecimal
      {| DataLoader.bibleData := Some sampleDocument; DataLoader.verses := chainGraph;
         DataLoader.books := ∅ |} = (Ok tt, s') ∧
    Forall2 builtFrom sampleDocument vs ∧
    DataLoader.verses s' ≡ₚ vs ∧
    DataLoader.bibleData s' = Some sampleDocument ∧
    DataLoader.books s' = ∅ ∪ list_to_set (book <$> vs) ∧
    (∀ x, x ∈ DataLoader.verses s' →
       refCount x = length (refs x) ∧ book x = firstField (verse x) ∧
       id x ∈ sampleDocument.*1) ∧
    (NoDup sampleDocument.*1 → NoDup (id <$> DataLoader.verses s')).
Proof.
  apply (processData_builds_one_verse_per_entry parseDecimal
           {| DataLoader.bibleData := Some sampleDocument; DataLoader.verses := chainGraph;
              DataLoader.books := ∅ |} sampleDocument);
    [reflexivity|exact allTexts_sampleDocument].
Defined.

Lemma isPositive_numSub_same (q : Q) : isPositive (numSub (Fin q) (Fin q)) = false.
Proof.
  destruct (isPositive (numSub (Fin q) (Fin q))) eqn:E; [|done].
  apply isPositive_numSub_Fin in E. by apply Qlt_irrefl in E.
Qed.

(** Property X17 ([processData], order).  When every entry has a text
    and [parseInt] gives a finite number for every key, the verse list is
    ordered by the parsed keys, smallest first, and verses whose keys
    parse to the same number keep the order of the entries. *)
Theorem processData_sorts_by_parsed_id (parseInt : string → Number)
    (s : DataLoader.State) (entries : list (string * DataLoader.Entry)) :
  DataLoader.bibleData s = Some entries →
  allTexts entries →
  (∀ e, e ∈ entries → ∃ q, parseInt e.1 = Fin q) →
  ∃ s' vs,
    DataLoader.processData parseInt s = (Ok tt, s') ∧
    Forall2 builtFrom entries vs ∧
    StronglySorted (λ a b, numLe (parseInt (id a)) (parseInt (id b)))
      (DataLoader.verses s') ∧
    (∀ n, filter (λ x, parseInt (id x) = n) (DataLoader.verses s')
          = filter (λ x, parseInt (id x) = n) vs).
Proof.
  intros Hb Hall Hfin.
  destruct (mapEntries_Ok entries (DataLoader.books s) Hall) as (vs & Hvs & HF).
  eexists _, vs. split.
  { unfold DataLoader.processData. rewrite Hb, Hvs. reflexivity. }
  cbn [DataLoader.verses]. split; [done|].
  assert (∀ x, x ∈ vs → ∃ q, parseInt (id x) = Fin q) as Hq.
  { intros x Hx. apply list_elem_of_lookup in Hx as [k Hk].
    destruct (Forall2_lookup_r _ _ _ _ _ HF Hk) as (e & He & Hex).
    apply builtFrom_fields in Hex as (-> & _). apply Hfin.
    by apply list_elem_of_lookup_2 in He. }
  split.
  - apply arraySort_sorted_by.
    + intros a b c H1 H2. by apply (numLe_trans _ (parseInt (id b))).
    + intros x y Hx Hy. destruct (Hq x Hx) as [qx Ex], (Hq y Hy) as [qy Ey].
      unfold DataLoader.byParsedId. rewrite Ex, Ey.
      destruct (isPositive (numSub (Fin qx) (Fin qy))) eqn:E; cbn [numLe].
      * apply isPositive_numSub_Fin in E. by apply Qlt_le_weak.
      * apply Qnot_lt_le. intros H. apply isPositive_numSub_Fin in H. congruence.
  - intros n. apply (arraySort_stable _ (λ x, parseInt (id x))).
    intros x y Hx Hy Hxy. destruct (Hq x Hx) as [qx Ex].
    unfold DataLoader.byParsedId. rewrite <- Hxy, Ex. apply isPositive_numSub_same.
Qed.

Lemma processData_sorts_by_parsed_id_witness :
  ∃ s' vs,
    DataLoader.processData parseDecimal
      {| DataLoader.bibleData := Some sampleDocument; DataLoader.verses := [];
         DataLoader.books := ∅ |} = (Ok tt, s') ∧
    Forall2 builtFrom sampleDocument vs ∧
    StronglySorted (λ a b, numLe (parseDecimal (id a)) (parseDecimal (id b)))
      (DataLoader.verses s') ∧
    (∀ n, filter (λ x, parseDecimal (id x) = n) (DataLoader.verses s')
          = filter (λ x, parseDecimal (id x) = n) vs).
Proof.
  apply (processData_sorts_by_parsed_id parseDecimal
           {| DataLoader.bibleData := Some sampleDocument; DataLoader.verses := [];
              DataLoader.books := ∅ |} sampleDocument);
    [reflexivity|exact allTexts_sampleDocument|].
  intros e He. repeat (apply elem_of_cons in He as [->|He]; [by eexists|]).
  by apply elem_of_nil in He.
Defined.

(** Property X18 ([processData], failure).  When an entry has no text,
    [processData] throws a [TypeError] at that entry: the verse list and
    the loaded object stay as they were, but the books of the entries
    before it have already been added to the set of books. *)
Theorem processData_failure_keeps_the_verses (parseInt : string → Number)
    (s : DataLoader.State) (good : list (string * DataLoader.Entry)) (i : string)
    (bad : DataLoader.Entry) (rest : list (string * DataLoader.Entry)) :
  DataLoader.bibleData s = Some (good ++ (i, bad) :: rest) →
  allTexts good →
  DataLoader.v bad = None →
  ∃ s' vs,
    DataLoader.processData parseInt s = (Throw TypeError, s') ∧
    DataLoader.verses s' = DataLoader.verses s ∧
    DataLoader.bibleData s' = DataLoader.bibleData s ∧
    Forall2 builtFrom good vs ∧
    DataLoader.books s' = DataLoader.books s ∪ list_to_set (book <$> vs).
Proof.
  intros Hb Hall Hbad.
  destruct (processData_Throw parseInt s good i bad rest Hb Hall Hbad) as (vs & HF & Hrun).
  eexists _, vs. split; [exact Hrun|].
  cbn [DataLoader.verses DataLoader.bibleData DataLoader.books]. by rewrite Hb.
Qed.

Lemma processData_failure_keeps_the_verses_witness :
  ∃ s' vs,
    DataLoader.processData parseDecimal
      {| DataLoader.bibleData := Some brokenDocument; DataLoader.verses := chainGraph;
         DataLoader.books := ∅ |} = (Throw TypeError, s') ∧
    DataLoader.verses s' = chainGraph ∧
    DataLoader.bibleData s' = Some brokenDocument ∧
    Forall2 builtFrom [("1", {| DataLoader.v := Some "GEN 1 1"; DataLoader.r := ["2"] |})]
      vs ∧
    DataLoader.books s' = ∅ ∪ list_to_set (book <$> vs).
Proof.
  apply (processData_failure_keeps_the_verses parseDecimal
           {| DataLoader.bibleData := Some brokenDocument; DataLoader.verses := chainGraph;
              DataLoader.books := ∅ |}
           [("1", {| DataLoader.v := Some "GEN 1 1"; DataLoader.r := ["2"] |})]
           "2" {| DataLoader.v := None; DataLoader.r := [] |}
           [("3", {| DataLoader.v := Some "EXO 2 1"; DataLoader.r := [] |})]);
    [reflexivity| |reflexivity].
  intros e He. apply list_elem_of_singleton in He as ->. by eexists.
Defined.

(** Property X19 ([loadData]).  The load answers [true] exactly when the
    response was parsed to an object all of whose entries have a text.
    A load that answers [false] never changes the verse list; when the
    request fails, the response is not [ok] or the body is not JSON it
    changes nothing at all, while a parsed document that cannot be
    processed has already replaced the loaded object.  No load removes a
    book from the set of books. *)
Theorem loadData_outcome (parseInt : string → Number) (f : DataLoader.Fetched)
    (s : DataLoader.State) :
  let res := DataLoader.loadData parseInt f s in
  (res.1 = true ↔
     ∃ entries, f = DataLoader.JsonValue (Some entries) ∧ allTexts entries) ∧
  (res.1 = false → DataLoader.verses res.2 = DataLoader.verses s) ∧
  (∀ data, f = DataLoader.JsonValue data → DataLoader.bibleData res.2 = data) ∧
  ((∀ data, f ≠ DataLoader.JsonValue data) → res.2 = s) ∧
  DataLoader.books s ⊆ DataLoader.books res.2.
Proof.
  destruct f as [|status| |[entries|]]; cbn zeta.
  1-3: cbn [DataLoader.loadData fst snd];
       (split; [split; [done|by intros (? & ? & _)]|]); split; [done|];
       split; [done|]; split; done.
  - (* a parsed object *)
    set (s1 := {| DataLoader.bibleData := Some entries;
                  DataLoader.verses := DataLoader.verses s;
                  DataLoader.books := DataLoader.books s |}).
    destruct (allTexts_dec entries) as [Hall|(good & i & bad & rest & -> & Hg & Hbad)].
    + destruct (processData_Ok parseInt s1 entries eq_refl Hall) as (vs & _ & Hrun).
      unfold DataLoader.loadData. fold s1. rewrite Hrun. cbn [fst snd].
      split; [split; [intros _; by exists entries|done]|].
      split; [done|]. split; [by intros data [= <-]|].
      split; [intros H; by destruct (H (Some entries))|].
      cbn. set_solver.
    + destruct (processData_Throw parseInt s1 good i bad rest eq_refl Hg Hbad)
        as (vs & _ & Hrun).
      unfold DataLoader.loadData. fold s1. rewrite Hrun. cbn [fst snd].
      split; [split; [done|]|].
      { intros (entries & [= <-] & Hall).
        destruct (Hall (i, bad)) as [text Ht]; [|cbn in Ht; congruence].
        apply elem_of_app. right. left. }
      split; [done|]. split; [by intros data [= <-]|].
      split; [intros H; by destruct (H (Some (good ++ (i, bad) :: rest)))|].
      cbn. set_solver.
  - (* the document null *)
    cbn [DataLoader.loadData DataLoader.processData DataLoader.bibleData fst snd].
    split; [split; [done|by intros (? & ? & _)]|].
    split; [done|]. split; [by intros data [= <-]|].
    split; [intros H; by destruct (H None)|done].
Qed.

(** [find] returns the first entry that passes the test. *)
Lemma arrayFind_first {A} (p : A → bool) (l : list A) (x : A) :
  arrayFind p l = Some x ↔
  ∃ l1 l2, l = l1 ++ x :: l2 ∧ p x = true ∧ ∀ y, y ∈ l1 → p y = false.
Proof.
  unfold arrayFind. induction l as [|z l IH]; cbn [List.find].
  - split; [done|]. intros (l1 & l2 & H & _). by destruct l1.
  - destruct (p z) eqn:E.
    + split.
      * intros [= ->]. exists [], l. split; [done|]. split; [done|].
        intros y Hy. by apply elem_of_nil in Hy.
      * intros ([|z' l1] & l2 & H & Hx & Hl1).
        -- by injection H as ->.
        -- injection H as <- _. rewrite Hl1 in E; [done|left].
    + rewrite IH. split.
      * intros (l1 & l2 & -> & Hx & Hl1). exists (z :: l1), l2. split; [done|].
        split; [done|]. intros y Hy. apply elem_of_cons in Hy as [->|Hy]; [done|by apply Hl1].
      * intros ([|z' l1] & l2 & H & Hx & Hl1).
        -- injection H as -> _. congruence.
        -- injection H as <- ->. exists l1, l2. split; [done|]. split; [done|].
           intros y Hy. apply Hl1. by right.
Qed.

Lemma arrayFind_head_filter {A} (p : A → bool) (l : list A) :
  arrayFind p l = head (filter (λ x, p x = true) l).
Proof.
  unfold arrayFind. induction l as [|z l IH]; [done|].
  cbn [List.find]. rewrite filter_cons. destruct (p z) eqn:E.
  - by rewrite decide_True.
  - by rewrite decide_False by congruence.
Qed.

(** Property X20 (lookups by id).  [findVerseById] returns the first
    verse of the list with the id, while the index that the statistics
    build with [new Map] holds the last one; the two agree when the ids
    are distinct, and both miss exactly the ids of no verse. *)
Theorem id_lookup_first_and_last (s : DataLoader.State) (i : string) :
  let sameId := filter (λ x, id x = i) (DataLoader.verses s) in
  DataLoader.findVerseById i s = head sameId ∧
  verseMapOf (DataLoader.verses s) !! i = last sameId ∧
  (NoDup (id <$> DataLoader.verses s) →
   DataLoader.findVerseById i s = verseMapOf (DataLoader.verses s) !! i) ∧
  (DataLoader.findVerseById i s = None ↔ i ∉ id <$> DataLoader.verses s).
Proof.
  cbn zeta. set (vs := DataLoader.verses s).
  assert (DataLoader.findVerseById i s = head (filter (λ x, id x = i) vs)) as Hfirst.
  { unfold DataLoader.findVerseById. fold vs. rewrite arrayFind_head_filter.
    f_equal. apply list_filter_iff. intros x. by rewrite bool_decide_eq_true. }
  assert (verseMapOf vs !! i = last (filter (λ x, id x = i) vs)) as Hlast.
  { unfold verseMapOf. rewrite (foldl_insert_lookup (λ v, v) vs ∅ i).
    by destruct (last (filter (λ v, id v = i) vs)). }
  split; [done|]. split; [done|]. split.
  - intros Hnd. rewrite Hfirst, Hlast.
    assert (length (filter (λ x, id x = i) vs) ≤ 1) as Hlen.
    { apply NoDup_all_equal.
      - apply NoDup_filter. by apply NoDup_fmap_1 in Hnd.
      - intros x y Hx Hy. apply list_elem_of_filter in Hx as [Hx Hxv], Hy as [Hy Hyv].
        apply (NoDup_id_inj vs); [done|done|done|congruence]. }
    destruct (filter (λ x, id x = i) vs) as [|x [|y l]]; [done|done|cbn in Hlen; lia].
  - rewrite Hfirst. split.
    + intros H Hin. apply list_elem_of_fmap in Hin as (x & -> & Hx).
      assert (x ∈ filter (λ y, id y = id x) vs) as Hf by by apply list_elem_of_filter.
      destruct (filter (λ y, id y = id x) vs); [by apply elem_of_nil in Hf|done].
    + intros Hnin. destruct (filter (λ x, id x = i) vs) as [|x l] eqn:E; [done|].
      exfalso. apply Hnin.
      assert (x ∈ filter (λ x, id x = i) vs) as Hf by (rewrite E; left).
      apply list_elem_of_filter in Hf as [<- Hx]. by apply (list_elem_of_fmap_2 id).
Qed.

Lemma append_cons (c : Ascii.ascii) (a b : string) :
  (String c a +:+ b)%string = String c (a +:+ b).
Proof. reflexivity. Qed.

Lemma append_empty (b : string) : (EmptyString +:+ b)%string = b.
Proof. reflexivity. Qed.

Lemma prefix_occurs (t s : string) :
  String.prefix t s = true ↔ ∃ b, s = (t +:+ b)%string.
Proof.
  revert s. induction t as [|c t IH]; intros s.
  - destruct s; simpl; (split; [intros _; by eexists|done]).
  - destruct s as [|d s].
    + simpl. split; [done|]. intros (b & H). by rewrite append_cons in H.
    + cbn. destruct (Ascii.ascii_dec c d) as [->|Hne].
      * rewrite IH. split; intros (b & H); exists b.
        -- rewrite append_cons. congruence.
        -- rewrite append_cons in H. congruence.
      * split; [done|]. intros (b & H). rewrite append_cons in H. congruence.
Qed.

(** [includes] is the substring test. *)
Lemma includes_occursIn (s t : string) : includes s t = true ↔ occursIn t s.
Proof.
  unfold occursIn. induction s as [|c s IH]; cbn [includes].
  - rewrite orb_false_r, prefix_occurs. split.
    + intros (b & H). by exists EmptyString, b.
    + intros (a & b & H). destruct a; [by exists b|].
      by rewrite append_cons in H.
  - rewrite orb_true_iff, prefix_occurs, IH. split.
    + intros [(b & H)|(a & b & H)].
      * by exists EmptyString, b.
      * exists (String c a), b. rewrite append_cons. by rewrite H.
    + intros ([|d a] & b & H).
      * left. by exists b.
      * right. exists a, b. rewrite append_cons in H. congruence.
Qed.

(** Property X21 ([findVerse]).  The search normalises the query with
    [toUpperCase] and [trim] and returns the first verse of the list
    whose text contains the normalised query as a substring, [null] when
    no text contains it; a query that normalises to the empty string
    matches every text, so it returns the first verse of the list. *)
Theorem findVerse_returns_the_first_match (toUpperCase trim : string → string)
    (verseRef : string) (s : DataLoader.State) :
  let normalized := trim (toUpperCase verseRef) in
  (∀ x, DataLoader.findVerse toUpperCase trim verseRef s = Some x ↔
        ∃ l1 l2, DataLoader.verses s = l1 ++ x :: l2 ∧
                 occursIn normalized (verse x) ∧
                 ∀ y, y ∈ l1 → ¬ occursIn normalized (verse y)) ∧
  (DataLoader.findVerse toUpperCase trim verseRef s = None ↔
   ∀ y, y ∈ DataLoader.verses s → ¬ occursIn normalized (verse y)) ∧
  (normalized = EmptyString →
   DataLoader.findVerse toUpperCase trim verseRef s = head (DataLoader.verses s)).
Proof.
  cbn zeta. unfold DataLoader.findVerse. cbn zeta.
  set (n := trim (toUpperCase verseRef)). split; [|split].
  - intros x. rewrite arrayFind_first. split.
    + intros (l1 & l2 & H & Hx & Hl1). exists l1, l2. split; [done|].
      split; [by apply includes_occursIn|].
      intros y Hy Ho. apply includes_occursIn in Ho. rewrite (Hl1 y Hy) in Ho. done.
    + intros (l1 & l2 & H & Hx & Hl1). exists l1, l2. split; [done|].
      split; [by apply includes_occursIn|].
      intros y Hy. destruct (includes (verse y) n) eqn:E; [|done].
      exfalso. apply (Hl1 y Hy). by apply includes_occursIn.
  - rewrite arrayFind_None. split.
    + intros H y Hy Ho. apply includes_occursIn in Ho. rewrite (H y Hy) in Ho. done.
    + intros H y Hy. destruct (includes (verse y) n) eqn:E; [|done].
      exfalso. apply (H y Hy). by apply includes_occursIn.
  - intros ->. destruct (DataLoader.verses s) as [|x l]; [done|].
    unfold arrayFind. cbn [List.find head].
    assert (includes (verse x) EmptyString = true) as ->; [|done].
    apply includes_occursIn. by exists EmptyString, (verse x).
Qed.

Lemma sum_list_Permutation (l1 l2 : list nat) : l1 ≡ₚ l2 → sum_list l1 = sum_list l2.
Proof. induction 1; simpl; lia. Qed.

Lemma entryBooks_built (entries : list (string * DataLoader.Entry)) (vs : list Verse) :
  Forall2 builtFrom entries vs → entryBooks entries = list_to_set (book <$> vs).
Proof.
  unfold entryBooks. induction 1 as [|e x entries vs He _ IH]; [done|].
  destruct He as (text & Hv & ->).
  cbn [omap list_omap fmap list_fmap]. rewrite Hv. cbn [option_fmap option_map fmap].
  cbn [list_to_set book entryVerse]. fold (omap (λ e, firstField <$> DataLoader.v e.2) entries).
  by rewrite IH.
Qed.

Lemma refCounts_built (entries : list (string * DataLoader.Entry)) (vs : list Verse) :
  Forall2 builtFrom entries vs →
  map refCount vs = (λ e, length (DataLoader.r e.2)) <$> entries.
Proof.
  induction 1 as [|e x entries vs He _ IH]; [done|].
  destruct He as (text & Hv & ->). cbn [map fmap list_fmap]. f_equal. exact IH.
Qed.

(** Property X22 ([getStats] after a load).  After the first successful
    load, [getStats] reports the number of entries as [verseCount], the
    total number of reference keys as [referenceCount] and the number of
    distinct books as [bookCount]; [nodeCount] and [edgeCount] of
    [getNetworkStatistics] on the loaded verses are the same two counts. *)
Theorem getStats_after_the_first_load (parseInt : string → Number)
    (entries : list (string * DataLoader.Entry)) (w : World) :
  allTexts entries →
  ∃ s' net w',
    DataLoader.loadData parseInt (DataLoader.JsonValue (Some entries)) DataLoader.initial
    = (true, s') ∧
    DataLoader.verseCount (DataLoader.getStats s') = length entries ∧
    DataLoader.referenceCount (DataLoader.getStats s')
    = sum_list ((λ e, length (DataLoader.r e.2)) <$> entries) ∧
    DataLoader.bookCount (DataLoader.getStats s') = size (entryBooks entries) ∧
    getNetworkStatistics (DataLoader.getVerses s') w = (Ok net, w') ∧
    nodeCount net = DataLoader.verseCount (DataLoader.getStats s') ∧
    edgeCount net = DataLoader.referenceCount (DataLoader.getStats s').
Proof.
  intros Hall.
  set (s1 := {| DataLoader.bibleData := Some entries;
                DataLoader.verses := DataLoader.verses DataLoader.initial;
                DataLoader.books := DataLoader.books DataLoader.initial |}).
  destruct (processData_Ok parseInt s1 entries eq_refl Hall) as (vs & HF & Hrun).
  set (s' := {| DataLoader.bibleData := Some entries;
                DataLoader.verses := arraySort (DataLoader.byParsedId parseInt) vs;
                DataLoader.books :=
                  DataLoader.books s1 ∪ list_to_set (book <$> vs) |}) in *.
  assert (DataLoader.verses s' ≡ₚ vs) as Hperm by apply arraySort_perm.
  assert (DataLoader.books s' = DataLoader.books s1 ∪ list_to_set (book <$> vs))
    as Hbooks by done.
  destruct (getNetworkStatistics_world (DataLoader.verses s') w) as (net & Hnet & Hn).
  exists s', net, (calculateDegreeCentrality (DataLoader.verses s') w).2.
  split. { unfold DataLoader.loadData. fold s1. by rewrite Hrun. }
  cbn [DataLoader.getStats DataLoader.verseCount DataLoader.referenceCount
       DataLoader.bookCount DataLoader.getVerses].
  assert (edgeCount net = foldl (λ sum x, sum + refCount x) 0 (DataLoader.verses s'))
    as He.
  { unfold getNetworkStatistics, mbind, M_bind in Hnet.
    destruct (calculateDegreeCentrality (DataLoader.verses s') w) as [[cen| |] wc];
      [|done|done]. by injection Hnet as <-. }
  split; [|split; [|split; [|split; [done|split; [done|done]]]]].
  - rewrite Hperm. symmetry. by apply Forall2_length in HF.
  - rewrite totalRefs_sum, Nat.add_0_l.
    rewrite (sum_list_Permutation _ (map refCount vs)).
    + by rewrite (refCounts_built entries vs HF).
    + by apply fmap_Permutation.
  - rewrite Hbooks, (entryBooks_built entries vs HF). cbn.
    f_equal. set_solver.
Qed.

Lemma getStats_after_the_first_load_witness :
  ∃ s' net w',
    DataLoader.loadData parseDecimal (DataLoader.JsonValue (Some sampleDocument))
      DataLoader.initial = (true, s') ∧
    DataLoader.verseCount (DataLoader.getStats s') = length sampleDocument ∧
    DataLoader.referenceCount (DataLoader.getStats s')
    = sum_list ((λ e, length (DataLoader.r e.2)) <$> sampleDocument) ∧
    DataLoader.bookCount (DataLoader.getStats s') = size (entryBooks sampleDocument) ∧
    getNetworkStatistics (DataLoader.getVerses s') emptyWorld = (Ok net, w') ∧
    nodeCount net = DataLoader.verseCount (DataLoader.getStats s') ∧
    edgeCount net = DataLoader.referenceCount (DataLoader.getStats s').
Proof.
  apply (getStats_after_the_first_load parseDecimal sampleDocument emptyWorld).
  exact allTexts_sampleDocument.
Defined.

(** Property X23 ([getNetworkStatistics], cached ranking).  The call
    does not cache its own result, but it reads [topVerses] from the
    cached degree ranking: after a call for one list, a call for another
    list reports the counts of the second list next to the [topVerses]
    of the first, and changes nothing in the cache. *)
Theorem network_statistics_reuse_the_cached_ranking (verses1 verses2 : list Verse)
    (w : World) :
  centrality (statsCache w) = None →
  ∃ s1 s2 w1,
    getNetworkStatistics verses1 w = (Ok s1, w1) ∧
    getNetworkStatistics verses2 w1 = (Ok s2, w1) ∧
    topVerses s2 = topVerses s1 ∧
    nodeCount s2 = length verses2 ∧
    edgeCount s2 = sum_list (map refCount verses2) ∧
    maxDegree s2 = arraySort byCountDesc (map refCount verses2) !! 0.
Proof.
  intros Hc.
  pose proof (calculateDegreeCentrality_fresh verses1 w Hc) as E1.
  set (w1 := withCache w (setCentrality (arraySort byDegreeCentrality (degreeScores verses1))
                            (statsCache w))) in *.
  assert (calculateDegreeCentrality verses2 w1
          = (Ok (arraySort byDegreeCentrality (degreeScores verses1)), w1)) as E2.
  { by apply calculateDegreeCentrality_cached. }
  eexists _, _, w1. split; [|split].
  - unfold getNetworkStatistics, mbind, M_bind. rewrite E1. reflexivity.
  - unfold getNetworkStatistics, mbind, M_bind. rewrite E2. reflexivity.
  - cbn [topVerses nodeCount edgeCount maxDegree].
    rewrite totalRefs_sum. done.
Qed.

Lemma network_statistics_reuse_the_cached_ranking_witness :
  ∃ s1 s2 w1,
    getNetworkStatistics chainGraph emptyWorld = (Ok s1, w1) ∧
    getNetworkStatistics chain3 w1 = (Ok s2, w1) ∧
    topVerses s2 = topVerses s1 ∧
    nodeCount s2 = length chain3 ∧
    edgeCount s2 = sum_list (map refCount chain3) ∧
    maxDegree s2 = arraySort byCountDesc (map refCount chain3) !! 0.
Proof.
  apply (network_statistics_reuse_the_cached_ranking chainGraph chain3 emptyWorld).
  reflexivity.
Defined.

(* ===================================================================== *)
(** ** Repeated runs *)
(* ===================================================================== *)








